(** * hop2it: a shallow embedding of the proxy core

    The development follows the TypeScript sources of the repository:
    the route resolver and the forwarding pipeline ([proxy-server.ts]),
    the trace manager ([trace-manager.ts]), the logger ([logger.ts]),
    the log streamer ([log-streamer.ts]) and the rotation engine
    ([log-rotation.ts]).

    Conventions.
    - A JavaScript string is a [string]; its characters stand for code
      units.  [String.length] is the [length] property.
    - A JavaScript number that only ever holds a small non-negative integer
      (a score, a length, a byte count) is a [nat]; a time stamp is a [Z].
    - An optional field ([x?: T]) is an [option T]; [None] is [undefined].
    - [Date.now()] is an explicit argument [now].
    - Side effects on the outside world (the response, the console, the
      upstream proxy) are returned as a list of events in program order.
    - A function of the runtime that the sources only call ([new URL],
      [Buffer.toString], [JSON.parse]) is a parameter of the functions that
      reach it. *)

From Stdlib Require Import Ascii String ZArith Lia List.
From stdpp Require Import gmap strings pretty.

Local Open Scope string_scope.

(* ===================================================================== *)
(** * Definitions                                                         *)
(* ===================================================================== *)

(** ** JavaScript string primitives used by the sources *)

Module JS.

(** [s.startsWith(p)] *)
Fixpoint startsWith (s p : string) {struct p} : bool :=
  match p with
  | EmptyString => true
  | String b p' =>
      match s with
      | EmptyString => false
      | String a s' => if Ascii.eqb a b then startsWith s' p' else false
      end
  end.

(** [s.substring(n)]: the characters from index [n] on. *)
Fixpoint substringFrom (n : nat) (s : string) : string :=
  match n, s with
  | O, _ => s
  | S n', EmptyString => EmptyString
  | S n', String _ s' => substringFrom n' s'
  end.

(** [s.substring(0, n)]: the first [n] characters. *)
Fixpoint substringTo (n : nat) (s : string) : string :=
  match n, s with
  | O, _ => EmptyString
  | S n', EmptyString => EmptyString
  | S n', String a s' => String a (substringTo n' s')
  end.

(** [s.endsWith(suf)]: [suf] is no longer than [s] and the last
    [suf.length] characters of [s] are [suf]. *)
Definition endsWith (s suf : string) : bool :=
  (String.length suf <=? String.length s)%nat
  && String.eqb (substringFrom (String.length s - String.length suf) s) suf.

(** [s.includes(c)] for a one-character needle. *)
Fixpoint includes (s : string) (c : ascii) : bool :=
  match s with
  | EmptyString => false
  | String a s' => Ascii.eqb a c || includes s' c
  end.

(** [s.split(c)]: the pieces between the occurrences of [c]; never empty. *)
Fixpoint split (c : ascii) (s : string) : list string :=
  match s with
  | EmptyString => [EmptyString]
  | String a s' =>
      if Ascii.eqb a c then EmptyString :: split c s'
      else match split c s' with
           | [] => [String a EmptyString]
           | piece :: pieces => String a piece :: pieces
           end
  end.

(** [s.split(c, limit)]: the first [limit] pieces. *)
Definition splitLimit (c : ascii) (limit : nat) (s : string) : list string :=
  firstn limit (split c s).

(** ['*'.repeat(n)] *)
Fixpoint repeat (c : ascii) (n : nat) : string :=
  match n with
  | O => EmptyString
  | S n' => String c (repeat c n')
  end.

(** Truthiness of a value of type [string | undefined]. *)
Definition truthy (v : option string) : bool :=
  match v with
  | Some s => negb (String.eqb s "")
  | None => false
  end.

(** [a || b] on values of type [string | undefined]. *)
Definition or (a b : option string) : option string :=
  if truthy a then a else b.

(** Truthiness of a value of type [boolean | undefined]. *)
Definition truthyBool (v : option bool) : bool :=
  match v with
  | Some b => b
  | None => false
  end.

End JS.

(** ** Types ([types.ts]) *)

Inductive LogLevel := LNone | LError | LWarn | LInfo | LDebug.

Record RouteConfig := mkRoute {
  target : string;
  path : option string;
  pathReplace : option string;
  logging : option LogLevel;
  enabled : option bool;
  logRequestHeaders : option bool;
  logRequestBody : option bool;
  logResponseHeaders : option bool;
  logResponseBody : option bool
}.

(** The [routes] object of the configuration, as the list of its entries in
    the order [Object.entries] enumerates them. *)
Definition RouteTable := list (string * RouteConfig).

(** ** Route resolver ([ProxyServer.findRoute]) *)

Module Resolver.

Record Candidate := mkCandidate { route : RouteConfig; score : nat }.

(** The route key split by the [domain:path] syntax: the domain to compare
    and the path found in the key, if any. *)
Definition splitKey (routeKey : string) : string * option string :=
  if JS.includes routeKey ":"%char then
    let parts := JS.splitLimit ":"%char 2 routeKey in
    (nth 0 parts routeKey, nth_error parts 1)
  else (routeKey, None).

(** Domain matching: the flag [domainMatch] and the score gained. *)
Definition matchDomain (routeDomain domain : string) : bool * nat :=
  if String.eqb routeDomain domain then (true, 1000)
  else if JS.startsWith routeDomain "*." then
    let baseDomain := JS.substringFrom 2 routeDomain in
    if JS.endsWith domain baseDomain then (true, 500) else (false, 0)
  else (false, 0).

(** [routePath || route.path] *)
Definition pathToMatch (routeKey : string) (r : RouteConfig) : option string :=
  JS.or (snd (splitKey routeKey)) (path r).

(** One iteration of the loop over the entries: [Some c] when the
    iteration pushes [c] on [candidates], [None] when it pushes nothing. *)
Definition examine (domain : string) (url : option string)
    (entry : string * RouteConfig) : option Candidate :=
  let '(routeKey, r) := entry in
  let routeDomain := fst (splitKey routeKey) in
  let '(domainMatch, score0) := matchDomain routeDomain domain in
  if negb domainMatch then None
  else
    let p := pathToMatch routeKey r in
    if JS.truthy p && JS.truthy url then
      match p, url with
      | Some p', Some url' =>
          if JS.startsWith url' p'
          then Some (mkCandidate r (score0 + String.length p'))
          else None
      | _, _ => None
      end
    else if negb (JS.truthy p) then Some (mkCandidate r score0)
    else None.

Fixpoint collect (domain : string) (url : option string)
    (entries : RouteTable) : list Candidate :=
  match entries with
  | [] => []
  | e :: rest =>
      match examine domain url e with
      | Some c => c :: collect domain url rest
      | None => collect domain url rest
      end
  end.

(** [candidates.sort((a, b) => b.score - a.score)]: a stable sort by
    decreasing score.  [insertDesc c l] puts [c] in front of the first
    element that does not beat it, so that among equal scores the earlier
    element stays first. *)
Fixpoint insertDesc (c : Candidate) (l : list Candidate) : list Candidate :=
  match l with
  | [] => [c]
  | d :: l' =>
      if (score c <? score d)%nat then d :: insertDesc c l' else c :: d :: l'
  end.

Fixpoint sortDesc (l : list Candidate) : list Candidate :=
  match l with
  | [] => []
  | c :: l' => insertDesc c (sortDesc l')
  end.

(** [findRoute]; the lines it prints on the console at level debug are
    left out. *)
Definition findRoute (routes : RouteTable) (domain : string)
    (url : option string) : option RouteConfig :=
  let candidates := collect domain url routes in
  match candidates with
  | [] => None
  | _ :: _ =>
      match sortDesc candidates with
      | best :: _ => Some (route best)
      | [] => None
      end
  end.

End Resolver.

(** ** Header masking ([maskSensitiveValue], the same text in
    [trace-manager.ts] and in [body-capture.ts]) *)

Module Masking.

(** [toLowerCase] on one code unit.  A header value reaches the function
    as Node decodes it, one code unit per byte (0..255): the letters A-Z and
    the Latin-1 capitals (192..222 but 215) move 32 up, the rest stays. *)
Definition toLowerChar (c : ascii) : ascii :=
  let n := nat_of_ascii c in
  if (65 <=? n)%nat && (n <=? 90)%nat then ascii_of_nat (n + 32)
  else if (192 <=? n)%nat && (n <=? 222)%nat && negb (n =? 215)%nat
       then ascii_of_nat (n + 32)
       else c.

Fixpoint toLowerCase (s : string) : string :=
  match s with
  | EmptyString => EmptyString
  | String a s' => String (toLowerChar a) (toLowerCase s')
  end.

Definition authPrefixes : list string :=
  ["bearer "; "basic "; "digest "; "apikey "; "token "].

(** The loop over [authPrefixes] with its [break]: the pair
    [(prefix, actualValue)] it leaves. *)
Fixpoint splitAuthPrefix (prefixes : list string) (value : string)
    : string * string :=
  match prefixes with
  | [] => ("", value)
  | authPrefix :: rest =>
      if JS.startsWith (toLowerCase value) authPrefix
      then (JS.substringTo (String.length authPrefix) value,
            JS.substringFrom (String.length authPrefix) value)
      else splitAuthPrefix rest value
  end.

Definition maskSensitiveValue (value : string) : string :=
  if (String.length value =? 0)%nat then "[EMPTY]"
  else
    let '(prefix, actualValue) := splitAuthPrefix authPrefixes value in
    if (String.length actualValue =? 0)%nat then prefix ++ "[EMPTY]"
    else
      let showLength := Nat.min (String.length actualValue / 4) 8 in
      if (showLength =? 0)%nat then prefix ++ "[REDACTED]"
      else
        let visiblePart := JS.substringTo showLength actualValue in
        let maskedLength := String.length actualValue - showLength in
        let mask := JS.repeat "*"%char (Nat.min maskedLength 20) in
        prefix ++ visiblePart ++ mask
          ++ (if (20 <? maskedLength)%nat
              then "...+" ++ pretty (maskedLength - 20)
              else "").

(** [key.includes(needle)] for a string needle. *)
Fixpoint includesStr (s needle : string) : bool :=
  JS.startsWith s needle
  || match s with
     | EmptyString => false
     | String _ s' => includesStr s' needle
     end.

Definition sensitiveHeaders : list string :=
  ["authorization"; "cookie"; "x-api-key"; "x-auth-token";
   "x-access-token"; "proxy-authorization"].

Definition isSensitive (key : string) : bool :=
  existsb (fun sensitive => includesStr (toLowerCase key) sensitive)
          sensitiveHeaders.

End Masking.

(** ** Trace manager ([trace-manager.ts]) *)

Module TraceManager.

Definition Headers := list (string * string).

Record RequestTrace := mkTrace {
  id : string;
  timestamp : Z;
  method : string;
  url : string;
  headers : Headers;
  domain : string;
  target : option string;
  duration : option Z;
  statusCode : option nat;
  error : option string;
  requestBody : option string;
  responseHeaders : option Headers;
  responseBody : option string
}.

(** The manager: the [traces] map, and the eviction timers that
    [finishTrace] has armed and that have not fired yet, each with the
    time it is due. *)
Record State := mkState {
  traces : gmap string RequestTrace;
  timers : list (Z * string)
}.

Definition empty : State := mkState ∅ [].

(** A value of a header of an incoming message. *)
Inductive HeaderValue := Single (v : string) | Multi (vs : list string).

Definition IncomingHeaders := list (string * HeaderValue).

Record Request := mkRequest {
  reqHeaders : IncomingHeaders;
  reqUrl : option string;
  reqMethod : option string
}.

Fixpoint header (hs : IncomingHeaders) (name : string) : option HeaderValue :=
  match hs with
  | [] => None
  | (k, v) :: rest => if String.eqb k name then Some v else header rest name
  end.

(** Truthiness of a header value: an array is always truthy. *)
Definition headerTruthy (v : option HeaderValue) : bool :=
  match v with
  | Some (Single s) => negb (String.eqb s "")
  | Some (Multi _) => true
  | None => false
  end.

Definition traceHeaders : list string :=
  ["x-trace-id"; "x-request-id"; "x-correlation-id"; "traceparent";
   "x-amzn-trace-id"].

(** [extractTraceId]; [fresh] is what [randomUUID()] would return.  An
    empty array as a value yields [undefined], here [None]. *)
Fixpoint extractFrom (names : list string) (hs : IncomingHeaders)
    (fresh : string) : option string :=
  match names with
  | [] => Some fresh
  | name :: rest =>
      let value := header hs name in
      if headerTruthy value then
        match value with
        | Some (Single v) =>
            if String.eqb name "traceparent" then
              let parts := JS.split "-"%char v in
              if (2 <=? length parts)%nat then nth_error parts 1 else Some v
            else Some v
        | Some (Multi vs) => nth_error vs 0
        | None => Some fresh
        end
      else extractFrom rest hs fresh
  end.

Definition extractTraceId (req : Request) (fresh : string) : option string :=
  extractFrom traceHeaders (reqHeaders req) fresh.

Fixpoint joinComma (vs : list string) : string :=
  match vs with
  | [] => ""
  | [v] => v
  | v :: rest => v ++ ", " ++ joinComma rest
  end.

Fixpoint sanitizeHeaders (hs : IncomingHeaders) : Headers :=
  match hs with
  | [] => []
  | (key, value) :: rest =>
      if headerTruthy (Some value) then
        let headerValue :=
          match value with Single v => v | Multi vs => joinComma vs end in
        (key, if Masking.isSensitive key
              then Masking.maskSensitiveValue headerValue
              else headerValue) :: sanitizeHeaders rest
      else sanitizeHeaders rest
  end.

Definition hostOf (req : Request) : string :=
  match header (reqHeaders req) "host" with
  | Some (Single h) => if String.eqb h "" then "unknown" else h
  | _ => "unknown"
  end.

(** [startTrace]; the trace id is taken as extracted (a request whose
    header is an empty array has none and is not modelled further). *)
Definition startTrace (now : Z) (fresh : string) (req : Request)
    (body : option string) (st : State) : RequestTrace * State :=
  let traceId := default fresh (extractTraceId req fresh) in
  let trace :=
    {| id := traceId;
       timestamp := now;
       method := match reqMethod req with
                 | Some m => if String.eqb m "" then "GET" else m
                 | None => "GET"
                 end;
       url := match reqUrl req with
              | Some u => if String.eqb u "" then "/" else u
              | None => "/"
              end;
       headers := sanitizeHeaders (reqHeaders req);
       domain := nth 0 (JS.split ":"%char (hostOf req)) "";
       target := None;
       duration := None;
       statusCode := None;
       error := None;
       requestBody := body;
       responseHeaders := None;
       responseBody := None |} in
  (trace, mkState (<[traceId := trace]> (traces st)) (timers st)).

(** [Partial<RequestTrace>]: for each key, [None] when the object has no
    such key, [Some v] when it has it with value [v] (for an optional
    field [v] may itself be [None], that is [undefined]). *)
Record Updates := mkUpdates {
  u_id : option string;
  u_timestamp : option Z;
  u_method : option string;
  u_url : option string;
  u_headers : option Headers;
  u_domain : option string;
  u_target : option (option string);
  u_duration : option (option Z);
  u_statusCode : option (option nat);
  u_error : option (option string);
  u_requestBody : option (option string);
  u_responseHeaders : option (option Headers);
  u_responseBody : option (option string)
}.

Definition noUpdates : Updates :=
  mkUpdates None None None None None None None None None None None None None.

(** [Object.assign(trace, updates)] *)
Definition assign (t : RequestTrace) (u : Updates) : RequestTrace :=
  {| id := default (id t) (u_id u);
     timestamp := default (timestamp t) (u_timestamp u);
     method := default (method t) (u_method u);
     url := default (url t) (u_url u);
     headers := default (headers t) (u_headers u);
     domain := default (domain t) (u_domain u);
     target := default (target t) (u_target u);
     duration := default (duration t) (u_duration u);
     statusCode := default (statusCode t) (u_statusCode u);
     error := default (error t) (u_error u);
     requestBody := default (requestBody t) (u_requestBody u);
     responseHeaders := default (responseHeaders t) (u_responseHeaders u);
     responseBody := default (responseBody t) (u_responseBody u) |}.

Definition setDuration (d : Z) (t : RequestTrace) : RequestTrace :=
  {| id := id t; timestamp := timestamp t; method := method t;
     url := url t; headers := headers t; domain := domain t;
     target := target t; duration := Some d;
     statusCode := statusCode t; error := error t;
     requestBody := requestBody t;
     responseHeaders := responseHeaders t;
     responseBody := responseBody t |}.

(** [updateTrace]: the trace is stored under the key it was looked up
    with, whatever [updates] does to its [id] field. *)
Definition updateTrace (now : Z) (traceId : string) (updates : Updates)
    (st : State) : option RequestTrace * State :=
  match traces st !! traceId with
  | None => (None, st)
  | Some trace =>
      let t1 := assign trace updates in
      let t2 :=
        match u_statusCode updates with
        | Some (Some _) => setDuration (now - timestamp t1)%Z t1
        | _ => t1
        end in
      (Some t2, mkState (<[traceId := t2]> (traces st)) (timers st))
  end.

Definition finishTrace (now : Z) (traceId : string) (status : nat)
    (err : option string) (respHeaders : option Headers)
    (respBody : option string) (st : State) : option RequestTrace * State :=
  match traces st !! traceId with
  | None => (None, st)
  | Some trace =>
      let t' :=
        {| id := id trace; timestamp := timestamp trace;
           method := method trace; url := url trace;
           headers := headers trace; domain := domain trace;
           target := target trace;
           duration := Some (now - timestamp trace)%Z;
           statusCode := Some status;
           error := if JS.truthy err then err else error trace;
           requestBody := requestBody trace;
           responseHeaders :=
             match respHeaders with
             | Some h => Some h
             | None => responseHeaders trace
             end;
           responseBody :=
             if JS.truthy respBody then respBody else responseBody trace |} in
      (Some t',
       mkState (<[traceId := t']> (traces st))
               (timers st ++ [((now + 60000)%Z, traceId)])%list)
  end.

(** The event loop at time [now]: every armed timer that is due runs its
    callback, [this.traces.delete(traceId)], and is gone. *)
Fixpoint fireTimers (now : Z) (pending : list (Z * string))
    (m : gmap string RequestTrace)
    : gmap string RequestTrace * list (Z * string) :=
  match pending with
  | [] => (m, [])
  | (due, traceId) :: rest =>
      if (due <=? now)%Z then fireTimers now rest (delete traceId m)
      else let '(m', rest') := fireTimers now rest m in
           (m', (due, traceId) :: rest')
  end.

Definition runTimers (now : Z) (st : State) : State :=
  let '(m, pending) := fireTimers now (timers st) (traces st) in
  mkState m pending.

Definition getTrace (traceId : string) (st : State) : option RequestTrace :=
  traces st !! traceId.

Definition cleanup (st : State) : State := mkState ∅ (timers st).

End TraceManager.

(** ** Log entries *)

#[local] Unset Elimination Schemes.
Inductive Json :=
| JUndefined
| JStr (s : string)
| JNum (n : Z)
| JArr (items : list Json)
| JObj (fields : list (string * Json)).
#[local] Set Elimination Schemes.

Record LogEntry := mkEntry {
  e_timestamp : Z;
  e_level : LogLevel;
  e_traceId : string;
  e_message : string;
  e_domain : option string;
  e_data : option Json
}.

Definition levelEqb (a b : LogLevel) : bool :=
  match a, b with
  | LNone, LNone | LError, LError | LWarn, LWarn
  | LInfo, LInfo | LDebug, LDebug => true
  | _, _ => false
  end.

(** The array [['error', 'warn', 'info', 'debug']] and [indexOf] on it,
    which answers -1 for a level that is not in the array. *)
Definition levels : list LogLevel := [LError; LWarn; LInfo; LDebug].

Fixpoint indexFrom (i : Z) (l : list LogLevel) (x : LogLevel) : Z :=
  match l with
  | [] => (-1)%Z
  | y :: l' => if levelEqb y x then i else indexFrom (i + 1)%Z l' x
  end.

Definition indexOf (l : list LogLevel) (x : LogLevel) : Z := indexFrom 0%Z l x.

(** What the logging pipeline does to the outside world. *)
Inductive Console := ConsoleError | ConsoleWarn | ConsoleDebug | ConsoleLog.

Inductive LogEvent :=
| WriteToFile (entry : LogEntry)
| SendFailed
| ConsoleOut (channel : Console) (entry : LogEntry).

(** ** Log streamer ([log-streamer.ts]) *)

Module LogStreamer.

Inductive Format := FormatJson | FormatPretty.

Record LogStreamOptions := mkOptions {
  o_level : option LogLevel;
  o_domain : option string;
  o_format : option Format;
  o_follow : option bool
}.

Definition noOptions : LogStreamOptions := mkOptions None None None None.

(** A connected WebSocket: whether [readyState] is [OPEN], the options
    stored on it, whether [send] throws, and what it has been sent. *)
Record Client := mkClient {
  isOpen : bool;
  streamOptions : option LogStreamOptions;
  sendThrows : bool;
  received : list (Format * LogEntry)
}.

Record State := mkState {
  clients : list Client;
  logFile : option string;
  logBuffer : list LogEntry
}.

Definition maxBufferSize : nat := 1000.

Definition shouldIncludeLog (entry : LogEntry) (options : LogStreamOptions)
    : bool :=
  let levelOk :=
    match o_level options with
    | Some level =>
        let entryIndex := indexOf levels (e_level entry) in
        let filterIndex := indexOf levels level in
        negb (filterIndex <? entryIndex)%Z
    | None => true
    end in
  if negb levelOk then false
  else if JS.truthy (o_domain options)
          && negb (bool_decide (e_domain entry = o_domain options))
       then false
       else true.

Definition formatOf (options : LogStreamOptions) : Format :=
  match o_format options with
  | Some FormatJson => FormatJson
  | _ => FormatPretty
  end.

(** [broadcastToClients]: the clients that stay, and the events. *)
Fixpoint broadcastToClients (entry : LogEntry) (cs : list Client)
    : list Client * list LogEvent :=
  match cs with
  | [] => ([], [])
  | client :: rest =>
      let '(rest', evs) := broadcastToClients entry rest in
      if negb (isOpen client) then (rest', evs)
      else
        let options := default noOptions (streamOptions client) in
        if negb (shouldIncludeLog entry options) then (client :: rest', evs)
        else if sendThrows client then (rest', SendFailed :: evs)
        else
          (mkClient (isOpen client) (streamOptions client) (sendThrows client)
                    (received client ++ [(formatOf options, entry)])%list
             :: rest', evs)
  end.

(** [this.logBuffer.push(entry)] followed by the [shift()] on overflow. *)
Definition pushBuffer (entry : LogEntry) (buffer : list LogEntry)
    : list LogEntry :=
  let buffer' := (buffer ++ [entry])%list in
  if (maxBufferSize <? length buffer')%nat then tl buffer' else buffer'.

Definition streamLog (entry : LogEntry) (st : State) : State * list LogEvent :=
  let buffer' := pushBuffer entry (logBuffer st) in
  let fileEvents :=
    if JS.truthy (logFile st) then [WriteToFile entry] else [] in
  let '(clients', sendEvents) := broadcastToClients entry (clients st) in
  (mkState clients' (logFile st) buffer', (fileEvents ++ sendEvents)%list).

Definition streamAll (entries : list LogEntry) (st : State) : State :=
  fold_left (fun s e => fst (streamLog e s)) entries st.

End LogStreamer.

(** ** Logger ([logger.ts]) *)

Module Logger.

Record State := mkState {
  globalLevel : LogLevel;
  domainLevels : gmap string LogLevel;
  streamer : option LogStreamer.State
}.

Definition setGlobalLevel (level : LogLevel) (lg : State) : State :=
  mkState level (domainLevels lg) (streamer lg).

Definition setDomainLevel (domain : string) (level : LogLevel) (lg : State)
    : State :=
  mkState (globalLevel lg) (<[domain := level]> (domainLevels lg)) (streamer lg).

Definition removeDomainLevel (domain : string) (lg : State) : State :=
  mkState (globalLevel lg) (delete domain (domainLevels lg)) (streamer lg).

(** [domain && this.domainLevels.has(domain) ? this.domainLevels.get(domain)
    : this.globalLevel] *)
Definition targetLevel (lg : State) (domain : option string) : LogLevel :=
  match domain with
  | Some d =>
      if JS.truthy (Some d) then
        match domainLevels lg !! d with
        | Some level => level
        | None => globalLevel lg
        end
      else globalLevel lg
  | None => globalLevel lg
  end.

Definition shouldLog (lg : State) (level : LogLevel) (domain : option string)
    : bool :=
  let target := targetLevel lg domain in
  if levelEqb target LNone then false
  else
    let targetIndex := indexOf levels target in
    let messageIndex := indexOf levels level in
    (messageIndex <=? targetIndex)%Z.

Definition consoleOf (level : LogLevel) : Console :=
  match level with
  | LError => ConsoleError
  | LWarn => ConsoleWarn
  | LDebug => ConsoleDebug
  | _ => ConsoleLog
  end.

Definition log (now : Z) (level : LogLevel) (message traceId : string)
    (domain : option string) (data : option Json) (lg : State)
    : State * list LogEvent :=
  if negb (shouldLog lg level domain) then (lg, [])
  else
    let entry := mkEntry now level traceId message domain data in
    let '(streamer', streamEvents) :=
      match streamer lg with
      | Some s => let '(s', evs) := LogStreamer.streamLog entry s in
                  (Some s', evs)
      | None => (None, [])
      end in
    (mkState (globalLevel lg) (domainLevels lg) streamer',
     (streamEvents ++ [ConsoleOut (consoleOf level) entry])%list).

End Logger.

(** ** Rotation engine ([log-rotation.ts]) *)

Module LogRotation.

(** The files of the log directory: path to content.  [write], [end] and
    the opening of a stream are not awaited by the engine: a disk stands for
    the files as they are once every stream has written what was handed to
    it.  The operations of [fs.promises] ([stat], [unlink], [rename]) are
    awaited, one after the other. *)
Abbreviation Disk := (gmap string string).

Record Config := mkConfig {
  maxFileSize : N;
  maxFiles : nat;
  compress : bool
}.

Record State := mkState {
  logPath : string;
  config : Config;
  writeStream : bool;
  currentSize : N
}.

(** The constructor, with its defaults for a zero or missing setting. *)
Definition create (path : string) (maxSize : option N) (files : option nat)
    (compr : option bool) : State :=
  mkState path
    (mkConfig
       (match maxSize with
        | Some n => if (n =? 0)%N then (10 * 1024 * 1024)%N else n
        | None => (10 * 1024 * 1024)%N
        end)
       (match files with
        | Some n => if (n =? 0)%nat then 5 else n
        | None => 5
        end)
       (JS.truthyBool compr))
    false 0%N.

(** [Buffer.byteLength(data, 'utf8')] for a string of code units below
    256: one byte below 128, two from there on. *)
Fixpoint byteLength (data : string) : N :=
  match data with
  | EmptyString => 0%N
  | String c rest =>
      ((if (nat_of_ascii c <? 128)%nat then 1 else 2) + byteLength rest)%N
  end.

(** [`${baseName}.${i}`] *)
Definition numbered (baseName : string) (i : nat) : string :=
  baseName ++ "." ++ pretty i.

(** [fs.unlink] inside its [try]: a missing file is no error. *)
Definition unlink (file : string) (disk : Disk) : Disk := delete file disk.

(** [fs.rename] inside its [try]: nothing happens when the source is
    missing; an existing destination is replaced. *)
Definition rename (from to : string) (disk : Disk) : Disk :=
  match disk !! from with
  | Some content => <[to := content]> (delete from disk)
  | None => disk
  end.

(** The loop [for (let i = maxFiles - 1; i >= 1; i--)], entered with
    [i]. *)
Fixpoint shiftFiles (baseName : string) (i : nat) (disk : Disk) : Disk :=
  match i with
  | O => disk
  | S j =>
      let currentFile :=
        if (i =? 1)%nat then baseName else numbered baseName i in
      let nextFile := numbered baseName (i + 1) in
      shiftFiles baseName j (rename currentFile nextFile disk)
  end.

Definition rotateFiles (st : State) (disk : Disk) : Disk :=
  let baseName := logPath st in
  let oldestFile := numbered baseName (maxFiles (config st)) in
  shiftFiles baseName (maxFiles (config st) - 1) (unlink oldestFile disk).

(** [createWriteStream(path, {flags: 'a'})] creates a missing file and
    keeps an existing one; with [{flags: 'w'}] the file is emptied. *)
Definition openAppend (file : string) (disk : Disk) : Disk :=
  match disk !! file with
  | Some _ => disk
  | None => <[file := ""]> disk
  end.

Definition openTruncate (file : string) (disk : Disk) : Disk :=
  <[file := ""]> disk.

Definition initialize (st : State) (disk : Disk) : State * Disk :=
  let size :=
    match disk !! logPath st with
    | Some content => byteLength content
    | None => 0%N
    end in
  (mkState (logPath st) (config st) true size, openAppend (logPath st) disk).

(** [rotate].  The old stream is ended and not awaited, and the new stream
    opens [logPath] with the flags ['w'].  When [rotateFiles] has moved the
    file of the old stream away, the new stream creates a file of its own,
    and whatever the old stream has still to write lands in the moved file.
    When that file is still at [logPath] - as it always is with
    [maxFiles = 1], where nothing is renamed - both streams are open on one
    file, and what it holds in the end depends on the order in which their
    operations complete, which the program does not fix: there is no
    result, [None]. *)
Definition rotate (st : State) (disk : Disk) : option (State * Disk) :=
  let disk' := rotateFiles st disk in
  match disk' !! logPath st with
  | Some _ => None
  | None =>
      Some (mkState (logPath st) (config st) true 0%N,
            openTruncate (logPath st) disk')
  end.

(** [this.writeStream.write(data)] and the update of the counter. *)
Definition append (data : string) (st : State) (disk : Disk) : State * Disk :=
  (mkState (logPath st) (config st) (writeStream st)
           (currentSize st + byteLength data)%N,
   <[logPath st := default "" (disk !! logPath st) ++ data]> disk).

Definition needsRotation (st : State) (data : string) : bool :=
  (maxFileSize (config st) <? currentSize st + byteLength data)%N.

(** [write]; the disk of the result is the disk once the streams have
    written what was handed to them. *)
Definition write (data : string) (st : State) (disk : Disk)
    : option (State * Disk) :=
  let '(st1, disk1) :=
    if negb (writeStream st) then initialize st disk else (st, disk) in
  match (if needsRotation st1 data then rotate st1 disk1
         else Some (st1, disk1)) with
  | Some (st2, disk2) => Some (append data st2 disk2)
  | None => None
  end.

End LogRotation.

(** ** Forwarding pipeline ([proxy-server.ts]) *)

Module ProxyServer.

Record GlobalConfig := mkGlobal {
  port : N;
  g_logging : LogLevel;
  tracing : bool
}.

Record ProxyConfig := mkConfig {
  routes : RouteTable;
  global : GlobalConfig
}.

Record ProxyError := mkError {
  message : string;
  code : option string
}.

(** An [Error] thrown inside a handler, as the [catch] blocks read it: its
    [message] and its [stack]. *)
Record Thrown := mkThrown {
  thrownMessage : string;
  stack : option string
}.

(** [new URL(target)], the first statement of [createProxy].  The parser
    belongs to the runtime, and the sources only call it: it is a parameter
    of every function that reaches [createProxy].  [newURL target] is [None]
    when the parser accepts [target], and [Some e] when it throws [e]. *)
Definition UrlParser := string -> option Thrown.

(** What a handler does, in program order.  The text of a log message is
    kept without its colours, its padding and the timings spliced into
    it. *)
Inductive Event :=
| FinishTrace (traceId : string) (statusCode : nat) (error : option string)
| Log (level : LogLevel) (text traceId : string) (domain : option string)
      (data : option Json)
| WriteHead (statusCode : nat) (headers : list (string * string))
| EndResponse (body : Json)
| SetRequestHeader (name value : string)
| ProxyWeb (target : string) (url : option string)
| Resolve
| Reject (reason : Thrown).

Definition jsonHeaders : list (string * string) :=
  [("Content-Type", "application/json")].

(** [extractDomain]: the [Host] header without its port. *)
Definition extractDomain (req : TraceManager.Request) : string :=
  match TraceManager.header (TraceManager.reqHeaders req) "host" with
  | Some (TraceManager.Single host) =>
      if String.eqb host "" then "unknown"
      else nth 0 (JS.split ":"%char host) ""
  | _ => "unknown"
  end.

Definition methodOf (req : TraceManager.Request) : string :=
  match TraceManager.reqMethod req with
  | Some m => if String.eqb m "" then "GET" else m
  | None => "GET"
  end.

Definition handleNotFound (cfg : ProxyConfig) (req : TraceManager.Request)
    (traceId domain : string) : list Event :=
  [ FinishTrace traceId 404 (Some "No route configured");
    Log LWarn ("No route found: " ++ methodOf req ++ " "
               ++ default "undefined" (TraceManager.reqUrl req))
        traceId (Some domain) None;
    WriteHead 404 jsonHeaders;
    EndResponse (JObj [ ("error", JStr "No route configured");
                        ("domain", JStr domain);
                        ("traceId", JStr traceId);
                        ("availableRoutes",
                         JArr (map (fun e => JStr (fst e)) (routes cfg))) ]) ].

Definition handleDisabled (req : TraceManager.Request)
    (traceId domain : string) : list Event :=
  [ FinishTrace traceId 503 (Some "Route disabled");
    Log LInfo ("Route disabled: " ++ domain) traceId (Some domain) None;
    WriteHead 503 jsonHeaders;
    EndResponse (JObj [ ("error", JStr "Route disabled");
                        ("domain", JStr domain);
                        ("traceId", JStr traceId) ]) ].

Definition stackJson (e : Thrown) : Json :=
  match stack e with
  | Some text => JStr text
  | None => JUndefined
  end.

Definition handleError (traceId traceDomain : string) (headersSent : bool)
    (e : Thrown) : list Event :=
  ([ FinishTrace traceId 500 (Some (thrownMessage e));
     Log LError "Request handling error" traceId (Some traceDomain)
         (Some (JObj [ ("error", JStr (thrownMessage e));
                       ("stack", stackJson e) ])) ]
   ++ (if negb headersSent
       then [ WriteHead 500 jsonHeaders;
              EndResponse (JObj [ ("error", JStr "Internal server error");
                                  ("traceId", JStr traceId);
                                  ("message", JStr (thrownMessage e)) ]) ]
       else []))%list.

(** The path replacement at the head of [proxyRequest]: the final value
    of [req.url]. *)
Definition rewriteUrl (r : RouteConfig) (url : option string)
    : option string :=
  match path r, pathReplace r, url with
  | Some p, Some replacement, Some u =>
      if JS.truthy (Some p) && JS.truthy (Some u) then
        if JS.startsWith u p
        then Some (replacement ++ JS.substringFrom (String.length p) u)
        else url
      else url
  | _, _, _ => url
  end.

(** [proxyRequest] up to the call of [proxy.web].  The body of the promise
    is one [try]: when [createProxy] throws on the target, the promise is
    rejected with what was thrown, and neither the headers of the request
    are set nor [proxy.web] is called. *)
Definition proxyRequest (newURL : UrlParser) (cfg : ProxyConfig)
    (req : TraceManager.Request) (r : RouteConfig)
    (traceId traceDomain : string) (originalUrl : option string)
    : list Event :=
  let finalUrl := rewriteUrl r (TraceManager.reqUrl req) in
  ((if tracing (global cfg) && JS.truthy originalUrl
       && negb (bool_decide (finalUrl = originalUrl))
    then [ Log LInfo ("Path rewritten: " ++ default "" originalUrl ++ " -> "
                      ++ default "" finalUrl)
               traceId (Some traceDomain) None ]
    else [])
   ++ match newURL (target r) with
      | Some e => [ Reject e ]
      | None =>
          [ SetRequestHeader "x-trace-id" traceId;
            SetRequestHeader "x-forwarded-host" (TraceManager.hostOf req);
            ProxyWeb (target r) finalUrl ]
      end)%list.

(** What the [await] of a list of events throws: the reason of the
    rejection it ends with, if it does. *)
Definition thrownBy (events : list Event) : option Thrown :=
  match last events with
  | Some (Reject e) => Some e
  | _ => None
  end.

(** [handleRequest]; [traceId] is the id of the trace that [startTrace]
    opens for the request.  What the [try] block throws is handed to
    [handleError] by the [catch]; nothing has been written to the response
    by then, so [res.headersSent] is [false] there. *)
Definition handleRequest (newURL : UrlParser) (cfg : ProxyConfig)
    (traceId : string) (req : TraceManager.Request) : list Event :=
  let domain := extractDomain req in
  let found := Resolver.findRoute (routes cfg) domain (TraceManager.reqUrl req) in
  match found with
  | None => handleNotFound cfg req traceId domain
  | Some r =>
      if negb (JS.truthyBool (enabled r)) then handleDisabled req traceId domain
      else
        let tried :=
          ((if tracing (global cfg)
            then [ Log LInfo (methodOf req ++ " "
                              ++ default "undefined" (TraceManager.reqUrl req)
                              ++ " -> " ++ target r)
                       traceId (Some domain) None ]
            else [])
           ++ proxyRequest newURL cfg req r traceId domain
                (TraceManager.reqUrl req))%list in
        (tried
         ++ match thrownBy tried with
            | Some e => handleError traceId domain false e
            | None => []
            end)%list
  end.

Definition isConnectionLost (e : ProxyError) : bool :=
  match code e with
  | Some c => String.eqb c "ECONNRESET" || String.eqb c "ECONNREFUSED"
  | None => false
  end.

Definition codeJson (e : ProxyError) : Json :=
  match code e with
  | Some c => JStr c
  | None => JUndefined
  end.

(** The listener that [createProxy] puts on every proxy. *)
Definition fallbackErrorHandler (tgt : string) (e : ProxyError) : list Event :=
  if isConnectionLost e
  then [ Log LWarn "Network connection issue" "SYSTEM" None
             (Some (JObj [ ("error", JStr (message e));
                           ("code", codeJson e);
                           ("target", JStr tgt) ])) ]
  else [].

(** The listener that [proxyRequest] adds for its request. *)
Definition requestErrorHandler (r : RouteConfig) (traceId traceDomain : string)
    (headersSent : bool) (e : ProxyError) : list Event :=
  let data := Some (JObj [ ("error", JStr (message e));
                           ("target", JStr (target r));
                           ("code", codeJson e) ]) in
  ([ FinishTrace traceId 500 (Some (message e));
     if isConnectionLost e
     then Log LWarn "Target server connection lost" traceId
              (Some traceDomain) data
     else Log LError "Proxy error" traceId (Some traceDomain) data ]
   ++ (if negb headersSent
       then [ WriteHead 502 jsonHeaders;
              EndResponse (JObj [ ("error", JStr "Bad Gateway");
                                  ("message", JStr "Target server unavailable");
                                  ("traceId", JStr traceId) ]) ]
       else [])
   ++ [ Resolve ])%list.

(** An ['error'] event of the proxy of a request: both listeners run, in
    the order they were added. *)
Definition onProxyError (r : RouteConfig) (traceId traceDomain : string)
    (headersSent : bool) (e : ProxyError) : list Event :=
  (fallbackErrorHandler (target r) e
   ++ requestErrorHandler r traceId traceDomain headersSent e)%list.

End ProxyServer.

(** ** Vocabulary of the statements about route resolution *)

(** The two tiers on which the domain-part of a key can match. *)
Inductive DomainTier := Exact | Wildcard.

Definition tierScore (t : DomainTier) : nat :=
  match t with Exact => 1000 | Wildcard => 500 end.

(** The domain-part [routeDomain] matches the request domain on tier [t]:
    exactly, or as a wildcard [*.suffix] whose suffix ends the domain (a
    domain-part equal to the domain counts as exact). *)
Definition domainMatches (routeDomain domain : string) (t : DomainTier) : Prop :=
  match t with
  | Exact => routeDomain = domain
  | Wildcard =>
      routeDomain <> domain
      /\ exists suffix pre, routeDomain = "*." ++ suffix /\ domain = pre ++ suffix
  end.

Definition pathLength (p : option string) : nat :=
  match p with Some p' => String.length p' | None => 0 end.

(** The head of a list of candidates has a greatest score. *)
Definition headGreatest (l : list Resolver.Candidate) : Prop :=
  match l with
  | [] => True
  | b :: rest => forall x, In x rest -> Resolver.score x <= Resolver.score b
  end.

(** *** How a key is read, and the path-part of an entry *)

Definition noColon (s : string) : Prop := forall a b, s <> a ++ ":" ++ b.

(** [KeyReads key d kp]: the key is written [d], with no path, or [d:p],
    or [d:p:...] where what follows the second colon plays no part; [d] and
    [p] hold no colon. *)
Inductive KeyReads : string -> string -> option string -> Prop :=
| ReadsDomain (d : string) :
    noColon d -> KeyReads d d None
| ReadsDomainPath (d p : string) :
    noColon d -> noColon p -> KeyReads (d ++ ":" ++ p) d (Some p)
| ReadsDomainPathMore (d p more : string) :
    noColon d -> noColon p ->
    KeyReads (d ++ ":" ++ p ++ ":" ++ more) d (Some p).

(** The path-part of an entry: the path written in the key when there is
    one and it is not empty, else the [path] field of the route when it is
    set and not empty, else none. *)
Definition pathPart (keyPath : option string) (r : RouteConfig)
    : option string :=
  match keyPath with
  | Some (String c p) => Some (String c p)
  | _ =>
      match path r with
      | Some (String c p) => Some (String c p)
      | _ => None
      end
  end.

(** The path-part admits the request path: there is none, or the path
    starts with it. *)
Definition pathAdmits (p url : option string) : Prop :=
  match p with
  | Some p' => exists rest, url = Some (p' ++ rest)
  | None => True
  end.

(** [Candidacy domain url key r t p]: the entry [(key, r)] is a candidate
    for the request, its domain-part matching on tier [t] and its path-part
    being [p]. *)
Inductive Candidacy (domain : string) (url : option string)
    : string -> RouteConfig -> DomainTier -> option string -> Prop :=
| candidate (key : string) (r : RouteConfig) (d : string)
    (kp : option string) (t : DomainTier) :
    KeyReads key d kp ->
    domainMatches d domain t ->
    pathAdmits (pathPart kp r) url ->
    Candidacy domain url key r t (pathPart kp r).

(** The score of a candidate: 1000 or 500 for its tier, plus the length of
    its path-part. *)
Definition scoreOf (t : DomainTier) (p : option string) : nat :=
  tierScore t + pathLength p.

(** A route with a [path] field, and nothing else but its target. *)
Definition pathRoute (tgt p : string) : RouteConfig :=
  mkRoute tgt (Some p) None None None None None None None.

(** ** The scenarios of the documentation *)

Definition plainRoute (tgt : string) : RouteConfig :=
  mkRoute tgt None None None None None None None None.

Definition withEnabled (r : RouteConfig) : RouteConfig :=
  mkRoute (target r) (path r) (pathReplace r) (logging r) (Some true)
          (logRequestHeaders r) (logRequestBody r)
          (logResponseHeaders r) (logResponseBody r).

(** [{"*.dev.local:/api": {target: T1, pathReplace: ""},
      "*.dev.local": {target: T2}}] *)
Definition apiRoute (T1 : string) : RouteConfig :=
  mkRoute T1 None (Some "") None None None None None None.

Definition devRoutes (T1 T2 : string) : RouteTable :=
  [ ("*.dev.local:/api", apiRoute T1); ("*.dev.local", plainRoute T2) ].

(** The same table with [enabled: true] written on both routes. *)
Definition devRoutesEnabled (T1 T2 : string) : RouteTable :=
  [ ("*.dev.local:/api", withEnabled (apiRoute T1));
    ("*.dev.local", withEnabled (plainRoute T2)) ].

Definition getRequest (host url : string) : TraceManager.Request :=
  TraceManager.mkRequest [("host", TraceManager.Single host)] (Some url)
                         (Some "GET").

Definition quietConfig (routes : RouteTable) : ProxyServer.ProxyConfig :=
  ProxyServer.mkConfig routes (ProxyServer.mkGlobal 8080%N LInfo false).

(** ** Vocabulary of the statements about the pipeline *)

Definition isProxyWeb (ev : ProxyServer.Event) : bool :=
  match ev with ProxyServer.ProxyWeb _ _ => true | _ => false end.

Definition isWriteHead (ev : ProxyServer.Event) : bool :=
  match ev with ProxyServer.WriteHead _ _ => true | _ => false end.

Definition isReject (ev : ProxyServer.Event) : bool :=
  match ev with ProxyServer.Reject _ => true | _ => false end.

Definition logLevelOf (ev : ProxyServer.Event) : option LogLevel :=
  match ev with ProxyServer.Log level _ _ _ _ => Some level | _ => None end.

Definition isLog (ev : ProxyServer.Event) : bool :=
  match ev with ProxyServer.Log _ _ _ _ _ => true | _ => false end.

(** A parser for the examples: it accepts what starts with [http://] or
    [https://] and throws on everything else. *)
Definition invalidUrl : ProxyServer.Thrown :=
  ProxyServer.mkThrown "Invalid URL" None.

Definition sampleParser : ProxyServer.UrlParser :=
  fun target =>
    if JS.startsWith target "http://" || JS.startsWith target "https://"
    then None else Some invalidUrl.

(** ** Vocabulary of the statements about masking *)

(** The five auth schemes, each with the blank that ends it. *)
Definition schemes : list string :=
  ["bearer "; "basic "; "digest "; "apikey "; "token "].

(** [sameLetter a b]: the character [a] is the character [b] of a word in
    small letters, or the capital of the letter [b]. *)
Definition sameLetter (a b : ascii) : Prop :=
  a = b
  \/ (97 <= nat_of_ascii b <= 122 /\ nat_of_ascii a + 32 = nat_of_ascii b).

(** [writtenAs s word]: [s] is [word] up to the case of its letters. *)
Inductive writtenAs : string -> string -> Prop :=
| written_nil : writtenAs "" ""
| written_cons (a b : ascii) (s word : string) :
    sameLetter a b -> writtenAs s word ->
    writtenAs (String a s) (String b word).

(** A character that a word in small letters may hold: below 128 and not a
    capital. *)
Definition smallChar (b : ascii) : bool :=
  (nat_of_ascii b <? 128)%nat
  && negb ((65 <=? nat_of_ascii b)%nat && (nat_of_ascii b <=? 90)%nat).

Fixpoint smallWord (word : string) : bool :=
  match word with
  | EmptyString => true
  | String b rest => smallChar b && smallWord rest
  end.

Definition stars (n : nat) : string :=
  string_of_list_ascii (List.repeat "*"%char n).

(** [MaskedAs prefix r result]: [result] is the mask of a value made of the
    scheme prefix [prefix] and the secret [r]. *)
Definition MaskedAs (prefix r result : string) : Prop :=
  (r = "" -> result = prefix ++ "[EMPTY]")
  /\ (r <> "" -> String.length r / 4 = 0 -> result = prefix ++ "[REDACTED]")
  /\ (String.length r / 4 <> 0 ->
      let shown := Nat.min (String.length r / 4) 8 in
      let hidden := String.length r - shown in
      result
      = prefix ++ String.substring 0 shown r ++ stars (Nat.min hidden 20)
          ++ (if (20 <? hidden)%nat
              then "...+" ++ pretty (hidden - 20) else "")).



(** ** Vocabulary of the statements about logging *)

(** The ranking [none < error < warn < info < debug]. *)
Definition rank (l : LogLevel) : nat :=
  match l with
  | LNone => 0
  | LError => 1
  | LWarn => 2
  | LInfo => 3
  | LDebug => 4
  end.

(** The last [n] elements of a list. *)
Definition keepLast {A : Type} (n : nat) (l : list A) : list A :=
  skipn (length l - n) l.

Definition emptyStreamer : LogStreamer.State := LogStreamer.mkState [] None [].

(** 1001 entries, told apart by their time stamps. *)
Definition sampleEntries : list LogEntry :=
  map (fun i => mkEntry (Z.of_nat i) LInfo "trace" "message" None None)
      (seq 0 1001).

(** ** Vocabulary of the statements about traces *)

Definition sampleRequest : TraceManager.Request :=
  TraceManager.mkRequest
    [ ("host", TraceManager.Single "api.local:8080");
      ("x-trace-id", TraceManager.Single "t-1") ]
    (Some "/users") (Some "GET").

(** The manager after a request with trace id [t-1] arrived at time 0. *)
Definition startedAt0 : TraceManager.State :=
  snd (TraceManager.startTrace 0%Z "fresh" sampleRequest None
         TraceManager.empty).

Definition durationOf (traceId : string) (st : TraceManager.State)
    : option (option Z) :=
  TraceManager.duration <$> TraceManager.getTrace traceId st.

(** ** Vocabulary of the statements about rotation *)

(** An engine on [proxy.log] that rotates past 10 bytes and keeps 5 files. *)
Definition sampleEngine : LogRotation.State :=
  LogRotation.create "proxy.log" (Some 10%N) (Some 5) None.

(** The state and the disk after the writes of [chunks], in order, starting
    from [st] and [disk]. *)
Definition writeAll (chunks : list string) (st : LogRotation.State)
    (disk : gmap string string)
    : option (LogRotation.State * gmap string string) :=
  fold_left (fun run data =>
               match run with
               | Some (st', disk') => LogRotation.write data st' disk'
               | None => None
               end)
            chunks (Some (st, disk)).

(** ** Vocabulary of the statements about changes of a route table *)

(** The table with [f] applied to every route, keys unchanged. *)
Definition mapRoutes (f : RouteConfig -> RouteConfig) (routes : RouteTable)
    : RouteTable :=
  map (fun e => (fst e, f (snd e))) routes.

Definition mapCandidate (f : RouteConfig -> RouteConfig)
    (c : Resolver.Candidate) : Resolver.Candidate :=
  Resolver.mkCandidate (f (Resolver.route c)) (Resolver.score c).

Definition setEnabled (b : option bool) (r : RouteConfig) : RouteConfig :=
  mkRoute (target r) (path r) (pathReplace r) (logging r) b
          (logRequestHeaders r) (logRequestBody r)
          (logResponseHeaders r) (logResponseBody r).

(** ** WebSocket upgrades ([ProxyServer.handleWebSocketUpgrade]) *)

Module WebSocketUpgrade.

(** What the handler does, in program order, up to the call of
    [proxy.ws]. *)
Inductive Event :=
| SocketWrite (data : string)
| SocketDestroy
| StartTrace (traceId : string)
| FinishTrace (traceId : string) (statusCode : nat) (error : option string)
| Log (level : LogLevel) (text traceId : string) (domain : option string)
      (data : option Json)
| SetRequestHeader (name value : string)
| ProxyWs (target : string) (url : option string).






End WebSocketUpgrade.

(** ** Reaction to a configuration ([ProxyServer.setupConfigListeners]) *)

Module ConfigListeners.

(** [updateDomainLogging]: every route with a [logging] level sets the
    level of the logger for its key. *)
Definition updateDomainLogging (routes : RouteTable) (lg : Logger.State)
    : Logger.State :=
  fold_left
    (fun acc entry =>
       match logging (snd entry) with
       | Some level => Logger.setDomainLevel (fst entry) level acc
       | None => acc
       end)
    routes lg.

(** The listener of ['config-loaded']. *)
Definition onConfigLoaded (cfg : ProxyServer.ProxyConfig) (lg : Logger.State)
    : Logger.State :=
  updateDomainLogging (ProxyServer.routes cfg)
    (Logger.setGlobalLevel (ProxyServer.g_logging (ProxyServer.global cfg)) lg).

(** The listener of ['config-changed']: the same, and a line in the log. *)
Definition onConfigChanged (now : Z) (cfg : ProxyServer.ProxyConfig)
    (lg : Logger.State) : Logger.State * list LogEvent :=
  Logger.log now LInfo "Configuration reloaded" "SYSTEM" None None
             (onConfigLoaded cfg lg).

End ConfigListeners.

(** ** Vocabulary of the statements about upgrades and reloads *)

Definition tracedConfig (routes : RouteTable) : ProxyServer.ProxyConfig :=
  ProxyServer.mkConfig routes (ProxyServer.mkGlobal 8080%N LInfo true).

(** A route with a level of its own. *)
Definition leveledRoute (tgt : string) (level : LogLevel) : RouteConfig :=
  mkRoute tgt None None (Some level) (Some true) None None None None.

Definition plainLogger (level : LogLevel) : Logger.State :=
  Logger.mkState level ∅ None.

(** ** Body capture ([body-capture.ts]) *)

Module BodyCapture.

(** Every header is kept, an empty value too. *)
Fixpoint sanitizeHeaders (hs : TraceManager.IncomingHeaders)
    : TraceManager.Headers :=
  match hs with
  | [] => []
  | (key, value) :: rest =>
      let headerValue :=
        match value with
        | TraceManager.Single v => v
        | TraceManager.Multi vs => TraceManager.joinComma vs
        end in
      (key, if Masking.isSensitive key
            then Masking.maskSensitiveValue headerValue
            else headerValue) :: sanitizeHeaders rest
  end.

(** [createResponseCapture]: the chunks kept and the bytes seen so far.
    A chunk is a [Buffer], here the string of its bytes; its [length] is
    the number of bytes. *)
Record Capture := mkCapture {
  chunks : list string;
  totalSize : N
}.

Definition maxSize : N := (1024 * 1024)%N.

Definition newCapture : Capture := mkCapture [] 0%N.

Definition chunkLength (chunk : string) : N := N.of_nat (String.length chunk).

(** The [transform] of the capture stream: the capture after the chunk, and
    the chunk handed to [callback]. *)
Definition transform (chunk : string) (c : Capture) : Capture * string :=
  let total := (totalSize c + chunkLength chunk)%N in
  (mkCapture (if (total <=? maxSize)%N then (chunks c ++ [chunk])%list
              else chunks c)
             total,
   chunk).

Fixpoint concatChunks (l : list string) : string :=
  match l with
  | [] => EmptyString
  | chunk :: rest => chunk ++ concatChunks rest
  end.

(** [getBody]; [utf8] is [Buffer.toString('utf8')]. *)
Definition getBody (utf8 : string -> string) (c : Capture) : string :=
  if (maxSize <? totalSize c)%N then "[Response body too large - truncated]"
  else if (length (chunks c) =? 0)%nat then "[Empty response body]"
  else
    let body := utf8 (concatChunks (chunks c)) in
    if String.eqb body "" then "[Empty response body]" else body.

(** The stream fed with [inputs]: the capture at the end, and what was
    passed on, in order. *)
Fixpoint pipe (inputs : list string) (c : Capture) : Capture * list string :=
  match inputs with
  | [] => (c, [])
  | chunk :: rest =>
      let '(c1, out) := transform chunk c in
      let '(c2, outs) := pipe rest c1 in
      (c2, out :: outs)
  end.

Definition newline : string := String "010"%char EmptyString.

(** [formatBody]; [prettyJson body] is
    [JSON.stringify(JSON.parse(body), null, 2)], or [None] when [JSON.parse]
    throws. *)
Definition formatBody (prettyJson : string -> option string) (body : string)
    (contentType : option string) (maxLength : nat) : string :=
  if (String.length body =? 0)%nat then "[Empty body]"
  else
    let plain :=
      if (maxLength <? String.length body)%nat
      then JS.substringTo maxLength body ++ "... [truncated]"
      else body in
    let isJson :=
      match contentType with
      | Some ct => Masking.includesStr ct "application/json"
      | None => false
      end in
    if isJson then
      match prettyJson body with
      | Some formatted =>
          if (maxLength <? String.length formatted)%nat
          then JS.substringTo maxLength formatted ++ newline
               ++ "... [truncated]"
          else formatted
      | None => plain
      end
    else plain.

(** [captureRequestBody]: what can happen to the request while its body
    is read, in the order it happens; [Timeout] is the timer of 100 ms. *)
Inductive BodyEvent :=
| Data (chunk : string)
| End_
| ReadError (message : string)
| Timeout.

Inductive Outcome :=
| Resolved (body : string)
| Rejected (message : string).

(** The chunks kept, the bytes seen, and how the promise is settled, if it
    is. *)
Record Reading := mkReading {
  kept : list string;
  seen : N;
  outcome : option Outcome
}.

Definition newReading : Reading := mkReading [] 0%N None.

(** [resolve] and [reject] settle the promise when it is pending and do
    nothing afterwards. *)
Definition settle (o : Outcome) (r : Reading) : Reading :=
  match outcome r with
  | Some _ => r
  | None => mkReading (kept r) (seen r) (Some o)
  end.

Definition onEvent (utf8 : string -> string) (ev : BodyEvent) (r : Reading)
    : Reading :=
  match ev with
  | Data chunk =>
      let total := (seen r + chunkLength chunk)%N in
      if (maxSize <? total)%N
      then settle (Resolved "[Request body too large - truncated]")
                  (mkReading (kept r) total (outcome r))
      else mkReading (kept r ++ [chunk])%list total (outcome r)
  | End_ =>
      let body := utf8 (concatChunks (kept r)) in
      settle (Resolved (if String.eqb body "" then "[Empty request body]"
                        else body)) r
  | ReadError message => settle (Rejected message) r
  | Timeout =>
      if (length (kept r) =? 0)%nat
      then settle (Resolved "[Empty request body]") r
      else r
  end.

Definition captureRequestBody (utf8 : string -> string)
    (events : list BodyEvent) : Reading :=
  fold_left (fun r ev => onEvent utf8 ev r) events newReading.

End BodyCapture.

(** ** Colours of the log lines ([colors.ts]) *)

Module Colors.

(** [ToInt32]: the value wrapped to a signed integer of 32 bits. *)
Definition toInt32 (z : Z) : Z := ((z + 2 ^ 31) mod 2 ^ 32 - 2 ^ 31)%Z.

(** One turn of the loop of [hashCode]:
    [hash = ((hash << 5) - hash) + char; hash = hash & hash]. *)
Definition hashStep (hash : Z) (c : ascii) : Z :=
  let char := Z.of_nat (nat_of_ascii c) in
  let sum := (toInt32 (Z.shiftl (toInt32 hash) 5) - hash + char)%Z in
  Z.land (toInt32 sum) (toInt32 sum).

Fixpoint hashFrom (hash : Z) (str : string) : Z :=
  match str with
  | EmptyString => hash
  | String c rest => hashFrom (hashStep hash c) rest
  end.

Definition hashCode (str : string) : Z := hashFrom 0%Z str.

(** [Math.abs(hash) % colors.length], the index of the colour of a domain
    or of a trace id among the six. *)
Definition colorIndex (str : string) : Z := (Z.abs (hashCode str) mod 6)%Z.

End Colors.

(** ** Vocabulary of the statements about headers and traces *)

(** The headers with a truthy value, which [TraceManager.sanitizeHeaders]
    keeps. *)
Definition truthyHeaders (hs : TraceManager.IncomingHeaders)
    : TraceManager.IncomingHeaders :=
  List.filter (fun e => TraceManager.headerTruthy (Some (snd e))) hs.


(** The hash [h * 31 + c] over the characters, without wrap-around. *)
Fixpoint polyFrom (hash : Z) (str : string) : Z :=
  match str with
  | EmptyString => hash
  | String c rest =>
      polyFrom (hash * 31 + Z.of_nat (nat_of_ascii c))%Z rest
  end.

(** The request is read to its end without an error. *)
Definition isData (ev : BodyCapture.BodyEvent) : bool :=
  match ev with BodyCapture.Data _ => true | _ => false end.

Definition dataOf (events : list BodyCapture.BodyEvent) : list string :=
  flat_map (fun ev => match ev with
                      | BodyCapture.Data chunk => [chunk]
                      | _ => []
                      end) events.

(** The bytes of a list of chunks. *)
Definition totalBytes (l : list string) : N :=
  fold_right (fun chunk n => (BodyCapture.chunkLength chunk + n)%N) 0%N l.


Definition tracedRequest (traceId : string) : TraceManager.Request :=
  TraceManager.mkRequest
    [ ("host", TraceManager.Single "api.local");
      ("x-trace-id", TraceManager.Single traceId) ]
    (Some "/") (Some "GET").

(** ** Replay of the buffer to a new client ([LogStreamer.sendLogHistory]
    and the ['connection'] listener) *)

Module LogHistory.

(** The loop over the filtered entries: each is sent, and the first [send]
    that throws ends the loop.  The client after the loop, and whether a
    send failed. *)
Fixpoint sendEach (format : LogStreamer.Format) (entries : list LogEntry)
    (client : LogStreamer.Client) : LogStreamer.Client * bool :=
  match entries with
  | [] => (client, false)
  | entry :: rest =>
      if LogStreamer.sendThrows client then (client, true)
      else
        sendEach format rest
          (LogStreamer.mkClient (LogStreamer.isOpen client)
             (LogStreamer.streamOptions client)
             (LogStreamer.sendThrows client)
             (LogStreamer.received client ++ [(format, entry)])%list)
  end.

Definition sendLogHistory (client : LogStreamer.Client)
    (options : LogStreamer.LogStreamOptions) (st : LogStreamer.State)
    : LogStreamer.Client * bool :=
  sendEach (LogStreamer.formatOf options)
    (List.filter (fun entry => LogStreamer.shouldIncludeLog entry options)
                 (LogStreamer.logBuffer st))
    client.

(** The ['connection'] listener for a new socket with the options and the
    [history] flag of its URL: the socket joins the clients, gets the
    history when asked, and carries its options from then on. *)
Definition connect (options : LogStreamer.LogStreamOptions) (history : bool)
    (client : LogStreamer.Client) (st : LogStreamer.State)
    : LogStreamer.State :=
  let replayed :=
    if history then fst (sendLogHistory client options st) else client in
  LogStreamer.mkState
    (LogStreamer.clients st
     ++ [ LogStreamer.mkClient (LogStreamer.isOpen replayed) (Some options)
            (LogStreamer.sendThrows replayed)
            (LogStreamer.received replayed) ])%list
    (LogStreamer.logFile st) (LogStreamer.logBuffer st).

End LogHistory.

(** ** Vocabulary of the statements about streaming *)

(** A socket that is open, whose [send] works, and that got nothing yet. *)
Definition newClient : LogStreamer.Client :=
  LogStreamer.mkClient true None false [].

Definition levelOptions (level : LogLevel) : LogStreamer.LogStreamOptions :=
  LogStreamer.mkOptions (Some level) None None None.

(** The client as a broadcast of [entry] leaves it when the entry is sent
    to it. *)
Definition delivered (entry : LogEntry) (c : LogStreamer.Client)
    : LogStreamer.Client :=
  LogStreamer.mkClient (LogStreamer.isOpen c) (LogStreamer.streamOptions c)
    (LogStreamer.sendThrows c)
    (LogStreamer.received c
     ++ [ (LogStreamer.formatOf
             (default LogStreamer.noOptions (LogStreamer.streamOptions c)),
           entry) ])%list.

Definition accepts (c : LogStreamer.Client) (entry : LogEntry) : bool :=
  LogStreamer.shouldIncludeLog entry
    (default LogStreamer.noOptions (LogStreamer.streamOptions c)).

(* ===================================================================== *)
(** * Properties                                                          *)
(* ===================================================================== *)

(** ** Facts about the string primitives *)

Lemma append_nil (t : string) : "" ++ t = t.
Proof. reflexivity. Qed.

Lemma append_cons (a : ascii) (s t : string) :
  String a s ++ t = String a (s ++ t).
Proof. reflexivity. Qed.

Ltac str_simpl := repeat (rewrite ?append_nil, ?append_cons; simpl).

Lemma startsWith_app (p t : string) : JS.startsWith (p ++ t) p = true.
Proof.
  induction p as [|a p IH]; str_simpl; [reflexivity|].
  rewrite Ascii.eqb_refl. exact IH.
Qed.

Lemma startsWith_inv (s p : string) :
  JS.startsWith s p = true -> exists t, s = p ++ t.
Proof.
  revert s. induction p as [|b p IH]; intros s H.
  - exists s. reflexivity.
  - destruct s as [|a s]; simpl in H; [discriminate|].
    destruct (Ascii.eqb a b) eqn:E; [|discriminate].
    apply Ascii.eqb_eq in E. subst b.
    destruct (IH _ H) as [t ->]. exists t. reflexivity.
Qed.

Lemma startsWith_iff (s p : string) :
  JS.startsWith s p = true <-> exists t, s = p ++ t.
Proof.
  split; [apply startsWith_inv|]. intros [t ->]. apply startsWith_app.
Qed.

Lemma length_app_string (a b : string) :
  String.length (a ++ b) = String.length a + String.length b.
Proof. induction a as [|c a IH]; str_simpl; [reflexivity|]. now rewrite IH. Qed.

Lemma substringFrom_app (a b : string) :
  JS.substringFrom (String.length a) (a ++ b) = b.
Proof. induction a as [|c a IH]; str_simpl; [reflexivity | exact IH]. Qed.

Lemma substringTo_app (a b : string) :
  JS.substringTo (String.length a) (a ++ b) = a.
Proof. induction a as [|c a IH]; str_simpl; [reflexivity | now rewrite IH]. Qed.

Lemma substring_split (n : nat) (s : string) :
  s = JS.substringTo n s ++ JS.substringFrom n s.
Proof.
  revert s. induction n as [|n IH]; intros s; [reflexivity|].
  destruct s as [|a s]; str_simpl; [reflexivity|]. now rewrite <- IH.
Qed.

Lemma endsWith_app (pre suf : string) : JS.endsWith (pre ++ suf) suf = true.
Proof.
  unfold JS.endsWith. rewrite length_app_string.
  apply andb_true_intro; split.
  - apply Nat.leb_le. lia.
  - replace (String.length pre + String.length suf - String.length suf)
      with (String.length pre) by lia.
    rewrite substringFrom_app. apply String.eqb_refl.
Qed.

Lemma endsWith_inv (s suf : string) :
  JS.endsWith s suf = true -> exists pre, s = pre ++ suf.
Proof.
  unfold JS.endsWith. intros H. apply andb_prop in H as [_ H].
  apply String.eqb_eq in H.
  remember (String.length s - String.length suf) as n eqn:En.
  exists (JS.substringTo n s). rewrite <- H. apply substring_split.
Qed.

Lemma endsWith_iff (s suf : string) :
  JS.endsWith s suf = true <-> exists pre, s = pre ++ suf.
Proof.
  split; [apply endsWith_inv|]. intros [pre ->]. apply endsWith_app.
Qed.

Lemma split_no_separator (c : ascii) (s : string) :
  JS.includes s c = false -> JS.split c s = [s].
Proof.
  induction s as [|a s IH]; simpl; [reflexivity|].
  destruct (Ascii.eqb a c); simpl; [discriminate|].
  intros H. now rewrite IH.
Qed.

Lemma split_at_separator (c : ascii) (d rest : string) :
  JS.includes d c = false ->
  JS.split c (d ++ String c rest) = d :: JS.split c rest.
Proof.
  induction d as [|a d IH]; str_simpl.
  - intros _. now rewrite Ascii.eqb_refl.
  - destruct (Ascii.eqb a c); simpl; [discriminate|].
    intros H. now rewrite IH.
Qed.

Lemma includes_app (c : ascii) (a b : string) :
  JS.includes (a ++ b) c = JS.includes a c || JS.includes b c.
Proof.
  induction a as [|x a IH]; str_simpl; [reflexivity|].
  now rewrite IH, orb_assoc.
Qed.

Lemma includes_separator (c : ascii) (d rest : string) :
  JS.includes (d ++ String c rest) c = true.
Proof.
  rewrite includes_app. simpl. rewrite Ascii.eqb_refl. apply orb_true_r.
Qed.

Lemma splitKey_domain_path (d p : string) :
  JS.includes d ":"%char = false ->
  JS.includes p ":"%char = false ->
  Resolver.splitKey (d ++ ":" ++ p) = (d, Some p).
Proof.
  intros Hd Hp. unfold Resolver.splitKey. change (":" ++ p) with (String ":"%char p).
  rewrite includes_separator. unfold JS.splitLimit.
  rewrite split_at_separator, split_no_separator by assumption.
  reflexivity.
Qed.

Lemma splitKey_domain_path_more (d p more : string) :
  JS.includes d ":"%char = false ->
  JS.includes p ":"%char = false ->
  Resolver.splitKey (d ++ ":" ++ p ++ ":" ++ more) = (d, Some p).
Proof.
  intros Hd Hp. unfold Resolver.splitKey.
  change (":" ++ p ++ ":" ++ more)
    with (String ":"%char (p ++ String ":"%char more)).
  rewrite includes_separator. unfold JS.splitLimit.
  rewrite split_at_separator by assumption.
  rewrite split_at_separator by assumption.
  reflexivity.
Qed.

Lemma includes_inv (c : ascii) (s : string) :
  JS.includes s c = true ->
  exists a b, s = a ++ String c b /\ JS.includes a c = false.
Proof.
  induction s as [|x s IH]; simpl; [discriminate|].
  destruct (Ascii.eqb x c) eqn:E; simpl.
  - intros _. apply Ascii.eqb_eq in E. subst x. now exists "", s.
  - intros H. destruct (IH H) as (a & b & -> & Ha).
    exists (String x a), b. split; [reflexivity|]. simpl. now rewrite E.
Qed.

Lemma includes_noColon (s : string) :
  JS.includes s ":"%char = false <-> noColon s.
Proof.
  split.
  - intros H a b ->. change (":" ++ b) with (String ":"%char b) in H.
    rewrite includes_separator in H. discriminate.
  - intros H. destruct (JS.includes s ":"%char) eqn:E; [|reflexivity].
    apply includes_inv in E as (a & b & -> & _). destruct (H a b). reflexivity.
Qed.

(** ** Route resolution *)

Section RouteResolution.

Import Resolver.

Lemma startsWith_star_dot (s : string) :
  JS.startsWith s "*." = true <-> exists suffix, s = "*." ++ suffix.
Proof. apply startsWith_iff. Qed.

Lemma matchDomain_spec (routeDomain domain : string) (n : nat) :
  matchDomain routeDomain domain = (true, n)
  <-> exists t, domainMatches routeDomain domain t /\ n = tierScore t.
Proof.
  unfold matchDomain.
  destruct (String.eqb routeDomain domain) eqn:E.
  - apply String.eqb_eq in E. split.
    + intros [= <-]. exists Exact. now split.
    + intros [[|] [H ->]]; simpl in H; [reflexivity | tauto].
  - apply String.eqb_neq in E.
    destruct (JS.startsWith routeDomain "*.") eqn:W.
    + apply startsWith_star_dot in W as [suffix ->].
      change (JS.substringFrom 2 ("*." ++ suffix)) with suffix.
      destruct (JS.endsWith domain suffix) eqn:S.
      * apply endsWith_iff in S as [pre ->]. split.
        -- intros [= <-]. exists Wildcard. split; [|reflexivity].
           split; [exact E|]. now exists suffix, pre.
        -- intros [[|] [H ->]]; simpl in H; [congruence | reflexivity].
      * split; [discriminate|].
        intros [[|] [H ->]]; simpl in H; [congruence|].
        destruct H as [_ (suffix' & pre & Hs & ->)].
        rewrite !append_cons, !append_nil in Hs. injection Hs as <-.
        rewrite endsWith_app in S. discriminate.
    + split; [discriminate|].
      intros [[|] [H ->]]; simpl in H; [congruence|].
      destruct H as [_ (suffix' & pre & -> & _)].
      rewrite startsWith_app in W. discriminate.
Qed.

Lemma matchDomain_false (routeDomain domain : string) (n : nat) :
  matchDomain routeDomain domain = (false, n) ->
  forall t, ~ domainMatches routeDomain domain t.
Proof.
  intros H t Ht.
  assert (matchDomain routeDomain domain = (true, tierScore t)) as H'
    by (apply matchDomain_spec; eauto).
  congruence.
Qed.

Lemma domainMatches_tier (routeDomain domain : string) (t t' : DomainTier) :
  domainMatches routeDomain domain t -> domainMatches routeDomain domain t' ->
  t = t'.
Proof.
  destruct t, t'; simpl; try reflexivity; intros; tauto.
Qed.

Lemma truthy_Some (s : string) : JS.truthy (Some s) = true <-> s <> "".
Proof.
  simpl. destruct (String.eqb s "") eqn:E.
  - apply String.eqb_eq in E. split; [discriminate | congruence].
  - apply String.eqb_neq in E. tauto.
Qed.

Lemma startsWith_nonempty (u p : string) :
  JS.startsWith u p = true -> p <> "" -> u <> "".
Proof. destruct p, u; simpl; congruence. Qed.

Lemma collect_In (domain : string) (url : option string)
    (routes : RouteTable) (c : Candidate) :
  In c (collect domain url routes)
  <-> exists e, In e routes /\ examine domain url e = Some c.
Proof.
  induction routes as [|e routes IH]; simpl.
  - split; [tauto | intros (? & [] & _)].
  - destruct (examine domain url e) as [c'|] eqn:E; simpl; rewrite IH; split.
    + intros [<-|(e' & He & Hc)]; eauto.
    + intros (e' & [<-|He] & Hc); [left; congruence | right; eauto].
    + intros (e' & He & Hc). eauto.
    + intros (e' & [<-|He] & Hc); [congruence | eauto].
Qed.

(** The sort keeps the elements and puts a greatest score first. *)
Lemma insertDesc_In (c x : Candidate) (l : list Candidate) :
  In x (insertDesc c l) <-> x = c \/ In x l.
Proof.
  induction l as [|d l IH]; simpl; [intuition congruence|].
  destruct (score c <? score d)%nat; simpl; [rewrite IH|]; intuition congruence.
Qed.

Lemma sortDesc_In (x : Candidate) (l : list Candidate) :
  In x (sortDesc l) <-> In x l.
Proof.
  induction l as [|c l IH]; simpl; [tauto|].
  rewrite insertDesc_In, IH. intuition congruence.
Qed.

Lemma insertDesc_head (c : Candidate) (l : list Candidate) :
  headGreatest l -> headGreatest (insertDesc c l).
Proof.
  destruct l as [|d l]; simpl; [tauto|]. intros H.
  destruct (score c <? score d)%nat eqn:E; simpl.
  - apply Nat.ltb_lt in E. intros x Hx.
    apply insertDesc_In in Hx as [->|Hx]; [lia | auto].
  - apply Nat.ltb_ge in E. intros x [<-|Hx]; [exact E|].
    specialize (H x Hx). lia.
Qed.

Lemma sortDesc_head (l : list Candidate) : headGreatest (sortDesc l).
Proof.
  induction l as [|c l IH]; simpl; [exact I | now apply insertDesc_head].
Qed.

Lemma sortDesc_best (l : list Candidate) (b : Candidate) (rest : list Candidate) :
  sortDesc l = b :: rest ->
  In b l /\ forall x, In x l -> score x <= score b.
Proof.
  intros H. split.
  - apply sortDesc_In. rewrite H. now left.
  - intros x Hx. apply sortDesc_In in Hx. rewrite H in Hx.
    destruct Hx as [<-|Hx]; [lia|].
    pose proof (sortDesc_head l) as G. rewrite H in G. exact (G x Hx).
Qed.

Lemma sortDesc_nil (l : list Candidate) : sortDesc l = [] -> l = [].
Proof.
  destruct l as [|c l]; [reflexivity|]. intros H.
  assert (In c (sortDesc (c :: l))) as Hc by (apply sortDesc_In; now left).
  rewrite H in Hc. destruct Hc.
Qed.

(** The sort is stable at its head: the first element of the result is the
    first of the elements of greatest score. *)
Lemma sortDesc_first_of_ties (l : list Candidate) (b : Candidate)
    (rest : list Candidate) :
  sortDesc l = b :: rest ->
  exists before after,
    l = (before ++ b :: after)%list
    /\ (forall x, In x before -> score x < score b)
    /\ (forall x, In x after -> score x <= score b).
Proof.
  revert b rest. induction l as [|c l IH]; intros b rest H; [discriminate|].
  simpl in H. destruct (sortDesc l) as [|d ds] eqn:S.
  - apply sortDesc_nil in S. subst l. injection H as <- <-.
    exists [], []. repeat split; intros x [].
  - destruct (IH d ds eq_refl) as (before & after & -> & Hb & Ha).
    simpl in H. destruct (score c <? score d)%nat eqn:E.
    + apply Nat.ltb_lt in E. injection H as <- <-.
      exists (c :: before), after. split; [reflexivity|]. split; [|exact Ha].
      intros x [<-|Hx]; [exact E | now apply Hb].
    + apply Nat.ltb_ge in E. injection H as <- <-.
      exists [], (before ++ d :: after)%list. split; [reflexivity|].
      split; [intros x []|]. intros x Hx.
      apply in_app_or in Hx as [Hx|[<-|Hx]].
      * specialize (Hb x Hx). lia.
      * exact E.
      * specialize (Ha x Hx). lia.
Qed.

Lemma findRoute_Some (routes : RouteTable) (domain : string)
    (url : option string) (r : RouteConfig) :
  findRoute routes domain url = Some r ->
  exists b, route b = r /\ In b (collect domain url routes)
            /\ forall x, In x (collect domain url routes) -> score x <= score b.
Proof.
  unfold findRoute. destruct (collect domain url routes) as [|c l] eqn:C;
    [discriminate|].
  destruct (sortDesc (c :: l)) as [|b rest] eqn:S; [discriminate|].
  intros [= <-]. apply sortDesc_best in S as [Hb Hmax]. eauto.
Qed.

Lemma findRoute_None (routes : RouteTable) (domain : string)
    (url : option string) :
  findRoute routes domain url = None <-> collect domain url routes = [].
Proof.
  unfold findRoute. destruct (collect domain url routes) as [|c l] eqn:C;
    [tauto|].
  destruct (sortDesc (c :: l)) as [|b rest] eqn:S.
  - apply sortDesc_nil in S. discriminate.
  - split; discriminate.
Qed.

(** Every key reads in one way, which is the way [splitKey] reads it. *)
Lemma splitKey_reads (key : string) :
  exists d kp, KeyReads key d kp /\ splitKey key = (d, kp).
Proof.
  destruct (JS.includes key ":"%char) eqn:E.
  - apply includes_inv in E as (d & rest & -> & Hd).
    destruct (JS.includes rest ":"%char) eqn:E2.
    + apply includes_inv in E2 as (p & more & -> & Hp).
      exists d, (Some p). split.
      * apply (ReadsDomainPathMore d p more); now apply includes_noColon.
      * now apply splitKey_domain_path_more.
    + exists d, (Some rest). split.
      * apply (ReadsDomainPath d rest); now apply includes_noColon.
      * now apply splitKey_domain_path.
  - exists key, None. split.
    + apply ReadsDomain. now apply includes_noColon.
    + unfold splitKey. now rewrite E.
Qed.

Lemma KeyReads_splitKey (key d : string) (kp : option string) :
  KeyReads key d kp -> splitKey key = (d, kp).
Proof.
  intros [d0 Hd|d0 p Hd Hp|d0 p more Hd Hp];
    apply includes_noColon in Hd; try apply includes_noColon in Hp.
  - unfold splitKey. now rewrite Hd.
  - now apply splitKey_domain_path.
  - now apply splitKey_domain_path_more.
Qed.

(** [routePath || route.path], when truthy, is the path-part. *)
Lemma pathToMatch_pathPart (key d : string) (kp : option string)
    (r : RouteConfig) :
  splitKey key = (d, kp) ->
  (if JS.truthy (pathToMatch key r) then pathToMatch key r else None)
  = pathPart kp r.
Proof.
  intros E. unfold pathToMatch, JS.or, pathPart. rewrite E. cbn [snd].
  destruct kp as [[|c p]|]; destruct (path r) as [[|c' p']|]; reflexivity.
Qed.

Lemma pathPart_nonempty (kp : option string) (r : RouteConfig) (p : string) :
  pathPart kp r = Some p -> p <> "".
Proof.
  unfold pathPart.
  destruct kp as [[|c q]|]; destruct (path r) as [[|c' q']|];
    intros [= <-]; discriminate.
Qed.

(** One iteration pushes a candidate exactly for an entry that is one, with
    the score of its tier and path-part. *)
Lemma examine_candidacy (domain : string) (url : option string)
    (key : string) (r : RouteConfig) (c : Candidate) :
  examine domain url (key, r) = Some c
  <-> route c = r
      /\ exists t p, Candidacy domain url key r t p /\ score c = scoreOf t p.
Proof.
  destruct (splitKey_reads key) as (d & kp & Hread & Hsplit).
  pose proof (pathToMatch_pathPart key d kp r Hsplit) as Hpart.
  assert (forall t p, Candidacy domain url key r t p ->
            domainMatches d domain t /\ p = pathPart kp r
            /\ pathAdmits (pathPart kp r) url) as Hinv.
  { intros t p H. destruct H as [key0 r0 d' kp' t0 Hread' Hdom Hadm].
    apply KeyReads_splitKey in Hread'. rewrite Hsplit in Hread'.
    injection Hread' as <- <-. now split. }
  unfold examine, scoreOf. rewrite Hsplit. cbn [fst].
  destruct (matchDomain d domain) as [[|] n] eqn:D; cbn [negb].
  - apply matchDomain_spec in D as (t & Ht & ->).
    assert (forall t', domainMatches d domain t' -> t' = t)
      as Hu by (intros; eapply domainMatches_tier; eauto).
    destruct (JS.truthy (pathToMatch key r)) eqn:T.
    + destruct (pathToMatch key r) as [p'|] eqn:P; [|discriminate].
      pose proof (pathPart_nonempty _ _ _ (eq_sym Hpart)) as Hne.
      cbn [andb]. destruct (JS.truthy url) eqn:Tu.
      * destruct url as [u|]; [|discriminate].
        destruct (JS.startsWith u p') eqn:Sp.
        -- apply startsWith_iff in Sp as [rest ->]. split.
           ++ intros [= <-]. split; [reflexivity|].
              exists t, (pathPart kp r). split; [|now rewrite <- Hpart].
              apply (candidate domain _ key r d kp t Hread Ht).
              rewrite <- Hpart. now exists rest.
           ++ intros [Hr (t' & p & Hc & Hs)].
              destruct (Hinv _ _ Hc) as (Ht' & -> & _).
              apply Hu in Ht'. subst t'. rewrite <- Hpart in Hs.
              destruct c; simpl in *. now subst.
        -- split; [discriminate|].
           intros [_ (t' & p & Hc & _)].
           destruct (Hinv _ _ Hc) as (_ & _ & Hadm).
           rewrite <- Hpart in Hadm. destruct Hadm as [rest [= ->]].
           rewrite startsWith_app in Sp. discriminate.
      * cbn [negb]. split; [discriminate|].
        intros [_ (t' & p & Hc & _)].
        destruct (Hinv _ _ Hc) as (_ & _ & Hadm).
        rewrite <- Hpart in Hadm. destruct Hadm as [rest ->].
        simpl in Tu. destruct p'; [congruence | discriminate].
    + cbn [andb negb]. split.
      * intros [= <-]. split; [reflexivity|].
        exists t, (pathPart kp r).
        split; [|rewrite <- Hpart; simpl; lia].
        apply (candidate domain url key r d kp t Hread Ht).
        now rewrite <- Hpart.
      * intros [Hr (t' & p & Hc & Hs)].
        destruct (Hinv _ _ Hc) as (Ht' & -> & _).
        apply Hu in Ht'. subst t'. rewrite <- Hpart in Hs. simpl in Hs.
        destruct c; simpl in *. subst. now rewrite Nat.add_0_r.
  - split; [discriminate|].
    intros [_ (t & p & Hc & _)]. destruct (Hinv _ _ Hc) as (Ht & _).
    eapply matchDomain_false in D. destruct (D Ht).
Qed.

Lemma Candidacy_collect (routes : RouteTable) (domain : string)
    (url : option string) (key : string) (r : RouteConfig) (t : DomainTier)
    (p : option string) :
  In (key, r) routes -> Candidacy domain url key r t p ->
  In (mkCandidate r (scoreOf t p)) (collect domain url routes).
Proof.
  intros Hin Hc. apply collect_In. exists (key, r). split; [exact Hin|].
  apply examine_candidacy. split; [reflexivity|]. exists t, p. now split.
Qed.

Lemma collect_Candidacy (routes : RouteTable) (domain : string)
    (url : option string) (c : Candidate) :
  In c (collect domain url routes) ->
  exists key t p, In (key, route c) routes
                  /\ Candidacy domain url key (route c) t p
                  /\ score c = scoreOf t p.
Proof.
  intros Hc. apply collect_In in Hc as ([key r] & Hin & He).
  apply examine_candidacy in He as [<- (t & p & Hm & Hs)]. eauto 8.
Qed.

(** C1.  For every route table and request, [findRoute] answers a candidate
    of greatest score among all the candidates, and answers nothing exactly
    when there is no candidate.  An entry is a candidate when the domain
    before the first colon of its key is the request domain (tier exact,
    1000) or is [*.suffix] with the suffix ending the request domain (tier
    wildcard, 500), and when its path-part - the path after the colon of the
    key or, without one, the [path] field of the route - is absent or starts
    the request path; its score is that of the tier plus the length of the
    path-part.  An exact candidate beats a wildcard candidate with a
    path-part of the same length, and on one tier a candidate with a longer
    path-part beats one with a shorter: the entry answered scores at least
    as much as the winner of the two.  The examples show a path in a key and
    a [path] field excluding a request, a route without path-part taking any
    path, and the two rules of precedence. *)
Theorem findRoute_highest_score (routes : RouteTable) (domain : string)
    (url : option string) :
  (forall r, findRoute routes domain url = Some r ->
     exists key t p,
       In (key, r) routes /\ Candidacy domain url key r t p
       /\ forall key' r' t' p',
            In (key', r') routes -> Candidacy domain url key' r' t' p' ->
            scoreOf t' p' <= scoreOf t p)
  /\ (findRoute routes domain url = None
      <-> forall key r t p,
            In (key, r) routes -> ~ Candidacy domain url key r t p)
  /\ (forall key1 r1 p1 key2 r2 p2,
        In (key1, r1) routes -> Candidacy domain url key1 r1 Exact p1 ->
        In (key2, r2) routes -> Candidacy domain url key2 r2 Wildcard p2 ->
        pathLength p1 = pathLength p2 ->
        scoreOf Wildcard p2 < scoreOf Exact p1
        /\ exists r key t p,
             findRoute routes domain url = Some r /\ In (key, r) routes
             /\ Candidacy domain url key r t p
             /\ scoreOf Exact p1 <= scoreOf t p)
  /\ (forall tier key1 r1 p1 key2 r2 p2,
        In (key1, r1) routes -> Candidacy domain url key1 r1 tier p1 ->
        In (key2, r2) routes -> Candidacy domain url key2 r2 tier p2 ->
        pathLength p2 < pathLength p1 ->
        scoreOf tier p2 < scoreOf tier p1
        /\ exists r key t p,
             findRoute routes domain url = Some r /\ In (key, r) routes
             /\ Candidacy domain url key r t p
             /\ scoreOf tier p1 <= scoreOf t p)
  /\ findRoute [ ("a.local:/api", plainRoute "A"); ("a.local", plainRoute "B") ]
               "a.local" (Some "/api/users")
     = Some (plainRoute "A")
  /\ findRoute [ ("a.local:/api", plainRoute "A"); ("a.local", plainRoute "B") ]
               "a.local" (Some "/other")
     = Some (plainRoute "B")
  /\ findRoute [ ("a.local:/api", plainRoute "A") ] "a.local" (Some "/other")
     = None
  /\ findRoute [ ("a.local", pathRoute "A" "/api") ] "a.local" (Some "/other")
     = None
  /\ findRoute [ ("a.local", pathRoute "A" "/api") ] "a.local"
               (Some "/api/users")
     = Some (pathRoute "A" "/api")
  /\ findRoute [ ("a.local:/v1", pathRoute "A" "/api") ] "a.local"
               (Some "/api/users")
     = None
  /\ findRoute [ ("*.local", plainRoute "W"); ("a.local", plainRoute "E") ]
               "a.local" (Some "/")
     = Some (plainRoute "E")
  /\ findRoute [ ("*.local:/a", plainRoute "W"); ("a.local:/b", plainRoute "E") ]
               "a.local" (Some "/a")
     = Some (plainRoute "W")
  /\ findRoute [ ("a.local:/a", plainRoute "S"); ("a.local:/a/b", plainRoute "L") ]
               "a.local" (Some "/a/b/c")
     = Some (plainRoute "L").
Proof.
  assert (forall r, findRoute routes domain url = Some r ->
     exists key t p,
       In (key, r) routes /\ Candidacy domain url key r t p
       /\ forall key' r' t' p',
            In (key', r') routes -> Candidacy domain url key' r' t' p' ->
            scoreOf t' p' <= scoreOf t p) as Hbest.
  { intros r H. apply findRoute_Some in H as (b & <- & Hb & Hmax).
    destruct (collect_Candidacy _ _ _ _ Hb) as (key & t & p & Hin & Hm & Hs).
    exists key, t, p. split; [exact Hin | split; [exact Hm|]].
    intros key' r' t' p' Hin' Hm'. rewrite <- Hs.
    exact (Hmax _ (Candidacy_collect _ _ _ _ _ _ _ Hin' Hm')). }
  assert (forall key1 r1 t1 p1, In (key1, r1) routes ->
            Candidacy domain url key1 r1 t1 p1 ->
            exists r key t p,
              findRoute routes domain url = Some r /\ In (key, r) routes
              /\ Candidacy domain url key r t p
              /\ scoreOf t1 p1 <= scoreOf t p) as Hsome.
  { intros key1 r1 t1 p1 Hin Hm.
    destruct (findRoute routes domain url) as [r|] eqn:F.
    - destruct (Hbest r eq_refl) as (key & t & p & Hin' & Hm' & Hmax).
      exists r, key, t, p. split; [reflexivity|].
      split; [exact Hin' | split; [exact Hm' | now apply (Hmax key1 r1)]].
    - apply findRoute_None in F.
      pose proof (Candidacy_collect _ _ _ _ _ _ _ Hin Hm) as Hc.
      rewrite F in Hc. destruct Hc. }
  split; [exact Hbest|]. split; [|split; [|split]].
  - rewrite findRoute_None. split.
    + intros Hnil key r t p Hin Hm.
      pose proof (Candidacy_collect _ _ _ _ _ _ _ Hin Hm) as Hc.
      rewrite Hnil in Hc. destruct Hc.
    + intros Hno. destruct (collect domain url routes) as [|c l] eqn:C;
        [reflexivity|].
      destruct (collect_Candidacy routes domain url c)
        as (key & t & p & Hin & Hm & _); [rewrite C; now left|].
      destruct (Hno _ _ _ _ Hin Hm).
  - intros key1 r1 p1 key2 r2 p2 Hin1 Hm1 Hin2 Hm2 Hlen.
    split; [unfold scoreOf; simpl; lia|].
    exact (Hsome _ _ _ _ Hin1 Hm1).
  - intros tier key1 r1 p1 key2 r2 p2 Hin1 Hm1 Hin2 Hm2 Hlen.
    split; [unfold scoreOf; lia|].
    exact (Hsome _ _ _ _ Hin1 Hm1).
  - repeat split; reflexivity.
Qed.

Lemma findRoute_highest_score_witness :
  exists key t p,
    In (key, apiRoute "T1") (devRoutes "T1" "T2")
    /\ Candidacy "x.dev.local" (Some "/api/users") key (apiRoute "T1") t p
    /\ forall key' r' t' p',
         In (key', r') (devRoutes "T1" "T2") ->
         Candidacy "x.dev.local" (Some "/api/users") key' r' t' p' ->
         scoreOf t' p' <= scoreOf t p.
Proof.
  apply (proj1 (findRoute_highest_score (devRoutes "T1" "T2") "x.dev.local"
                  (Some "/api/users"))).
  reflexivity.
Defined.

(** C10, the input on which the claim fails: the request domain
    [*.dev.local] ends with the suffix [dev.local] of the key [*.dev.local],
    yet it is matched as an exact domain, with score 1000 and not 500. *)
Lemma wildcard_pattern_as_domain_is_exact :
  JS.endsWith "*.dev.local" "dev.local" = true
  /\ Resolver.matchDomain (fst (Resolver.splitKey "*.dev.local")) "*.dev.local"
     = (true, 1000)
  /\ Resolver.matchDomain (fst (Resolver.splitKey "*.dev.local")) "*.dev.local"
     <> (true, 500).
Proof. split; [reflexivity | split; [reflexivity | discriminate]]. Qed.

(** C10, amended.  For a route key whose domain-part is [*.S], the request
    domain passes the domain test exactly when it ends with [S], with no
    condition on what precedes [S]; the match is a wildcard match, scored
    500, unless the domain is the string [*.S] itself, which is an exact
    match scored 1000.  So [notdev.local], [dev.local] and [x.dev.local]
    are all wildcard matches of [*.dev.local]. *)
Theorem wildcard_is_suffix_test (key S domain : string) :
  fst (Resolver.splitKey key) = "*." ++ S ->
  ((exists n, Resolver.matchDomain (fst (Resolver.splitKey key)) domain = (true, n))
   <-> JS.endsWith domain S = true)
  /\ (domain <> "*." ++ S ->
      (Resolver.matchDomain (fst (Resolver.splitKey key)) domain = (true, 500)
       <-> JS.endsWith domain S = true))
  /\ (domain = "*." ++ S ->
      Resolver.matchDomain (fst (Resolver.splitKey key)) domain = (true, 1000))
  /\ Resolver.matchDomain (fst (Resolver.splitKey "*.dev.local")) "notdev.local"
     = (true, 500)
  /\ Resolver.matchDomain (fst (Resolver.splitKey "*.dev.local")) "dev.local"
     = (true, 500)
  /\ Resolver.matchDomain (fst (Resolver.splitKey "*.dev.local")) "x.dev.local"
     = (true, 500).
Proof.
  intros ->.
  assert (domain <> "*." ++ S ->
          (Resolver.matchDomain ("*." ++ S) domain = (true, 500)
           <-> JS.endsWith domain S = true)) as Hwild.
  { intros Hne. unfold Resolver.matchDomain.
    destruct (String.eqb ("*." ++ S) domain) eqn:E;
      [apply String.eqb_eq in E; congruence|].
    rewrite startsWith_app.
    change (JS.substringFrom 2 ("*." ++ S)) with S.
    destruct (JS.endsWith domain S); split; congruence. }
  assert (domain = "*." ++ S ->
          Resolver.matchDomain ("*." ++ S) domain = (true, 1000)) as Hexact.
  { intros ->. unfold Resolver.matchDomain. now rewrite String.eqb_refl. }
  split; [|split; [exact Hwild | split; [exact Hexact|]]].
  - destruct (String.eqb domain ("*." ++ S)) eqn:E.
    + apply String.eqb_eq in E. split.
      * intros _. rewrite E. apply (endsWith_app "*." S).
      * intros _. exists 1000. now apply Hexact.
    + apply String.eqb_neq in E. specialize (Hwild E). split.
      * intros [n Hn]. apply Hwild.
        apply matchDomain_spec in Hn as ([|] & Ht & ->); simpl in Ht.
        -- congruence.
        -- apply matchDomain_spec. exists Wildcard. now split.
      * intros He. exists 500. now apply Hwild.
  - repeat split; reflexivity.
Qed.

Lemma wildcard_is_suffix_test_witness :
  Resolver.matchDomain (fst (Resolver.splitKey "*.dev.local:/api"))
                       "notdev.local"
  = (true, 500).
Proof.
  pose proof (wildcard_is_suffix_test "*.dev.local:/api" "dev.local"
                "notdev.local" eq_refl) as (_ & H & _).
  apply H; [discriminate | reflexivity].
Defined.

End RouteResolution.

(** ** The forwarding pipeline *)

Section Forwarding.

Import ProxyServer.

Lemma handleDisabled_no_proxy (req : TraceManager.Request) (traceId domain : string) :
  existsb isProxyWeb (handleDisabled req traceId domain) = false.
Proof. reflexivity. Qed.

Lemma logs_only (logs : list Event) :
  forallb isLog logs = true ->
  existsb isProxyWeb logs = false
  /\ existsb isWriteHead logs = false
  /\ forall ev, In ev logs -> isLog ev = true.
Proof.
  induction logs as [|ev logs IH]; [now split|]. cbn [forallb].
  intros H. apply andb_prop in H as [Hev Hl].
  destruct (IH Hl) as (H1 & H2 & H3).
  destruct ev; try discriminate. cbn [existsb isProxyWeb isWriteHead orb].
  split; [exact H1|]. split; [exact H2|].
  intros ev [<-|Hin]; [reflexivity | now apply H3].
Qed.

(** What [handleRequest] does for a route that is found and enabled: the
    lines of the log, and then either the call of [proxy.web] or, when
    [createProxy] throws, the rejection and the answer of [handleError]. *)
Lemma handleRequest_enabled (newURL : UrlParser) (cfg : ProxyConfig)
    (traceId : string) (req : TraceManager.Request) (r : RouteConfig) :
  Resolver.findRoute (routes cfg) (extractDomain req) (TraceManager.reqUrl req)
  = Some r ->
  enabled r = Some true ->
  exists logs,
    forallb isLog logs = true
    /\ (tracing (global cfg) = false -> logs = [])
    /\ handleRequest newURL cfg traceId req
       = (logs
          ++ match newURL (target r) with
             | Some e =>
                 Reject e :: handleError traceId (extractDomain req) false e
             | None =>
                 [ SetRequestHeader "x-trace-id" traceId;
                   SetRequestHeader "x-forwarded-host" (TraceManager.hostOf req);
                   ProxyWeb (target r)
                            (rewriteUrl r (TraceManager.reqUrl req)) ]
             end)%list.
Proof.
  intros F En. unfold handleRequest. rewrite F, En. cbn [JS.truthyBool negb].
  unfold proxyRequest.
  set (A := if tracing (global cfg) then _ else _).
  set (B := if tracing (global cfg) && _ && _ then _ else _).
  exists (A ++ B)%list. split; [|split].
  - unfold A, B. destruct (tracing (global cfg)); [|reflexivity].
    cbn [andb]. now destruct (_ && _).
  - intros T. unfold A, B. now rewrite T.
  - destruct (newURL (target r)) as [e|].
    + replace (A ++ B ++ [Reject e])%list with ((A ++ B) ++ [Reject e])%list
        by (now rewrite <- app_assoc).
      unfold thrownBy. rewrite last_snoc. now rewrite <- app_assoc.
    + set (forward := [_; _; _]).
      replace (A ++ B ++ forward)%list with ((A ++ B) ++ forward)%list
        by (now rewrite <- app_assoc).
      unfold thrownBy. rewrite last_app. cbn [forward last].
      now rewrite app_nil_r.
Qed.

(** C9.  When the route that [findRoute] answers for a request has no
    [enabled] field, [handleRequest] does what it does for [enabled: false]:
    it finishes the trace with 503, answers 503 with the JSON body whose
    [error] is "Route disabled", and hands nothing to the proxy.  A request
    reaches [proxy.web] only when the field is [true], and then it does so
    exactly when [createProxy] accepts the target of the route; when
    [createProxy] throws, the request is answered 500 by [handleError] and
    nothing is handed to the proxy. *)
Theorem omitted_enabled_is_disabled (newURL : UrlParser) (cfg : ProxyConfig)
    (traceId : string) (req : TraceManager.Request) (r : RouteConfig) :
  Resolver.findRoute (routes cfg) (extractDomain req) (TraceManager.reqUrl req)
  = Some r ->
  ((enabled r = None \/ enabled r = Some false) ->
   handleRequest newURL cfg traceId req
   = [ FinishTrace traceId 503 (Some "Route disabled");
       Log LInfo ("Route disabled: " ++ extractDomain req) traceId
           (Some (extractDomain req)) None;
       WriteHead 503 jsonHeaders;
       EndResponse (JObj [ ("error", JStr "Route disabled");
                           ("domain", JStr (extractDomain req));
                           ("traceId", JStr traceId) ]) ])
  /\ (existsb isProxyWeb (handleRequest newURL cfg traceId req) = true
      <-> enabled r = Some true /\ newURL (target r) = None)
  /\ (enabled r = Some true -> newURL (target r) = None ->
      In (ProxyWeb (target r) (rewriteUrl r (TraceManager.reqUrl req)))
         (handleRequest newURL cfg traceId req)
      /\ existsb isWriteHead (handleRequest newURL cfg traceId req) = false)
  /\ (forall e, enabled r = Some true -> newURL (target r) = Some e ->
      exists logs,
        forallb isLog logs = true
        /\ handleRequest newURL cfg traceId req
           = (logs
              ++ [ Reject e;
                   FinishTrace traceId 500 (Some (thrownMessage e));
                   Log LError "Request handling error" traceId
                       (Some (extractDomain req))
                       (Some (JObj [ ("error", JStr (thrownMessage e));
                                     ("stack", stackJson e) ]));
                   WriteHead 500 jsonHeaders;
                   EndResponse
                     (JObj [ ("error", JStr "Internal server error");
                             ("traceId", JStr traceId);
                             ("message", JStr (thrownMessage e)) ]) ])%list).
Proof.
  intros F.
  destruct (enabled r) as [[|]|] eqn:En.
  - destruct (handleRequest_enabled newURL cfg traceId req r F En)
      as (logs & Hlogs & _ & ->).
    destruct (logs_only logs Hlogs) as (Hnp & Hnw & _).
    split; [intros [?|?]; discriminate|].
    destruct (newURL (target r)) as [e|] eqn:U.
    + split; [|split].
      * rewrite existsb_app, Hnp. simpl. split; [discriminate|].
        intros [_ ?]. discriminate.
      * intros _ ?. discriminate.
      * intros e' _ [= <-]. exists logs. now split.
    + split; [|split].
      * rewrite existsb_app, Hnp. simpl. now split.
      * intros _ _. split.
        -- apply in_or_app. right. simpl. tauto.
        -- rewrite existsb_app, Hnw. reflexivity.
      * intros e _ ?. discriminate.
  - unfold handleRequest. rewrite F, En. cbn [JS.truthyBool negb].
    split; [reflexivity|].
    split; [split; [discriminate | intros [? _]; discriminate]|].
    split; [discriminate|]. intros e ?. discriminate.
  - unfold handleRequest. rewrite F, En. cbn [JS.truthyBool negb].
    split; [reflexivity|].
    split; [split; [discriminate | intros [? _]; discriminate]|].
    split; [discriminate|]. intros e ?. discriminate.
Qed.

Lemma omitted_enabled_is_disabled_witness :
  handleRequest sampleParser (quietConfig (devRoutes "T1" "T2")) "trace-1"
                (getRequest "x.dev.local" "/api/users")
  = [ FinishTrace "trace-1" 503 (Some "Route disabled");
      Log LInfo ("Route disabled: " ++ "x.dev.local") "trace-1"
          (Some "x.dev.local") None;
      WriteHead 503 jsonHeaders;
      EndResponse (JObj [ ("error", JStr "Route disabled");
                          ("domain", JStr "x.dev.local");
                          ("traceId", JStr "trace-1") ]) ].
Proof.
  exact (proj1 (omitted_enabled_is_disabled sampleParser
                  (quietConfig (devRoutes "T1" "T2")) "trace-1"
                  (getRequest "x.dev.local" "/api/users") (apiRoute "T1")
                  eq_refl)
               (or_introl eq_refl)).
Defined.

(** C2, on the table of the scenario.  With the table as the scenario writes
    it (no [enabled] field) both requests are answered 503 and nothing is
    forwarded.  With [enabled: true] added to both routes, and a target T1
    that [createProxy] accepts, [GET /api/users] on [x.dev.local] is
    forwarded to T1 with its path still [/api/users]: the prefix [/api]
    stands in the key, the route has no [path] field, and [proxyRequest]
    rewrites only by [route.path].  [GET /other] is forwarded to T2 at
    [/other].  With a target that [createProxy] throws on, the request is
    answered 500 and nothing is forwarded. *)
Theorem key_path_is_not_rewritten (newURL : UrlParser)
    (T1 T2 traceId : string) :
  handleRequest newURL (quietConfig (devRoutes T1 T2)) traceId
                (getRequest "x.dev.local" "/api/users")
  = handleDisabled (getRequest "x.dev.local" "/api/users") traceId "x.dev.local"
  /\ handleRequest newURL (quietConfig (devRoutes T1 T2)) traceId
                   (getRequest "x.dev.local" "/other")
     = handleDisabled (getRequest "x.dev.local" "/other") traceId "x.dev.local"
  /\ handleRequest newURL (quietConfig (devRoutesEnabled T1 T2)) traceId
                   (getRequest "x.dev.local" "/api/users")
     = match newURL T1 with
       | None =>
           [ SetRequestHeader "x-trace-id" traceId;
             SetRequestHeader "x-forwarded-host" "x.dev.local";
             ProxyWeb T1 (Some "/api/users") ]
       | Some e => Reject e :: handleError traceId "x.dev.local" false e
       end
  /\ handleRequest newURL (quietConfig (devRoutesEnabled T1 T2)) traceId
                   (getRequest "x.dev.local" "/other")
     = match newURL T2 with
       | None =>
           [ SetRequestHeader "x-trace-id" traceId;
             SetRequestHeader "x-forwarded-host" "x.dev.local";
             ProxyWeb T2 (Some "/other") ]
       | Some e => Reject e :: handleError traceId "x.dev.local" false e
       end.
Proof.
  split; [reflexivity|]. split; [reflexivity|]. split.
  - destruct (handleRequest_enabled newURL (quietConfig (devRoutesEnabled T1 T2))
                traceId (getRequest "x.dev.local" "/api/users")
                (withEnabled (apiRoute T1)) eq_refl eq_refl)
      as (logs & _ & Hnil & ->).
    now rewrite (Hnil eq_refl).
  - destruct (handleRequest_enabled newURL (quietConfig (devRoutesEnabled T1 T2))
                traceId (getRequest "x.dev.local" "/other")
                (withEnabled (plainRoute T2)) eq_refl eq_refl)
      as (logs & _ & Hnil & ->).
    now rewrite (Hnil eq_refl).
Qed.

(** With the prefix in the [path] field of the route instead of the key,
    the same request is rewritten to [/users]. *)
Lemma config_path_is_rewritten (T1 : string) :
  rewriteUrl (mkRoute T1 (Some "/api") (Some "") None (Some true)
                      None None None None) (Some "/api/users")
  = Some "/users".
Proof. reflexivity. Qed.

Lemma isConnectionLost_iff (e : ProxyError) :
  isConnectionLost e = true
  <-> code e = Some "ECONNRESET" \/ code e = Some "ECONNREFUSED".
Proof.
  unfold isConnectionLost. destruct (code e) as [c|]; [|intuition congruence].
  rewrite orb_true_iff, !String.eqb_eq. intuition congruence.
Qed.

(** C4.  On an ['error'] event of the proxy of a request, whatever the
    error: the promise of [proxyRequest] is resolved and never rejected;
    every log call made is at [warn] when the code is ECONNRESET or
    ECONNREFUSED and at [error] otherwise, and there is one; and when the
    headers are not sent yet the response is 502 with a JSON body holding
    [error] and [traceId], while nothing is written when they are sent. *)
Theorem proxy_error_is_contained (r : RouteConfig) (traceId traceDomain : string)
    (headersSent : bool) (e : ProxyError) :
  let events := onProxyError r traceId traceDomain headersSent e in
  last events = Some Resolve
  /\ existsb isReject events = false
  /\ (forall ev level, In ev events -> logLevelOf ev = Some level ->
        level = if isConnectionLost e then LWarn else LError)
  /\ (exists ev, In ev events
                 /\ logLevelOf ev = Some (if isConnectionLost e then LWarn else LError))
  /\ (isConnectionLost e = true
      <-> code e = Some "ECONNRESET" \/ code e = Some "ECONNREFUSED")
  /\ (headersSent = false ->
      exists before message,
        events = (before
                  ++ [ WriteHead 502 jsonHeaders;
                       EndResponse (JObj [ ("error", JStr "Bad Gateway");
                                           ("message", JStr message);
                                           ("traceId", JStr traceId) ]);
                       Resolve ])%list
        /\ existsb isWriteHead before = false)
  /\ (headersSent = true -> existsb isWriteHead events = false).
Proof.
  unfold onProxyError, fallbackErrorHandler, requestErrorHandler.
  pose proof (isConnectionLost_iff e) as Hiff.
  destruct (isConnectionLost e) eqn:L; simpl.
  - split; [now destruct headersSent|].
    split; [now destruct headersSent|].
    split.
    { intros ev level [<-|[<-|[<-|Hin]]] Hl; simpl in Hl; try congruence.
      destruct headersSent; simpl in Hin;
        repeat (destruct Hin as [<-|Hin]; [simpl in Hl; congruence|]);
        destruct Hin. }
    split; [eexists; split; [left; reflexivity | reflexivity]|].
    split; [exact Hiff|].
    split.
    + intros ->. simpl.
      eexists [_; _; _], _. split; reflexivity.
    + now intros ->.
  - split; [now destruct headersSent|].
    split; [now destruct headersSent|].
    split.
    { intros ev level [<-|[<-|Hin]] Hl; simpl in Hl; try congruence.
      destruct headersSent; simpl in Hin;
        repeat (destruct Hin as [<-|Hin]; [simpl in Hl; congruence|]);
        destruct Hin. }
    split; [eexists; split; [right; left; reflexivity | reflexivity]|].
    split; [exact Hiff|].
    split.
    + intros ->. simpl.
      eexists [_; _], _. split; reflexivity.
    + now intros ->.
Qed.

Lemma proxy_error_is_contained_witness :
  exists before message,
    onProxyError (plainRoute "http://127.0.0.1:3001") "trace-1" "api.local"
                 false (mkError "connect ECONNREFUSED" (Some "ECONNREFUSED"))
    = (before
       ++ [ WriteHead 502 jsonHeaders;
            EndResponse (JObj [ ("error", JStr "Bad Gateway");
                                ("message", JStr message);
                                ("traceId", JStr "trace-1") ]);
            Resolve ])%list
    /\ existsb isWriteHead before = false.
Proof.
  pose proof (proxy_error_is_contained (plainRoute "http://127.0.0.1:3001")
                "trace-1" "api.local" false
                (mkError "connect ECONNREFUSED" (Some "ECONNREFUSED")))
    as (_ & _ & _ & _ & _ & H & _).
  exact (H eq_refl).
Defined.

End Forwarding.

(** ** Masking of sensitive header values *)

Section MaskingFacts.

Import Masking.

Lemma append_assoc (a b c : string) : (a ++ b) ++ c = a ++ (b ++ c).
Proof. induction a as [|x a IH]; str_simpl; [reflexivity | now rewrite IH]. Qed.

Lemma append_empty_r (a : string) : a ++ "" = a.
Proof. induction a as [|x a IH]; str_simpl; [reflexivity | now rewrite IH]. Qed.

Lemma length_zero_string (s : string) : String.length s = 0 <-> s = "".
Proof. destruct s; simpl; split; congruence. Qed.

Lemma toLowerCase_app (a b : string) :
  toLowerCase (a ++ b) = toLowerCase a ++ toLowerCase b.
Proof. induction a as [|x a IH]; str_simpl; [reflexivity | now rewrite IH]. Qed.

Lemma toLowerCase_app_inv (s x y : string) :
  toLowerCase s = x ++ y ->
  exists s1 s2, s = s1 ++ s2 /\ toLowerCase s1 = x /\ toLowerCase s2 = y.
Proof.
  revert s. induction x as [|c x IH]; intros s H.
  - exists "", s. now split.
  - destruct s as [|a s]; [discriminate|].
    rewrite append_cons in H. simpl in H. injection H as Hc H.
    destruct (IH _ H) as (s1 & s2 & -> & H1 & H2).
    exists (String a s1), s2. split; [reflexivity|].
    split; [simpl; now rewrite Hc, H1 | exact H2].
Qed.

Lemma smallChar_bounds (b : ascii) :
  smallChar b = true ->
  nat_of_ascii b < 128 /\ (nat_of_ascii b < 65 \/ 90 < nat_of_ascii b).
Proof.
  unfold smallChar. intros H. apply andb_prop in H as [H1 H2].
  apply Nat.ltb_lt in H1. split; [exact H1|].
  destruct (Nat.leb_spec 65 (nat_of_ascii b)) as [L|L]; [|now left].
  destruct (Nat.leb_spec (nat_of_ascii b) 90) as [L'|L']; [discriminate|].
  now right.
Qed.

(** The small form of a character is a given small character exactly when
    the character is that one up to case. *)
Lemma toLowerChar_sameLetter (a b : ascii) :
  smallChar b = true -> (toLowerChar a = b <-> sameLetter a b).
Proof.
  intros Hb. apply smallChar_bounds in Hb as [Hlt Hnot].
  unfold toLowerChar, sameLetter.
  pose proof (nat_ascii_bounded a) as Ha.
  destruct (Nat.leb_spec 65 (nat_of_ascii a)) as [L1|L1];
    destruct (Nat.leb_spec (nat_of_ascii a) 90) as [L2|L2]; cbn [andb].
  - split.
    + intros <-. right. rewrite nat_ascii_embedding by lia. lia.
    + intros [->|[_ E]]; [lia|].
      rewrite E. apply ascii_nat_embedding.
  - destruct (Nat.leb_spec 192 (nat_of_ascii a)) as [L3|L3];
      destruct (Nat.leb_spec (nat_of_ascii a) 222) as [L4|L4];
      destruct (Nat.eqb_spec (nat_of_ascii a) 215) as [L5|L5]; cbn [andb negb];
      (split; [intros <-; try (now left);
               rewrite nat_ascii_embedding in Hlt by lia; lia
              | intros [->|[? E]]; [try reflexivity; lia | lia]]).
  - destruct (Nat.leb_spec 192 (nat_of_ascii a)) as [L3|L3]; [lia|].
    cbn [andb]. split; [intros <-; now left | intros [->|[? E]]; [reflexivity | lia]].
  - lia.
Qed.

Lemma toLowerCase_writtenAs (s word : string) :
  smallWord word = true -> (toLowerCase s = word <-> writtenAs s word).
Proof.
  revert s. induction word as [|b word IH]; intros s Hw.
  - split.
    + destruct s; [constructor | discriminate].
    + intros H. inversion H. reflexivity.
  - cbn [smallWord] in Hw. apply andb_prop in Hw as [Hb Hw]. split.
    + destruct s as [|a s]; [discriminate|]. simpl. intros [= Ha Hs].
      constructor; [now apply toLowerChar_sameLetter | now apply IH].
    + intros H. inversion H as [|a b' s' word' Hab Hrest]; subst. simpl.
      f_equal; [now apply toLowerChar_sameLetter | now apply IH].
Qed.

Lemma writtenAs_length (s word : string) :
  writtenAs s word -> String.length s = String.length word.
Proof. induction 1; simpl; congruence. Qed.

Lemma schemes_small (scheme : string) :
  In scheme schemes -> smallWord scheme = true.
Proof.
  intros [<-|[<-|[<-|[<-|[<-|[]]]]]]; reflexivity.
Qed.

Lemma substringTo_substring (n : nat) (s : string) :
  JS.substringTo n s = String.substring 0 n s.
Proof.
  revert s. induction n as [|n IH]; intros [|a s]; simpl; try reflexivity.
  now rewrite IH.
Qed.

Lemma repeat_stars (n : nat) : JS.repeat "*"%char n = stars n.
Proof.
  unfold stars. induction n as [|n IH]; simpl; [reflexivity | now rewrite IH].
Qed.

(** The loop splits off the scheme that the value is written with. *)
Lemma splitAuthPrefix_scheme (prefix r scheme : string) :
  In scheme schemes -> writtenAs prefix scheme ->
  splitAuthPrefix authPrefixes (prefix ++ r) = (prefix, r).
Proof.
  intros Hin Hw.
  pose proof (writtenAs_length _ _ Hw) as Hlen.
  apply (toLowerCase_writtenAs _ _ (schemes_small _ Hin)) in Hw.
  unfold authPrefixes.
  assert (forall n, n = String.length prefix ->
            (JS.substringTo n (prefix ++ r), JS.substringFrom n (prefix ++ r))
            = (prefix, r)) as Hcut
    by (intros n ->; now rewrite substringTo_app, substringFrom_app).
  cbn [splitAuthPrefix]. rewrite toLowerCase_app, Hw.
  destruct Hin as [<-|[<-|[<-|[<-|[<-|[]]]]]];
    rewrite ?append_cons, ?append_nil; cbn [JS.startsWith Ascii.eqb Bool.eqb];
    apply Hcut; now rewrite Hlen.
Qed.

(** Without a scheme at its head the value is left whole. *)
Lemma splitAuthPrefix_none (value : string) :
  (forall prefix r scheme,
     In scheme schemes -> writtenAs prefix scheme -> value <> prefix ++ r) ->
  splitAuthPrefix authPrefixes value = ("", value).
Proof.
  intros Hno.
  assert (forall prefixes,
            (forall scheme, In scheme prefixes -> In scheme schemes) ->
            splitAuthPrefix prefixes value = ("", value)) as H.
  { induction prefixes as [|a prefixes IH]; intros Hsub; [reflexivity|].
    cbn [splitAuthPrefix].
    destruct (JS.startsWith (toLowerCase value) a) eqn:S.
    - exfalso. apply startsWith_inv in S as [t Ht].
      apply toLowerCase_app_inv in Ht as (s1 & s2 & Hv & H1 & _).
      assert (In a schemes) as Ha by (apply Hsub; now left).
      apply (toLowerCase_writtenAs _ _ (schemes_small _ Ha)) in H1.
      exact (Hno _ _ _ Ha H1 Hv).
    - apply IH. intros scheme Hs. apply Hsub. now right. }
  apply H. intros scheme Hs. exact Hs.
Qed.

(** The mask of a value that splits into [prefix] and [r]. *)
Lemma maskSensitiveValue_split (value prefix r : string) :
  value <> "" ->
  splitAuthPrefix authPrefixes value = (prefix, r) ->
  MaskedAs prefix r (maskSensitiveValue value).
Proof.
  intros Hne Hs. unfold maskSensitiveValue, MaskedAs.
  destruct (String.length value =? 0)%nat eqn:E0;
    [apply Nat.eqb_eq, length_zero_string in E0; congruence|].
  rewrite Hs. split; [|split].
  - intros ->. reflexivity.
  - intros Hr Hq.
    destruct (String.length r =? 0)%nat eqn:E1;
      [apply Nat.eqb_eq, length_zero_string in E1; congruence|].
    now rewrite Hq.
  - intros Hq.
    assert (String.length r <> 0) as Hl
      by (intros E; rewrite E in Hq; now apply Hq).
    apply Nat.eqb_neq in Hl. rewrite Hl.
    assert (Nat.min (String.length r / 4) 8 <> 0) as Hm by lia.
    apply Nat.eqb_neq in Hm. rewrite Hm.
    now rewrite substringTo_substring, repeat_stars.
Qed.

(** Two secrets of one length with the same shown characters are masked
    alike. *)
Lemma MaskedAs_same_shown (prefix r r' m m' : string) :
  MaskedAs prefix r m -> MaskedAs prefix r' m' ->
  String.length r = String.length r' ->
  String.substring 0 (Nat.min (String.length r / 4) 8) r
  = String.substring 0 (Nat.min (String.length r / 4) 8) r' ->
  m = m'.
Proof.
  intros (E1 & R1 & M1) (E2 & R2 & M2) Hlen Hshown.
  destruct (Nat.eq_dec (String.length r / 4) 0) as [Hq|Hq].
  - destruct r as [|a r].
    + destruct r' as [|a' r']; [|discriminate].
      now rewrite E1, E2.
    + assert (r' <> "") as Hr' by (destruct r'; [discriminate | congruence]).
      rewrite R1; [|discriminate|exact Hq].
      rewrite R2; [reflexivity | exact Hr' |]. now rewrite <- Hlen.
  - rewrite (M1 Hq). rewrite <- Hlen in M2. rewrite (M2 Hq).
    now rewrite Hshown.
Qed.

Lemma writtenAs_nonempty (prefix scheme : string) :
  In scheme schemes -> writtenAs prefix scheme -> prefix <> "".
Proof.
  intros Hin Hw ->. inversion Hw; subst.
  destruct Hin as [H|[H|[H|[H|[H|[]]]]]]; discriminate.
Qed.

(** C3.  The mask of an empty value is [[EMPTY]].  A value that starts with
    one of the five auth schemes ([bearer ], [basic ], [digest ], [apikey ],
    [token ]), written in any case, keeps that prefix as it is written; a
    value that starts with none has no prefix.  With [r] the rest of the
    value, the prefix is followed by [[EMPTY]] when [r] is empty, by
    [[REDACTED]] when [len r / 4] is 0, and otherwise by the first
    [min (len r / 4) 8] characters of [r], [min hidden 20] stars and,
    exactly when [hidden > 20], the text [...+N] with [N = hidden - 20],
    where [hidden] is [len r] less the characters shown.  Two secrets of
    one length with the same shown characters have the same mask, with a
    scheme or without: nothing else of the secret is revealed.  The bearer token of the scenario masks
    to [Bearer abcdefgh], 20 stars and [...+8]. *)
Theorem maskSensitiveValue_spec :
  maskSensitiveValue "" = "[EMPTY]"
  /\ (forall prefix r scheme,
        In scheme schemes -> writtenAs prefix scheme ->
        MaskedAs prefix r (maskSensitiveValue (prefix ++ r)))
  /\ (forall value,
        value <> "" ->
        (forall prefix r scheme,
           In scheme schemes -> writtenAs prefix scheme ->
           value <> prefix ++ r) ->
        MaskedAs "" value (maskSensitiveValue value))
  /\ (forall prefix r r' scheme,
        In scheme schemes -> writtenAs prefix scheme ->
        String.length r = String.length r' ->
        String.substring 0 (Nat.min (String.length r / 4) 8) r
        = String.substring 0 (Nat.min (String.length r / 4) 8) r' ->
        maskSensitiveValue (prefix ++ r) = maskSensitiveValue (prefix ++ r'))
  /\ (forall value value',
        value <> "" -> value' <> "" ->
        (forall prefix r scheme,
           In scheme schemes -> writtenAs prefix scheme ->
           value <> prefix ++ r /\ value' <> prefix ++ r) ->
        String.length value = String.length value' ->
        String.substring 0 (Nat.min (String.length value / 4) 8) value
        = String.substring 0 (Nat.min (String.length value / 4) 8) value' ->
        maskSensitiveValue value = maskSensitiveValue value')
  /\ maskSensitiveValue "Bearer abcdefghijklmnopqrstuvwxyz0123456789"
     = "Bearer abcdefgh********************...+8"
  /\ maskSensitiveValue "bEaReR abc" = "bEaReR [REDACTED]"
  /\ maskSensitiveValue "Basic " = "Basic [EMPTY]"
  /\ maskSensitiveValue "DIGEST abcdefgh" = "DIGEST ab******"
  /\ maskSensitiveValue "ApiKey 0123456789ab" = "ApiKey 012*********"
  /\ maskSensitiveValue "token 0123" = "token 0***"
  /\ maskSensitiveValue "Bearerabcdefghijk" = "Bear*************"
  /\ maskSensitiveValue "abc" = "[REDACTED]".
Proof.
  assert (forall prefix r scheme,
            In scheme schemes -> writtenAs prefix scheme ->
            MaskedAs prefix r (maskSensitiveValue (prefix ++ r))) as Hscheme.
  { intros prefix r scheme Hin Hw. apply maskSensitiveValue_split.
    - pose proof (writtenAs_nonempty _ _ Hin Hw) as Hne.
      destruct prefix; [congruence | discriminate].
    - now apply (splitAuthPrefix_scheme prefix r scheme). }
  assert (forall value,
            value <> "" ->
            (forall prefix r scheme,
               In scheme schemes -> writtenAs prefix scheme ->
               value <> prefix ++ r) ->
            MaskedAs "" value (maskSensitiveValue value)) as Hplain.
  { intros value Hne Hno. apply maskSensitiveValue_split; [exact Hne|].
    now apply splitAuthPrefix_none. }
  split; [reflexivity|]. split; [exact Hscheme|]. split; [exact Hplain|].
  split; [|split].
  - intros prefix r r' scheme Hin Hw Hlen Hshown.
    exact (MaskedAs_same_shown prefix r r' _ _
             (Hscheme prefix r scheme Hin Hw)
             (Hscheme prefix r' scheme Hin Hw) Hlen Hshown).
  - intros value value' Hne Hne' Hno Hlen Hshown.
    apply (MaskedAs_same_shown "" value value'); [| |exact Hlen|exact Hshown].
    + apply Hplain; [exact Hne|]. intros prefix r scheme Hin Hw.
      exact (proj1 (Hno prefix r scheme Hin Hw)).
    + apply Hplain; [exact Hne'|]. intros prefix r scheme Hin Hw.
      exact (proj2 (Hno prefix r scheme Hin Hw)).
  - repeat split; reflexivity.
Qed.

Lemma maskSensitiveValue_spec_witness :
  maskSensitiveValue ("Token " ++ "0123456789abcdef")
  = "Token " ++ "0123" ++ "************" ++ "".
Proof.
  assert (In "token " schemes) as Hin by (simpl; tauto).
  assert (writtenAs "Token " "token ") as Hw.
  { constructor; [right; vm_compute; lia|].
    repeat (constructor; [now left|]). constructor. }
  assert (String.length "0123456789abcdef" / 4 <> 0) as Hq by discriminate.
  exact (proj2 (proj2 (proj1 (proj2 maskSensitiveValue_spec)
                         "Token " "0123456789abcdef" "token " Hin Hw))
               Hq).
Defined.

End MaskingFacts.

(** ** The log buffer *)

Section LogBuffer.

Import LogStreamer.

Lemma logBuffer_streamLog (entry : LogEntry) (st : State) :
  logBuffer (fst (streamLog entry st)) = pushBuffer entry (logBuffer st).
Proof.
  unfold streamLog. now destruct (broadcastToClients entry (clients st)).
Qed.

Lemma logBuffer_streamAll (entries : list LogEntry) (st : State) :
  logBuffer (streamAll entries st)
  = fold_left (fun b e => pushBuffer e b) entries (logBuffer st).
Proof.
  unfold streamAll. revert st.
  induction entries as [|e entries IH]; intros st; simpl; [reflexivity|].
  now rewrite IH, logBuffer_streamLog.
Qed.

Lemma pushBuffer_length (entry : LogEntry) (buffer : list LogEntry) :
  length buffer <= maxBufferSize ->
  length (pushBuffer entry buffer) <= maxBufferSize.
Proof.
  intros H. unfold pushBuffer.
  destruct (Nat.ltb_spec maxBufferSize (length (buffer ++ [entry])%list)) as [L|L];
    [|exact L].
  rewrite length_app in L. simpl in L.
  destruct buffer as [|x buffer]; simpl in *; [lia|].
  rewrite length_app. simpl. lia.
Qed.

Lemma tl_skipn_snoc {A : Type} (k : nat) (l : list A) (x : A) :
  k < length l ->
  tl (skipn k l ++ [x])%list = skipn (S k) (l ++ [x])%list.
Proof.
  revert k. induction l as [|a l IH]; intros k Hk; simpl in Hk; [lia|].
  destruct k as [|k]; [reflexivity|].
  simpl skipn at 1. rewrite IH by lia. reflexivity.
Qed.

(** Pushing on the last 1000 of [l] leaves the last 1000 of [l] with the
    entry added. *)
Lemma pushBuffer_keepLast (entry : LogEntry) (l : list LogEntry) :
  pushBuffer entry (keepLast maxBufferSize l)
  = keepLast maxBufferSize (l ++ [entry])%list.
Proof.
  unfold pushBuffer, keepLast.
  rewrite !length_app, length_skipn. simpl length.
  destruct (Nat.ltb_spec maxBufferSize
              (length l - (length l - maxBufferSize) + 1)) as [L|L].
  - assert (maxBufferSize <= length l) as Hl by lia.
    replace (length l + 1 - maxBufferSize)
      with (S (length l - maxBufferSize)) by lia.
    apply tl_skipn_snoc. unfold maxBufferSize in *. lia.
  - assert (length l < maxBufferSize) as Hl by lia.
    replace (length l - maxBufferSize) with 0 by lia.
    replace (length l + 1 - maxBufferSize) with 0 by lia.
    reflexivity.
Qed.

Lemma pushAll_keepLast (entries l : list LogEntry) :
  fold_left (fun b e => pushBuffer e b) entries (keepLast maxBufferSize l)
  = keepLast maxBufferSize (l ++ entries)%list.
Proof.
  revert l. induction entries as [|e entries IH]; intros l; simpl.
  - now rewrite app_nil_r.
  - rewrite pushBuffer_keepLast, IH, <- app_assoc. reflexivity.
Qed.

(** C8.  A call of [streamLog] on a buffer of at most 1000 entries leaves at
    most 1000.  From the empty buffer of a new streamer, after any sequence
    of calls the buffer holds the last 1000 entries pushed, in order; after
    1001 pushes it is the sequence without its first entry, so the entry
    pushed last is in it and the one pushed first (when it was not pushed
    again) is not. *)
Theorem logBuffer_bounded (entries : list LogEntry) (st : State) :
  logBuffer st = [] ->
  let buffer := logBuffer (streamAll entries st) in
  length buffer <= 1000
  /\ buffer = skipn (length entries - 1000) entries
  /\ (forall (st' : State) (entry : LogEntry),
        length (logBuffer st') <= 1000 ->
        length (logBuffer (fst (streamLog entry st'))) <= 1000)
  /\ (length entries = 1001 ->
      buffer = tl entries
      /\ (forall latest, last entries = Some latest -> In latest buffer)
      /\ (forall first, head entries = Some first ->
            ~ In first (tl entries) -> ~ In first buffer)).
Proof.
  intros Hempty buffer.
  assert (buffer = skipn (length entries - 1000) entries) as Hb.
  { unfold buffer. rewrite logBuffer_streamAll, Hempty.
    exact (pushAll_keepLast entries []). }
  split.
  { rewrite Hb, length_skipn. lia. }
  split; [exact Hb|]. split.
  { intros st' entry H. rewrite logBuffer_streamLog.
    now apply pushBuffer_length. }
  intros Hlen.
  assert (buffer = tl entries) as Htl.
  { rewrite Hb, Hlen. replace (1001 - 1000) with 1 by lia.
    now destruct entries. }
  split; [exact Htl|]. split.
  - intros latest Hlast. rewrite Htl.
    destruct entries as [|e0 [|e1 entries]]; simpl in Hlen; try lia.
    change (last (e0 :: e1 :: entries)) with (last (e1 :: entries)) in Hlast.
    simpl tl. apply list_elem_of_In. eapply last_Some_elem_of. exact Hlast.
  - intros first _ Hnot. now rewrite Htl.
Qed.

Lemma logBuffer_bounded_witness :
  length (logBuffer (streamAll sampleEntries emptyStreamer)) <= 1000
  /\ logBuffer (streamAll sampleEntries emptyStreamer) = tl sampleEntries.
Proof.
  pose proof (logBuffer_bounded sampleEntries emptyStreamer eq_refl)
    as (H1 & _ & _ & H4).
  split; [exact H1 | exact (proj1 (H4 eq_refl))].
Defined.

End LogBuffer.

(** ** Level filtering *)

Section Levels.

Import Logger.

Lemma indexOf_rank (l : LogLevel) : indexOf levels l = (Z.of_nat (rank l) - 1)%Z.
Proof. now destruct l. Qed.

Lemma shouldLog_rank (lg : State) (level : LogLevel) (domain : option string) :
  shouldLog lg level domain = true
  <-> targetLevel lg domain <> LNone
      /\ rank level <= rank (targetLevel lg domain).
Proof.
  unfold shouldLog. rewrite !indexOf_rank.
  destruct (targetLevel lg domain), level; simpl; split;
    try discriminate; try (intros [? ?]; try congruence; lia);
    intros _; split; try discriminate; lia.
Qed.

(** C7, inputs on which the claim fails.  An entry of level [none] is at
    the level of a sink at [none] in the ranking, and is rejected; the same
    entry is accepted by a sink at [error], which so does not accept error
    entries only; and for the domain [""] the override that exists is not
    looked up. *)
Lemma shouldLog_off_the_ranking :
  rank LNone <= rank (targetLevel (mkState LNone ∅ None) None)
  /\ shouldLog (mkState LNone ∅ None) LNone None = false
  /\ shouldLog (mkState LError ∅ None) LNone None = true
  /\ (<["" := LDebug]> (∅ : gmap string LogLevel)) !! "" = Some LDebug
  /\ targetLevel (mkState LInfo (<["" := LDebug]> ∅) None) (Some "") = LInfo.
Proof.
  split; [reflexivity|]. split; [reflexivity|]. split; [reflexivity|].
  split; [apply lookup_insert_eq | reflexivity].
Qed.

(** C7, amended.  The level [L] of the sink is the override of the domain
    when the domain is a non-empty string that has one, and the global level
    otherwise.  An entry of level error, warn, info or debug is accepted
    exactly when it is at or below [L] in the ranking
    [none < error < warn < info < debug]: [L = none] accepts nothing,
    [L = error] accepts of these the error entries only, [L = debug]
    accepts everything.  An entry of level none is accepted exactly when
    [L] is not none.  A rejected entry leaves the logger and its streamer as
    they are and produces no event: no buffer push, no file write, no
    broadcast, no console output. *)
Theorem shouldLog_by_rank (lg : State) (level : LogLevel)
    (domain : option string) :
  let L := targetLevel lg domain in
  (forall d override, domain = Some d -> d <> "" ->
     domainLevels lg !! d = Some override -> L = override)
  /\ ((domain = None \/ domain = Some ""
       \/ exists d, domain = Some d /\ domainLevels lg !! d = None) ->
      L = globalLevel lg)
  /\ (level <> LNone ->
      (shouldLog lg level domain = true <-> rank level <= rank L))
  /\ (level = LNone -> (shouldLog lg level domain = true <-> L <> LNone))
  /\ (L = LNone -> shouldLog lg level domain = false)
  /\ (L = LError -> level <> LNone ->
      (shouldLog lg level domain = true <-> level = LError))
  /\ (L = LDebug -> shouldLog lg level domain = true)
  /\ (shouldLog lg level domain = false ->
      forall now message traceId data,
        log now level message traceId domain data lg = (lg, [])).
Proof.
  intros L. pose proof (shouldLog_rank lg level domain) as Hr. fold L in Hr.
  split.
  { intros d override -> Hd Ho. unfold L, targetLevel.
    apply truthy_Some in Hd. now rewrite Hd, Ho. }
  split.
  { intros [->|[->|(d & -> & Hn)]]; unfold L, targetLevel; try reflexivity.
    rewrite Hn. now destruct (JS.truthy (Some d)). }
  split.
  { intros Hl. rewrite Hr. split; [tauto|]. intros Hle. split; [|exact Hle].
    intros E. rewrite E in Hle. destruct level; simpl in Hle; try lia.
    congruence. }
  split.
  { intros ->. rewrite Hr. simpl. split; [tauto|]. intros H. split; [exact H|lia]. }
  split.
  { intros E. apply not_true_is_false. intros S.
    apply Hr in S as [S _]. congruence. }
  split.
  { intros E Hl. rewrite Hr, E. simpl.
    destruct level; simpl; split; try congruence; try lia;
      intros; try (split; [discriminate | lia]);
      match goal with H : _ /\ _ |- _ => destruct H; lia end. }
  split.
  { intros E. apply Hr. rewrite E. split; [discriminate|].
    destruct level; simpl; lia. }
  intros S now message traceId data. unfold log. now rewrite S.
Qed.

Lemma shouldLog_by_rank_witness :
  shouldLog (mkState LInfo (<["api.local" := LError]> ∅) None) LError
            (Some "api.local") = true
  /\ log 5 LWarn "slow request" "t-1" (Some "api.local") None
         (mkState LInfo (<["api.local" := LError]> ∅) None)
     = (mkState LInfo (<["api.local" := LError]> ∅) None, []).
Proof.
  split.
  - pose proof (shouldLog_by_rank
                  (mkState LInfo (<["api.local" := LError]> ∅) None) LError
                  (Some "api.local")) as (_ & _ & _ & _ & _ & H & _).
    apply H; [vm_compute; reflexivity | discriminate | reflexivity].
  - pose proof (shouldLog_by_rank
                  (mkState LInfo (<["api.local" := LError]> ∅) None) LWarn
                  (Some "api.local")) as (_ & _ & _ & _ & _ & _ & _ & H).
    apply H. vm_compute. reflexivity.
Defined.

End Levels.

(** ** The duration of a trace *)

Section Duration.

Import TraceManager.

(** C6, the input on which the claim fails.  A trace started at time 0 and
    finished at time 10 has duration 10; a second [finishTrace] for the same
    id at time 25, while no eviction timer is due, writes the duration again:
    it is 25.  So does an [updateTrace] that carries a status code. *)
Lemma duration_written_again :
  let st1 := snd (finishTrace 10 "t-1" 200 None None None startedAt0) in
  let st2 := snd (finishTrace 25 "t-1" 500 (Some "socket hang up") None None
                    (runTimers 25 st1)) in
  let st3 := snd (updateTrace 40 "t-1"
                    (mkUpdates None None None None None None None None
                               (Some (Some 204)) None None None None)
                    (runTimers 40 st1)) in
  durationOf "t-1" startedAt0 = Some None
  /\ durationOf "t-1" st1 = Some (Some 10%Z)
  /\ durationOf "t-1" st2 = Some (Some 25%Z)
  /\ durationOf "t-1" st3 = Some (Some 40%Z).
Proof. vm_compute. repeat split. Qed.

(** C6, amended.  For a trace retained under an id, every [finishTrace]
    for the id writes the duration as [now - timestamp], the first call as
    well as a later one; [updateTrace] writes it as [now - timestamp] when
    the updates carry a status code, and otherwise leaves it as the updates
    set it, which is unchanged when they have no duration. *)
Theorem duration_written_by_each_finish (now : Z) (traceId : string)
    (st : State) (trace : RequestTrace) :
  traces st !! traceId = Some trace ->
  (forall status err respHeaders respBody,
     exists t',
       fst (finishTrace now traceId status err respHeaders respBody st) = Some t'
       /\ getTrace traceId
            (snd (finishTrace now traceId status err respHeaders respBody st))
          = Some t'
       /\ duration t' = Some (now - timestamp trace)%Z)
  /\ (forall updates,
        exists t',
          fst (updateTrace now traceId updates st) = Some t'
          /\ getTrace traceId (snd (updateTrace now traceId updates st))
             = Some t'
          /\ duration t'
             = match u_statusCode updates with
               | Some (Some _) => Some (now - timestamp t')%Z
               | _ => default (duration trace) (u_duration updates)
               end).
Proof.
  intros Ht. split.
  - intros status err respHeaders respBody. unfold finishTrace, getTrace.
    rewrite Ht. simpl. eexists. split; [reflexivity|].
    split; [apply lookup_insert_eq | reflexivity].
  - intros updates. unfold updateTrace, getTrace. rewrite Ht. simpl.
    eexists. split; [reflexivity|]. split; [apply lookup_insert_eq|].
    destruct (u_statusCode updates) as [[code|]|]; reflexivity.
Qed.

Lemma duration_written_by_each_finish_witness :
  exists t',
    fst (finishTrace 25 "t-1" 500 None None None
           (snd (finishTrace 10 "t-1" 200 None None None startedAt0)))
    = Some t'
    /\ getTrace "t-1"
         (snd (finishTrace 25 "t-1" 500 None None None
                 (snd (finishTrace 10 "t-1" 200 None None None startedAt0))))
       = Some t'
    /\ duration t' = Some (25 - 0)%Z.
Proof.
  refine (proj1 (duration_written_by_each_finish 25 "t-1"
            (snd (finishTrace 10 "t-1" 200 None None None startedAt0))
            (mkTrace "t-1" 0 "GET" "/users"
               [("host", "api.local:8080"); ("x-trace-id", "t-1")]
               "api.local" None (Some 10%Z) (Some 200) None None None None)
            _) 500 None None None).
  vm_compute. reflexivity.
Defined.

End Duration.

(** ** Rotation *)

Section Rotation.

Import LogRotation.

Lemma append_inj_l (a b c : string) : a ++ b = a ++ c -> b = c.
Proof.
  induction a as [|x a IH]; str_simpl; [tauto|]. intros [= H]. now apply IH.
Qed.

Lemma numbered_inj (baseName : string) (i j : nat) :
  numbered baseName i = numbered baseName j -> i = j.
Proof.
  unfold numbered. intros H. apply append_inj_l in H.
  apply (append_inj_l ".") in H. now apply pretty_nat_inj in H.
Qed.

Lemma numbered_not_base (baseName : string) (i : nat) :
  numbered baseName i <> baseName.
Proof.
  unfold numbered. intros H.
  apply (f_equal String.length) in H.
  rewrite !length_app_string in H. simpl in H. lia.
Qed.

Lemma rename_other (from to k : string) (disk : Disk) :
  k <> from -> k <> to -> rename from to disk !! k = disk !! k.
Proof.
  intros Hf Ht. unfold rename. destruct (disk !! from); [|reflexivity].
  rewrite lookup_insert_ne by congruence. now rewrite lookup_delete_ne by congruence.
Qed.

Lemma rename_moves (from to content : string) (disk : Disk) :
  disk !! from = Some content -> rename from to disk !! to = Some content.
Proof. intros H. unfold rename. rewrite H. apply lookup_insert_eq. Qed.

(** The loop never touches the file numbered 1. *)
Lemma shiftFiles_first (baseName : string) (i : nat) (disk : Disk) :
  shiftFiles baseName i disk !! numbered baseName 1
  = disk !! numbered baseName 1.
Proof.
  revert disk. induction i as [|j IH]; intros disk; [reflexivity|].
  cbn [shiftFiles]. rewrite IH. apply rename_other.
  - destruct (S j =? 1)%nat eqn:E.
    + apply numbered_not_base.
    + apply Nat.eqb_neq in E. intros H. apply numbered_inj in H. lia.
  - intros H. apply numbered_inj in H. lia.
Qed.

(** The loop, entered with a positive counter, moves the current file to
    the file numbered 2. *)
Lemma shiftFiles_current (baseName content : string) (i : nat) (disk : Disk) :
  disk !! baseName = Some content ->
  shiftFiles baseName (S i) disk !! numbered baseName 2 = Some content.
Proof.
  revert disk. induction i as [|j IH]; intros disk H.
  - cbn [shiftFiles]. change (1 =? 1)%nat with true. cbn iota.
    now apply rename_moves.
  - cbn [shiftFiles]. apply IH. rewrite rename_other; [exact H| |].
    + destruct (S (S j) =? 1)%nat eqn:E; [apply Nat.eqb_eq in E; lia|].
      intros E'. symmetry in E'. now apply numbered_not_base in E'.
    + intros E'. symmetry in E'. now apply numbered_not_base in E'.
Qed.

(** The loop, entered with a positive counter, leaves no file under the
    name of the current file. *)
Lemma shiftFiles_base_gone (baseName : string) (i : nat) (disk : Disk) :
  shiftFiles baseName (S i) disk !! baseName = None.
Proof.
  revert disk. induction i as [|j IH]; intros disk.
  - cbn [shiftFiles]. change (1 =? 1)%nat with true. cbn iota.
    unfold rename. destruct (disk !! baseName) eqn:D; [|exact D].
    rewrite lookup_insert_ne by apply numbered_not_base.
    apply lookup_delete_eq.
  - change (shiftFiles baseName (S (S j)) disk)
      with (shiftFiles baseName (S j)
              (rename (if (S (S j) =? 1)%nat then baseName
                       else numbered baseName (S (S j)))
                      (numbered baseName (S (S j) + 1)) disk)).
    apply IH.
Qed.

(** With two files or more to keep, a rotation has a result. *)
Lemma rotate_result (st : State) (disk : Disk) :
  2 <= maxFiles (config st) ->
  rotate st disk
  = Some (mkState (logPath st) (config st) true 0%N,
          openTruncate (logPath st) (rotateFiles st disk)).
Proof.
  intros Hm. unfold rotate.
  assert (rotateFiles st disk !! logPath st = None) as ->; [|reflexivity].
  unfold rotateFiles.
  destruct (maxFiles (config st)) as [|[|m]]; try lia.
  replace (S (S m) - 1) with (S m) by lia. apply shiftFiles_base_gone.
Qed.

(** A write that would pass the limit rotates first, once, and then
    writes; the counter is then the size of the data. *)
Lemma write_over_limit (data : string) (st : State) (disk : Disk) :
  writeStream st = true ->
  needsRotation st data = true ->
  2 <= maxFiles (config st) ->
  exists st' disk',
    write data st disk = Some (st', disk')
    /\ currentSize st' = byteLength data
    /\ disk' !! logPath st = Some data.
Proof.
  intros Hw Hn Hm. unfold write. rewrite Hw. cbn [negb]. rewrite Hn.
  rewrite rotate_result by exact Hm.
  eexists _, _. split; [reflexivity|].
  unfold append, openTruncate. cbn [fst snd logPath currentSize].
  split; [reflexivity|].
  rewrite lookup_insert_eq, lookup_insert_eq. reflexivity.
Qed.

Lemma write_within_limit (data : string) (st : State) (disk : Disk) :
  writeStream st = true ->
  needsRotation st data = false ->
  write data st disk = Some (append data st disk).
Proof. intros Hw Hn. unfold write. rewrite Hw. cbn [negb]. now rewrite Hn. Qed.

(** C5, the input on which the code leaves the claim: with
    [maxFileSize = 10] and [maxFiles = 5], the write of ["0123456789"]
    into a new engine fills the file, and the write of ["b"] rotates before
    it writes: the counter restarts and ["b"] lands in a new [proxy.log],
    but the old content is in [proxy.log.2] and there is no [proxy.log.1].
    This holds for every engine that keeps two files or more: a rotation
    leaves the file numbered 1 as it was and moves the current file to the
    file numbered 2. *)
Theorem rotation_skips_first_backup :
  (exists st disk,
     writeAll ["0123456789"; "b"] sampleEngine ∅ = Some (st, disk)
     /\ currentSize st = 1%N
     /\ disk !! "proxy.log" = Some "b"
     /\ disk !! "proxy.log.1" = None
     /\ disk !! "proxy.log.2" = Some "0123456789")
  /\ (forall (st : State) (disk : Disk) (content : string),
        2 <= maxFiles (config st) ->
        disk !! logPath st = Some content ->
        exists st' disk',
          rotate st disk = Some (st', disk')
          /\ disk' !! numbered (logPath st) 1 = disk !! numbered (logPath st) 1
          /\ disk' !! numbered (logPath st) 2 = Some content
          /\ disk' !! logPath st = Some ""
          /\ currentSize st' = 0%N).
Proof.
  split.
  { eexists _, _. split; [vm_compute; reflexivity|]. vm_compute. repeat split. }
  intros st disk content Hm Hc. rewrite rotate_result by exact Hm.
  eexists _, _. split; [reflexivity|]. unfold openTruncate.
  rewrite !lookup_insert_ne by apply not_eq_sym, numbered_not_base.
  rewrite lookup_insert_eq. unfold rotateFiles.
  destruct (maxFiles (config st)) as [|[|m]] eqn:M; try lia.
  replace (S (S m) - 1) with (S m) by lia.
  split; [|split; [|split; reflexivity]].
  - rewrite shiftFiles_first. unfold unlink. apply lookup_delete_ne.
    intros H. apply numbered_inj in H. lia.
  - apply shiftFiles_current. unfold unlink. rewrite lookup_delete_ne; [exact Hc|].
    apply numbered_not_base.
Qed.

Lemma rotation_skips_first_backup_witness :
  exists st' disk',
    rotate sampleEngine {[ "proxy.log" := "0123456789" ]} = Some (st', disk')
    /\ disk' !! numbered "proxy.log" 1
       = ({[ "proxy.log" := "0123456789" ]} : gmap string string)
           !! numbered "proxy.log" 1
    /\ disk' !! numbered "proxy.log" 2 = Some "0123456789".
Proof.
  pose proof (proj2 rotation_skips_first_backup sampleEngine
                {[ "proxy.log" := "0123456789" ]} "0123456789")
    as H.
  assert (2 <= maxFiles (config sampleEngine)) as Hm by (vm_compute; lia).
  assert (({[ "proxy.log" := "0123456789" ]} : gmap string string)
            !! logPath sampleEngine = Some "0123456789") as Hc
    by (vm_compute; reflexivity).
  destruct (H Hm Hc) as (st' & disk' & H0 & H1 & H2 & _).
  exists st', disk'. split; [exact H0 | split; [exact H1 | exact H2]].
Defined.

End Rotation.

(** ** More on route resolution *)

Section ResolverMore.

Import Resolver.

(** A route key is read back as it is written: a key without a colon is a
    domain with no path; [domain:path] gives the domain and the path; what
    follows a second colon is dropped. *)
Theorem splitKey_reads_key (d p : string) :
  JS.includes d ":"%char = false ->
  JS.includes p ":"%char = false ->
  splitKey d = (d, None)
  /\ splitKey (d ++ ":" ++ p) = (d, Some p)
  /\ forall rest, splitKey (d ++ ":" ++ p ++ ":" ++ rest) = (d, Some p).
Proof.
  intros Hd Hp. split; [|split].
  - unfold splitKey. now rewrite Hd.
  - now apply splitKey_domain_path.
  - intros rest. now apply splitKey_domain_path_more.
Qed.

Lemma splitKey_reads_key_witness :
  splitKey "api.local" = ("api.local", None)
  /\ splitKey ("api.local" ++ ":" ++ "/v1") = ("api.local", Some "/v1")
  /\ forall rest,
       splitKey ("api.local" ++ ":" ++ "/v1" ++ ":" ++ rest)
       = ("api.local", Some "/v1").
Proof. exact (splitKey_reads_key "api.local" "/v1" eq_refl eq_refl). Defined.

Lemma startsWith_head_differs (a b : ascii) (u p : string) :
  a <> b -> JS.startsWith (String a u) (String b p) = false.
Proof.
  intros H. simpl. destruct (Ascii.eqb a b) eqn:E; [|reflexivity].
  apply Ascii.eqb_eq in E. congruence.
Qed.

(** A key written as [host:port] never matches a request whose path starts
    with a slash: the port is read as the path of the key. *)
Theorem key_with_port_never_matches (d port url domain : string)
    (r : RouteConfig) :
  JS.includes d ":"%char = false ->
  JS.includes port ":"%char = false ->
  port <> "" ->
  JS.startsWith port "/" = false ->
  JS.startsWith url "/" = true ->
  examine domain (Some url) (d ++ ":" ++ port, r) = None.
Proof.
  intros Hd Hp Hne Hslash Hurl. unfold examine, pathToMatch.
  rewrite (splitKey_domain_path d port Hd Hp). cbn [fst snd].
  destruct (matchDomain d domain) as [[|] n]; [|reflexivity]. cbn [negb].
  unfold JS.or. apply truthy_Some in Hne as Ht. rewrite Ht.
  assert (url <> "") as Hu by (destruct url; [discriminate | congruence]).
  apply truthy_Some in Hu. rewrite Hu. cbn [andb].
  destruct port as [|b port]; [congruence|].
  destruct url as [|a url]; [discriminate|].
  simpl in Hslash, Hurl.
  destruct (Ascii.eqb a "/") eqn:Ea; [|discriminate].
  destruct (Ascii.eqb b "/") eqn:Eb.
  - apply Ascii.eqb_eq in Eb. subst b. simpl in Hslash. discriminate.
  - apply Ascii.eqb_eq in Ea. subst a. apply Ascii.eqb_neq in Eb.
    rewrite startsWith_head_differs by congruence. reflexivity.
Qed.

Lemma key_with_port_never_matches_witness :
  examine "localhost" (Some "/users") ("localhost" ++ ":" ++ "3000",
                                       plainRoute "http://127.0.0.1:3000")
  = None.
Proof.
  apply key_with_port_never_matches;
    [reflexivity | reflexivity | discriminate | reflexivity | reflexivity].
Defined.


Lemma collect_app (domain : string) (url : option string)
    (l1 l2 : RouteTable) :
  collect domain url (l1 ++ l2)%list
  = (collect domain url l1 ++ collect domain url l2)%list.
Proof.
  induction l1 as [|e l1 IH]; simpl; [reflexivity|].
  destruct (examine domain url e); simpl; now rewrite IH.
Qed.

(** A split of the candidates comes from a split of the table. *)
Lemma collect_split (domain : string) (url : option string)
    (routes : RouteTable) (cb ca : list Candidate) (b : Candidate) :
  collect domain url routes = (cb ++ b :: ca)%list ->
  exists rb e ra,
    routes = (rb ++ e :: ra)%list
    /\ collect domain url rb = cb
    /\ examine domain url e = Some b
    /\ collect domain url ra = ca.
Proof.
  revert cb. induction routes as [|e routes IH]; intros cb H; simpl in H.
  - destruct cb; discriminate.
  - destruct (examine domain url e) as [c|] eqn:E.
    + destruct cb as [|c' cb]; simpl in H.
      * injection H as -> <-. exists [], e, routes. now repeat split.
      * injection H as -> H. destruct (IH cb H) as (rb & e' & ra & -> & <- & He & <-).
        exists (e :: rb), e', ra. simpl. rewrite E. now repeat split.
    + destruct (IH cb H) as (rb & e' & ra & -> & <- & He & <-).
      exists (e :: rb), e', ra. simpl. rewrite E. now repeat split.
Qed.

(** Ties are broken by the order of the table: the entry that [findRoute]
    answers scores strictly more than every candidate before it and at
    least as much as every candidate after it. *)
Theorem findRoute_first_among_ties (routes : RouteTable) (domain : string)
    (url : option string) (r : RouteConfig) :
  findRoute routes domain url = Some r ->
  exists before key after t p,
    routes = (before ++ (key, r) :: after)%list
    /\ Candidacy domain url key r t p
    /\ (forall key' r' t' p', In (key', r') before ->
          Candidacy domain url key' r' t' p' ->
          scoreOf t' p' < scoreOf t p)
    /\ (forall key' r' t' p', In (key', r') after ->
          Candidacy domain url key' r' t' p' ->
          scoreOf t' p' <= scoreOf t p).
Proof.
  unfold findRoute. destruct (collect domain url routes) as [|c l] eqn:C;
    [discriminate|].
  destruct (sortDesc (c :: l)) as [|b rest] eqn:S; [discriminate|].
  intros [= <-].
  destruct (sortDesc_first_of_ties _ _ _ S) as (cb & ca & Hl & Hb & Ha).
  rewrite <- C in Hl.
  destruct (collect_split _ _ _ _ _ _ Hl) as (rb & [key r] & ra & -> & Hcb & He & Hca).
  apply examine_candidacy in He as [Hr (t & p & Hm & Hs)]. subst r.
  exists rb, key, ra, t, p. split; [reflexivity|]. split; [exact Hm|]. split.
  - intros key' r' t' p' Hin Hm'. rewrite <- Hs.
    apply (Hb (mkCandidate r' (scoreOf t' p'))).
    rewrite <- Hcb. now apply (Candidacy_collect _ _ _ key').
  - intros key' r' t' p' Hin Hm'. rewrite <- Hs.
    apply (Ha (mkCandidate r' (scoreOf t' p'))).
    rewrite <- Hca. now apply (Candidacy_collect _ _ _ key').
Qed.

Lemma findRoute_first_among_ties_witness :
  exists before key after t p,
    [ ("api.local", plainRoute "first"); ("api.local:", plainRoute "second") ]
    = (before ++ (key, plainRoute "first") :: after)%list
    /\ Candidacy "api.local" (Some "/") key (plainRoute "first") t p
    /\ (forall key' r' t' p', In (key', r') before ->
          Candidacy "api.local" (Some "/") key' r' t' p' ->
          scoreOf t' p' < scoreOf t p)
    /\ (forall key' r' t' p', In (key', r') after ->
          Candidacy "api.local" (Some "/") key' r' t' p' ->
          scoreOf t' p' <= scoreOf t p).
Proof.
  apply (findRoute_first_among_ties
           [ ("api.local", plainRoute "first");
             ("api.local:", plainRoute "second") ]
           "api.local" (Some "/") (plainRoute "first")).
  reflexivity.
Defined.

Lemma examine_mapped (f : RouteConfig -> RouteConfig) (domain : string)
    (url : option string) (key : string) (r : RouteConfig) :
  (forall r0, path (f r0) = path r0) ->
  examine domain url (key, f r)
  = option_map (mapCandidate f) (examine domain url (key, r)).
Proof.
  intros Hf. unfold examine, pathToMatch. rewrite Hf.
  destruct (matchDomain (fst (splitKey key)) domain) as [[|] n]; [|reflexivity].
  cbn [negb].
  destruct (JS.truthy (JS.or (snd (splitKey key)) (path r)) && JS.truthy url).
  - destruct (JS.or (snd (splitKey key)) (path r)) as [p|]; [|reflexivity].
    destruct url as [u|]; [|reflexivity].
    now destruct (JS.startsWith u p).
  - now destruct (negb (JS.truthy (JS.or (snd (splitKey key)) (path r)))).
Qed.

Lemma collect_mapped (f : RouteConfig -> RouteConfig) (domain : string)
    (url : option string) (routes : RouteTable) :
  (forall r0, path (f r0) = path r0) ->
  collect domain url (mapRoutes f routes)
  = map (mapCandidate f) (collect domain url routes).
Proof.
  intros Hf. induction routes as [|[key r] routes IH]; [reflexivity|].
  cbn [mapRoutes map collect fst snd]. rewrite examine_mapped by exact Hf.
  fold (mapRoutes f routes). rewrite IH.
  now destruct (examine domain url (key, r)).
Qed.

Lemma insertDesc_mapped (f : RouteConfig -> RouteConfig) (c : Candidate)
    (l : list Candidate) :
  insertDesc (mapCandidate f c) (map (mapCandidate f) l)
  = map (mapCandidate f) (insertDesc c l).
Proof.
  induction l as [|d l IH]; [reflexivity|]. cbn [map insertDesc].
  change (score (mapCandidate f c)) with (score c).
  change (score (mapCandidate f d)) with (score d).
  destruct (score c <? score d)%nat; cbn [map]; [now rewrite IH | reflexivity].
Qed.

Lemma sortDesc_mapped (f : RouteConfig -> RouteConfig) (l : list Candidate) :
  sortDesc (map (mapCandidate f) l) = map (mapCandidate f) (sortDesc l).
Proof.
  induction l as [|c l IH]; [reflexivity|]. cbn [map sortDesc].
  now rewrite IH, insertDesc_mapped.
Qed.

(** Resolution reads the key and the [path] field only: a change of the
    other fields of the routes ([enabled], [target], the logging flags)
    changes no choice, it only shows in the route that is answered. *)
Theorem findRoute_reads_key_and_path (f : RouteConfig -> RouteConfig)
    (routes : RouteTable) (domain : string) (url : option string) :
  (forall r, path (f r) = path r) ->
  findRoute (mapRoutes f routes) domain url
  = option_map f (findRoute routes domain url).
Proof.
  intros Hf. unfold findRoute. rewrite collect_mapped by exact Hf.
  destruct (collect domain url routes) as [|c l] eqn:C; [reflexivity|].
  cbn [map]. change (mapCandidate f c :: map (mapCandidate f) l)
    with (map (mapCandidate f) (c :: l)).
  rewrite sortDesc_mapped.
  now destruct (sortDesc (c :: l)).
Qed.

Lemma findRoute_reads_key_and_path_witness :
  findRoute (mapRoutes (setEnabled (Some false)) (devRoutesEnabled "T1" "T2"))
            "x.dev.local" (Some "/api/users")
  = option_map (setEnabled (Some false))
      (findRoute (devRoutesEnabled "T1" "T2") "x.dev.local" (Some "/api/users")).
Proof.
  apply findRoute_reads_key_and_path. reflexivity.
Defined.

End ResolverMore.

(** ** More on the pipeline *)

Section PipelineMore.

Import ProxyServer.

Lemma split_head_no_separator (c : ascii) (s : string) :
  JS.includes (nth 0 (JS.split c s) "") c = false.
Proof.
  induction s as [|a s IH]; simpl; [reflexivity|].
  destruct (Ascii.eqb a c) eqn:E; [reflexivity|].
  destruct (JS.split c s) as [|piece pieces]; simpl in *; now rewrite E.
Qed.

Lemma split_head_whole (c : ascii) (s : string) :
  JS.includes s c = false -> nth 0 (JS.split c s) "" = s.
Proof. intros H. now rewrite split_no_separator. Qed.

(** The domain a request is routed by never holds a colon; it is the
    [Host] header itself when that holds none, and [unknown] without a
    header.  The trace of the request records the same domain. *)
Theorem extractDomain_strips_port (req : TraceManager.Request) :
  JS.includes (extractDomain req) ":"%char = false
  /\ (forall host,
        TraceManager.header (TraceManager.reqHeaders req) "host"
        = Some (TraceManager.Single host) ->
        host <> "" -> JS.includes host ":"%char = false ->
        extractDomain req = host)
  /\ (forall host port,
        TraceManager.header (TraceManager.reqHeaders req) "host"
        = Some (TraceManager.Single (host ++ ":" ++ port)) ->
        JS.includes host ":"%char = false ->
        extractDomain req = host)
  /\ (TraceManager.header (TraceManager.reqHeaders req) "host" = None ->
      extractDomain req = "unknown")
  /\ (forall now fresh body st,
        TraceManager.domain
          (fst (TraceManager.startTrace now fresh req body st))
        = extractDomain req).
Proof.
  unfold extractDomain. split; [|split; [|split; [|split]]].
  - destruct (TraceManager.header _ _) as [[host|vs]|]; try reflexivity.
    destruct (String.eqb host ""); [reflexivity|].
    apply split_head_no_separator.
  - intros host -> Hne Hc. apply String.eqb_neq in Hne. rewrite Hne.
    now apply split_head_whole.
  - intros host port -> Hc.
    change (host ++ ":" ++ port) with (host ++ String ":"%char port).
    destruct (String.eqb (host ++ String ":"%char port) "") eqn:E.
    + apply String.eqb_eq in E. destruct host; discriminate.
    + now rewrite split_at_separator.
  - now intros ->.
  - intros now fresh body st. cbn [TraceManager.startTrace fst TraceManager.domain].
    unfold TraceManager.hostOf.
    destruct (TraceManager.header _ _) as [[host|vs]|]; try reflexivity.
    now destruct (String.eqb host "").
Qed.

Lemma extractDomain_strips_port_witness :
  extractDomain (getRequest "api.local:8080" "/users") = "api.local".
Proof.
  exact (proj1 (proj2 (proj2 (extractDomain_strips_port
                                (getRequest "api.local:8080" "/users"))))
               "api.local" "8080" eq_refl eq_refl).
Defined.

Lemma findRoute_None_no_match (routes : RouteTable) (domain : string)
    (url : option string) :
  Resolver.findRoute routes domain url = None
  <-> forall key r t p,
        In (key, r) routes -> ~ Candidacy domain url key r t p.
Proof.
  rewrite findRoute_None. split.
  - intros Hnil key r t p Hin Hm.
    pose proof (Candidacy_collect _ _ _ _ _ _ _ Hin Hm) as Hc.
    rewrite Hnil in Hc. destruct Hc.
  - intros Hno.
    destruct (Resolver.collect domain url routes) as [|c l] eqn:C;
      [reflexivity|].
    destruct (collect_Candidacy routes domain url c)
      as (key & t & p & Hin & Hm & _); [rewrite C; now left|].
    destruct (Hno _ _ _ _ Hin Hm).
Qed.


Lemma handleRequest_status (newURL : UrlParser) (cfg : ProxyConfig)
    (traceId : string) (req : TraceManager.Request) (status : nat) :
  In (WriteHead status jsonHeaders) (handleRequest newURL cfg traceId req)
  <-> match Resolver.findRoute (routes cfg) (extractDomain req)
              (TraceManager.reqUrl req) with
      | None => status = 404
      | Some r =>
          (enabled r <> Some true /\ status = 503)
          \/ (enabled r = Some true /\ newURL (target r) <> None
              /\ status = 500)
      end.
Proof.
  destruct (Resolver.findRoute (routes cfg) (extractDomain req)
              (TraceManager.reqUrl req)) as [r|] eqn:F.
  - destruct (enabled r) as [[|]|] eqn:En.
    + destruct (handleRequest_enabled newURL cfg traceId req r F En)
        as (logs & Hlogs & _ & ->).
      destruct (logs_only logs Hlogs) as (_ & _ & Hl).
      split.
      * intros Hin. right. split; [reflexivity|].
        apply in_app_or in Hin as [Hin|Hin];
          [apply Hl in Hin; discriminate|].
        destruct (newURL (target r)) as [e|].
        -- split; [discriminate|]. simpl in Hin.
           destruct Hin as [H|[H|[H|[H|[H|[]]]]]]; try discriminate.
           now injection H as <-.
        -- simpl in Hin. intuition discriminate.
      * intros [[H _]|(_ & U & ->)]; [congruence|].
        apply in_or_app. right.
        destruct (newURL (target r)) as [e|]; [|congruence].
        simpl. tauto.
    + unfold handleRequest. rewrite F, En. cbn [JS.truthyBool negb].
      simpl. split.
      * intros [H|[H|[H|[H|[]]]]]; try discriminate.
        injection H as <-. left. split; [discriminate | reflexivity].
      * intros [[_ ->]|[H _]]; [tauto | discriminate].
    + unfold handleRequest. rewrite F, En. cbn [JS.truthyBool negb].
      simpl. split.
      * intros [H|[H|[H|[H|[]]]]]; try discriminate.
        injection H as <-. left. split; [discriminate | reflexivity].
      * intros [[_ ->]|[H _]]; [tauto | discriminate].
  - unfold handleRequest. rewrite F. simpl. split.
    + intros [H|[H|[H|[H|[]]]]]; try discriminate. now injection H as <-.
    + intros ->. tauto.
Qed.

(** A request gets the 404 answer exactly when no entry of the table is a
    candidate for it; the body then lists every key of the table, in order,
    and nothing is handed to the proxy. *)
Theorem not_found_lists_routes (newURL : UrlParser) (cfg : ProxyConfig)
    (traceId : string) (req : TraceManager.Request) :
  ((forall key r t p, In (key, r) (routes cfg) ->
      ~ Candidacy (extractDomain req) (TraceManager.reqUrl req) key r t p)
   -> handleRequest newURL cfg traceId req
      = [ FinishTrace traceId 404 (Some "No route configured");
          Log LWarn ("No route found: " ++ methodOf req ++ " "
                     ++ default "undefined" (TraceManager.reqUrl req))
              traceId (Some (extractDomain req)) None;
          WriteHead 404 jsonHeaders;
          EndResponse
            (JObj [ ("error", JStr "No route configured");
                    ("domain", JStr (extractDomain req));
                    ("traceId", JStr traceId);
                    ("availableRoutes",
                     JArr (map (fun e => JStr (fst e)) (routes cfg))) ]) ])
  /\ (In (WriteHead 404 jsonHeaders) (handleRequest newURL cfg traceId req)
      <-> forall key r t p, In (key, r) (routes cfg) ->
            ~ Candidacy (extractDomain req) (TraceManager.reqUrl req)
                key r t p).
Proof.
  pose proof (findRoute_None_no_match (routes cfg) (extractDomain req)
                (TraceManager.reqUrl req)) as Hnone.
  rewrite handleRequest_status. unfold handleRequest.
  destruct (Resolver.findRoute (routes cfg) (extractDomain req)
              (TraceManager.reqUrl req)) as [r|] eqn:F.
  - assert (~ (forall key r t p, In (key, r) (routes cfg) ->
                 ~ Candidacy (extractDomain req) (TraceManager.reqUrl req)
                     key r t p))
      as Hsome by (intros H; apply Hnone in H; discriminate).
    split; [intros H; contradiction|].
    split; [|intros H; contradiction].
    intros [[_ ?]|(_ & _ & ?)]; discriminate.
  - split; [reflexivity|]. split; [intros _; now apply Hnone | reflexivity].
Qed.

Lemma not_found_lists_routes_witness :
  handleRequest sampleParser
                (quietConfig [("api.local", withEnabled (plainRoute "T"))])
                "t-1" (getRequest "other.local" "/")
  = [ FinishTrace "t-1" 404 (Some "No route configured");
      Log LWarn "No route found: GET /" "t-1" (Some "other.local") None;
      WriteHead 404 jsonHeaders;
      EndResponse
        (JObj [ ("error", JStr "No route configured");
                ("domain", JStr "other.local");
                ("traceId", JStr "t-1");
                ("availableRoutes", JArr [ JStr "api.local" ]) ]) ].
Proof.
  apply (proj1 (not_found_lists_routes sampleParser
                  (quietConfig [("api.local", withEnabled (plainRoute "T"))])
                  "t-1" (getRequest "other.local" "/"))).
  intros key r t p [[= <- <-]|[]] Hc.
  inversion Hc as [key0 r0 d kp t0 Hread Hdom Hadm]; subst.
  apply KeyReads_splitKey in Hread. vm_compute in Hread.
  injection Hread as <- _.
  destruct t; [discriminate|].
  destruct Hdom as [_ (suffix & pre & Hs & _)]. discriminate.
Defined.

End PipelineMore.

(** ** Upgrades and reloads *)

Section UpgradeAndReload.

Import ProxyServer.



Lemma extractDomain_no_colon (req : TraceManager.Request) :
  JS.includes (extractDomain req) ":"%char = false.
Proof.
  unfold extractDomain.
  destruct (TraceManager.header _ _) as [[host|vs]|]; try reflexivity.
  destruct (String.eqb host ""); [reflexivity|].
  apply split_head_no_separator.
Qed.

Lemma updateDomainLogging_global (routes0 : RouteTable) (lg : Logger.State) :
  Logger.globalLevel (ConfigListeners.updateDomainLogging routes0 lg)
  = Logger.globalLevel lg
  /\ Logger.streamer (ConfigListeners.updateDomainLogging routes0 lg)
     = Logger.streamer lg.
Proof.
  unfold ConfigListeners.updateDomainLogging. revert lg.
  induction routes0 as [|[key r] routes0 IH]; intros lg; [now split|].
  cbn [fold_left fst snd]. destruct (IH
    (match logging r with
     | Some level => Logger.setDomainLevel key level lg
     | None => lg
     end)) as [-> ->].
  now destruct (logging r).
Qed.

(** The level of a domain after the update: the level of the last route
    with that key and a level, or the level it had. *)
Lemma updateDomainLogging_lookup (routes0 : RouteTable) (lg : Logger.State)
    (d : string) :
  (forall r, In (d, r) routes0 -> logging r = None) ->
  Logger.domainLevels (ConfigListeners.updateDomainLogging routes0 lg) !! d
  = Logger.domainLevels lg !! d.
Proof.
  unfold ConfigListeners.updateDomainLogging. revert lg.
  induction routes0 as [|[key r] routes0 IH]; intros lg H; [reflexivity|].
  cbn [fold_left fst snd]. rewrite IH by (intros r' Hin; apply H; now right).
  destruct (logging r) as [level|] eqn:L; [|reflexivity].
  cbn [Logger.setDomainLevel Logger.domainLevels].
  apply lookup_insert_ne. intros ->.
  specialize (H r (or_introl eq_refl)). congruence.
Qed.

Lemma updateDomainLogging_keeps (routes0 : RouteTable) (lg : Logger.State)
    (d : string) :
  is_Some (Logger.domainLevels lg !! d) ->
  is_Some (Logger.domainLevels
             (ConfigListeners.updateDomainLogging routes0 lg) !! d).
Proof.
  unfold ConfigListeners.updateDomainLogging. revert lg.
  induction routes0 as [|[key r] routes0 IH]; intros lg H; [exact H|].
  cbn [fold_left fst snd]. apply IH.
  destruct (logging r) as [level|]; [|exact H].
  cbn [Logger.setDomainLevel Logger.domainLevels].
  destruct (decide (key = d)) as [->|Hne].
  - rewrite lookup_insert_eq. eauto.
  - now rewrite lookup_insert_ne.
Qed.

(** A reload never takes a level away: a domain that had a level of its
    own keeps one, and keeps the very level it had when the new table has no
    route with a level under that key - also when the route, or its
    [logging] field, is gone from the table.  The global level and the
    streamer are as [setGlobalLevel] left them. *)
Theorem reload_never_forgets_levels (cfg : ProxyConfig) (lg : Logger.State)
    (d : string) :
  let lg' := ConfigListeners.onConfigLoaded cfg lg in
  (is_Some (Logger.domainLevels lg !! d) ->
   is_Some (Logger.domainLevels lg' !! d))
  /\ ((forall r, In (d, r) (routes cfg) -> logging r = None) ->
      Logger.domainLevels lg' !! d = Logger.domainLevels lg !! d)
  /\ Logger.globalLevel lg' = g_logging (global cfg)
  /\ Logger.streamer lg' = Logger.streamer lg.
Proof.
  unfold ConfigListeners.onConfigLoaded. cbn zeta. split; [|split; [|split]].
  - intros H. now apply updateDomainLogging_keeps.
  - intros H. now rewrite updateDomainLogging_lookup.
  - now rewrite (proj1 (updateDomainLogging_global _ _)).
  - now rewrite (proj2 (updateDomainLogging_global _ _)).
Qed.

Lemma reload_never_forgets_levels_witness :
  Logger.domainLevels
    (ConfigListeners.onConfigLoaded (quietConfig [])
       (Logger.setDomainLevel "api.local" LDebug (plainLogger LInfo)))
    !! "api.local"
  = Logger.domainLevels
      (Logger.setDomainLevel "api.local" LDebug (plainLogger LInfo))
      !! "api.local".
Proof.
  apply (proj1 (proj2 (reload_never_forgets_levels (quietConfig [])
           (Logger.setDomainLevel "api.local" LDebug (plainLogger LInfo))
           "api.local"))).
  intros r [].
Defined.

Lemma updateDomainLogging_sets (routes0 : RouteTable) (lg : Logger.State)
    (d : string) (r : RouteConfig) (level : LogLevel) :
  NoDup (map fst routes0) ->
  In (d, r) routes0 -> logging r = Some level ->
  Logger.domainLevels (ConfigListeners.updateDomainLogging routes0 lg) !! d
  = Some level.
Proof.
  revert lg. induction routes0 as [|[key r0] routes0 IH]; intros lg Hnd Hin Hl;
    [destruct Hin|].
  cbn [map fst] in Hnd. apply NoDup_cons in Hnd as [Hfresh Hnd].
  destruct Hin as [[= -> ->]|Hin].
  - change (ConfigListeners.updateDomainLogging ((d, r) :: routes0) lg)
      with (ConfigListeners.updateDomainLogging routes0
              (match logging r with
               | Some l => Logger.setDomainLevel d l lg
               | None => lg
               end)).
    rewrite updateDomainLogging_lookup.
    + rewrite Hl. apply lookup_insert_eq.
    + intros r' Hin'. exfalso. apply Hfresh.
      apply list_elem_of_In. apply (in_map fst) in Hin'. exact Hin'.
  - change (ConfigListeners.updateDomainLogging ((key, r0) :: routes0) lg)
      with (ConfigListeners.updateDomainLogging routes0
              (match logging r0 with
               | Some l => Logger.setDomainLevel key l lg
               | None => lg
               end)).
    now apply IH.
Qed.

(** After a configuration is loaded, the lines of a request for domain [d]
    are filtered by the level of the route whose key is [d], when that
    route has one; the keys of a table are distinct. *)
Theorem route_level_applies_to_its_domain (cfg : ProxyConfig)
    (lg : Logger.State) (d : string) (r : RouteConfig) (level : LogLevel) :
  NoDup (map fst (routes cfg)) ->
  In (d, r) (routes cfg) -> logging r = Some level -> d <> "" ->
  Logger.targetLevel (ConfigListeners.onConfigLoaded cfg lg) (Some d) = level.
Proof.
  intros Hnd Hin Hl Hne. unfold Logger.targetLevel.
  apply truthy_Some in Hne. rewrite Hne.
  unfold ConfigListeners.onConfigLoaded.
  now rewrite (updateDomainLogging_sets _ _ d r level Hnd Hin Hl).
Qed.

Lemma route_level_applies_to_its_domain_witness :
  Logger.targetLevel
    (ConfigListeners.onConfigLoaded
       (quietConfig [("api.local", leveledRoute "T" LDebug)])
       (plainLogger LWarn))
    (Some "api.local")
  = LDebug.
Proof.
  apply (route_level_applies_to_its_domain
           (quietConfig [("api.local", leveledRoute "T" LDebug)])
           (plainLogger LWarn) "api.local" (leveledRoute "T" LDebug) LDebug).
  - apply NoDup_cons. split; [intros H; inversion H | apply NoDup_nil_2].
  - now left.
  - reflexivity.
  - discriminate.
Defined.

Lemma updateDomainLogging_app (l1 l2 : RouteTable) (lg : Logger.State) :
  ConfigListeners.updateDomainLogging (l1 ++ l2)%list lg
  = ConfigListeners.updateDomainLogging l2
      (ConfigListeners.updateDomainLogging l1 lg).
Proof. unfold ConfigListeners.updateDomainLogging. apply fold_left_app. Qed.

(** The level of a domain after the update depends on the level it had
    only. *)
Lemma updateDomainLogging_congr (routes0 : RouteTable) (lgA lgB : Logger.State)
    (d : string) :
  Logger.domainLevels lgA !! d = Logger.domainLevels lgB !! d ->
  Logger.domainLevels (ConfigListeners.updateDomainLogging routes0 lgA) !! d
  = Logger.domainLevels (ConfigListeners.updateDomainLogging routes0 lgB) !! d.
Proof.
  unfold ConfigListeners.updateDomainLogging. revert lgA lgB.
  induction routes0 as [|[key r] routes0 IH]; intros lgA lgB H; [exact H|].
  cbn [fold_left fst snd]. apply IH.
  destruct (logging r) as [level|]; [|exact H].
  cbn [Logger.setDomainLevel Logger.domainLevels].
  destruct (decide (key = d)) as [->|Hne].
  - now rewrite !lookup_insert_eq.
  - now rewrite !lookup_insert_ne.
Qed.

(** A level written on a route whose key has a path ([domain:path]) never
    reaches a request: the level is stored under the whole key, and the
    domain a request is logged under holds no colon.  Whatever the other
    routes of the table are, every request is filtered as it is with the
    table without that route. *)
Theorem path_route_level_never_applies (before after : RouteTable)
    (d p : string) (r : RouteConfig) (g : GlobalConfig) (lg : Logger.State)
    (req : TraceManager.Request) :
  let loaded :=
    ConfigListeners.onConfigLoaded
      (mkConfig (before ++ ((d ++ ":" ++ p)%string, r) :: after)%list g)
      lg in
  let without :=
    ConfigListeners.onConfigLoaded (mkConfig (before ++ after)%list g) lg in
  Logger.targetLevel loaded (Some (extractDomain req))
  = Logger.targetLevel without (Some (extractDomain req))
  /\ (forall level,
        Logger.shouldLog loaded level (Some (extractDomain req))
        = Logger.shouldLog without level (Some (extractDomain req)))
  /\ Logger.targetLevel
       (ConfigListeners.onConfigLoaded
          (quietConfig [ ("api.local", leveledRoute "T" LWarn);
                         ("api.local:/v1", leveledRoute "T" LDebug) ])
          (plainLogger LInfo))
       (Some (extractDomain (getRequest "api.local" "/v1/users")))
     = LWarn.
Proof.
  intros loaded without.
  assert (Logger.targetLevel loaded (Some (extractDomain req))
          = Logger.targetLevel without (Some (extractDomain req))) as Heq.
  { unfold loaded, without, ConfigListeners.onConfigLoaded, Logger.targetLevel.
    cbn [routes global].
    rewrite !(proj1 (updateDomainLogging_global _ _)).
    rewrite !updateDomainLogging_app.
    change (ConfigListeners.updateDomainLogging ((d ++ ":" ++ p, r) :: after))
      with (fun lg0 =>
              ConfigListeners.updateDomainLogging after
                (match logging r with
                 | Some level => Logger.setDomainLevel (d ++ ":" ++ p) level lg0
                 | None => lg0
                 end)).
    cbv beta.
    rewrite (updateDomainLogging_congr after _
               (ConfigListeners.updateDomainLogging before
                  (Logger.setGlobalLevel (g_logging g) lg))
               (extractDomain req)); [reflexivity|].
    destruct (logging r) as [level|]; [|reflexivity].
    cbn [Logger.setDomainLevel Logger.domainLevels].
    apply lookup_insert_ne. intros E.
    pose proof (extractDomain_no_colon req) as Hc. rewrite <- E in Hc.
    change (":" ++ p) with (String ":"%char p) in Hc.
    rewrite includes_separator in Hc. discriminate. }
  split; [exact Heq|]. split; [|reflexivity].
  intros level. unfold Logger.shouldLog. now rewrite Heq.
Qed.

End UpgradeAndReload.

(** ** More on traces *)

Section TraceMore.

Import TraceManager.

Lemma extractFrom_skips (names : list string) (name : string)
    (hs : IncomingHeaders) (fresh : string) :
  headerTruthy (header hs name) = false ->
  extractFrom (name :: names) hs fresh = extractFrom names hs fresh.
Proof. intros H. simpl. now rewrite H. Qed.

(** The trace id of a request: the [x-trace-id] header when it has one;
    with none of the first three headers, the second dash-separated part of
    [traceparent]; and a new id when none of the five headers is there. *)
Theorem extractTraceId_priority (req : Request) (fresh : string) :
  (forall v, header (reqHeaders req) "x-trace-id" = Some (Single v) ->
     v <> "" -> extractTraceId req fresh = Some v)
  /\ (forall version traceId rest,
        headerTruthy (header (reqHeaders req) "x-trace-id") = false ->
        headerTruthy (header (reqHeaders req) "x-request-id") = false ->
        headerTruthy (header (reqHeaders req) "x-correlation-id") = false ->
        header (reqHeaders req) "traceparent"
        = Some (Single (version ++ "-" ++ traceId ++ "-" ++ rest)) ->
        JS.includes version "-"%char = false ->
        JS.includes traceId "-"%char = false ->
        extractTraceId req fresh = Some traceId)
  /\ ((forall name, In name traceHeaders ->
         headerTruthy (header (reqHeaders req) name) = false) ->
      extractTraceId req fresh = Some fresh).
Proof.
  unfold extractTraceId, traceHeaders. split; [|split].
  - intros v Hh Hne. simpl. rewrite Hh. simpl.
    apply String.eqb_neq in Hne. now rewrite Hne.
  - intros version traceId rest H1 H2 H3 Hh Hv Ht.
    rewrite !extractFrom_skips by assumption.
    simpl. rewrite Hh. simpl.
    change (version ++ "-" ++ traceId ++ "-" ++ rest)
      with (version ++ String "-"%char (traceId ++ String "-"%char rest)).
    destruct (String.eqb (version ++ String "-"%char
                            (traceId ++ String "-"%char rest)) "") eqn:E.
    + apply String.eqb_eq in E. destruct version; discriminate.
    + simpl. rewrite !split_at_separator by assumption.
      destruct (JS.split "-" rest); reflexivity.
  - intros H. rewrite !extractFrom_skips; [reflexivity| | | | |];
      apply H; simpl; tauto.
Qed.

Lemma extractTraceId_priority_witness :
  extractTraceId
    (mkRequest [ ("traceparent",
                  Single ("00" ++ "-" ++ "4bf92f3577b34da6" ++ "-"
                          ++ "00f067aa0ba902b7-01")) ]
               (Some "/") (Some "GET"))
    "fresh"
  = Some "4bf92f3577b34da6".
Proof.
  apply (proj1 (proj2 (extractTraceId_priority
           (mkRequest [ ("traceparent",
                         Single ("00" ++ "-" ++ "4bf92f3577b34da6" ++ "-"
                                 ++ "00f067aa0ba902b7-01")) ]
                      (Some "/") (Some "GET"))
           "fresh")) "00" "4bf92f3577b34da6" "00f067aa0ba902b7-01");
    reflexivity.
Defined.








Lemma truthyHeaders_all (hs : IncomingHeaders) :
  (forall key raw, In (key, raw) hs -> headerTruthy (Some raw) = true) ->
  truthyHeaders hs = hs.
Proof.
  unfold truthyHeaders. induction hs as [|[k v] hs IH]; intros H;
    [reflexivity|].
  cbn [List.filter snd]. rewrite (H k v (or_introl eq_refl)). f_equal.
  apply IH. intros key raw Hin. apply (H key raw). now right.
Qed.

(** The two sanitizers give the same result for headers that all have a
    truthy value; in general the one of the trace manager is the one of the
    body capture on the headers with a truthy value. *)
Theorem sanitizers_agree (hs : IncomingHeaders) :
  sanitizeHeaders hs = BodyCapture.sanitizeHeaders (truthyHeaders hs)
  /\ ((forall key raw, In (key, raw) hs -> headerTruthy (Some raw) = true) ->
      sanitizeHeaders hs = BodyCapture.sanitizeHeaders hs)
  /\ length (BodyCapture.sanitizeHeaders hs) = length hs.
Proof.
  assert (sanitizeHeaders hs = BodyCapture.sanitizeHeaders (truthyHeaders hs))
    as Hfiltered.
  { induction hs as [|[k v] hs IH]; [reflexivity|].
    unfold truthyHeaders in *. cbn [sanitizeHeaders List.filter snd].
    destruct (headerTruthy (Some v)); [|exact IH].
    cbn [BodyCapture.sanitizeHeaders]. now rewrite IH. }
  split; [exact Hfiltered|]. split.
  - intros H. rewrite Hfiltered. rewrite truthyHeaders_all by exact H.
    reflexivity.
  - clear Hfiltered. induction hs as [|[k v] hs IH]; [reflexivity|].
    cbn [BodyCapture.sanitizeHeaders length]. now rewrite IH.
Qed.

Lemma sanitizers_agree_witness :
  sanitizeHeaders [ ("Set-Cookie", Multi ["a=1"; "b=2"]);
                    ("Content-Type", Single "text/plain") ]
  = BodyCapture.sanitizeHeaders [ ("Set-Cookie", Multi ["a=1"; "b=2"]);
                                  ("Content-Type", Single "text/plain") ].
Proof.
  apply (proj1 (proj2 (sanitizers_agree
           [ ("Set-Cookie", Multi ["a=1"; "b=2"]);
             ("Content-Type", Single "text/plain") ]))).
  intros key raw [[= <- <-]|[[= <- <-]|[]]]; reflexivity.
Defined.


Lemma fireTimers_evicts (now due : Z) (traceId : string)
    (pending : list (Z * string)) (m : gmap string RequestTrace) :
  In (due, traceId) pending -> (due <= now)%Z ->
  fst (fireTimers now pending m) !! traceId = None.
Proof.
  revert m. induction pending as [|[due' id'] pending IH]; intros m Hin Hdue;
    [destruct Hin|].
  cbn [fireTimers]. destruct (due' <=? now)%Z eqn:E.
  - destruct Hin as [[= -> ->]|Hin]; [|now apply IH].
    clear IH. revert m.
    assert (forall m', m' !! traceId = None ->
              fst (fireTimers now pending m') !! traceId = None) as Hgone.
    { induction pending as [|[d i] pending IHp]; intros m' Hm'; [exact Hm'|].
      cbn [fireTimers]. destruct (d <=? now)%Z.
      - apply IHp. destruct (decide (i = traceId)) as [->|Hne].
        + apply lookup_delete_eq.
        + now rewrite lookup_delete_ne.
      - specialize (IHp m' Hm').
        destruct (fireTimers now pending m') as [m'' rest]. exact IHp. }
    intros m. apply Hgone. apply lookup_delete_eq.
  - destruct Hin as [[= -> ->]|Hin]; [apply Z.leb_gt in E; lia|].
    specialize (IH m Hin Hdue).
    destruct (fireTimers now pending m) as [m' rest]. exact IH.
Qed.

Lemma fireTimers_keeps (now : Z) (traceId : string)
    (pending : list (Z * string)) (m : gmap string RequestTrace) :
  (forall due, In (due, traceId) pending -> (now < due)%Z) ->
  fst (fireTimers now pending m) !! traceId = m !! traceId.
Proof.
  revert m. induction pending as [|[due' id'] pending IH]; intros m H;
    [reflexivity|].
  cbn [fireTimers].
  assert (forall due, In (due, traceId) pending -> (now < due)%Z) as H'
    by (intros due Hin; apply H; now right).
  destruct (due' <=? now)%Z eqn:E.
  - rewrite IH by exact H'. apply lookup_delete_ne. intros ->.
    apply Z.leb_le in E. specialize (H due' (or_introl eq_refl)). lia.
  - specialize (IH m H'). destruct (fireTimers now pending m) as [m' rest].
    exact IH.
Qed.

(** A trace finished at time [now], with no eviction pending for its id, is
    there at every time before [now + 60000] and gone from that time on;
    after that, to finish it again answers nothing and changes nothing. *)
Theorem trace_retained_for_a_minute (now t : Z) (traceId : string)
    (st : State) (trace : RequestTrace) (status : nat)
    (err : option string) (respHeaders : option Headers)
    (respBody : option string) :
  traces st !! traceId = Some trace ->
  (forall due, ~ In (due, traceId) (timers st)) ->
  let st' := snd (finishTrace now traceId status err respHeaders respBody st) in
  ((t < now + 60000)%Z ->
   getTrace traceId (runTimers t st') = getTrace traceId st'
   /\ is_Some (getTrace traceId st'))
  /\ ((now + 60000 <= t)%Z ->
      getTrace traceId (runTimers t st') = None
      /\ forall now' status' err' respHeaders' respBody',
           finishTrace now' traceId status' err' respHeaders' respBody'
                       (runTimers t st')
           = (None, runTimers t st')).
Proof.
  intros Ht Hfree st'.
  assert (timers st' = (timers st ++ [((now + 60000)%Z, traceId)])%list
          /\ is_Some (traces st' !! traceId)) as [Htimers Hthere].
  { unfold st', finishTrace. rewrite Ht. cbn [snd timers traces].
    split; [reflexivity|]. rewrite lookup_insert_eq. eauto. }
  assert (forall s, getTrace traceId (runTimers t s)
                    = fst (fireTimers t (timers s) (traces s)) !! traceId)
    as Hrun.
  { intros s. unfold runTimers, getTrace.
    now destruct (fireTimers t (timers s) (traces s)). }
  split.
  - intros Hlt. split; [|exact Hthere]. rewrite Hrun. unfold getTrace.
    apply fireTimers_keeps. intros due Hin. rewrite Htimers in Hin.
    apply in_app_or in Hin as [Hin|[[= <-]|[]]]; [destruct (Hfree _ Hin) | lia].
  - intros Hge.
    assert (getTrace traceId (runTimers t st') = None) as Hgone.
    { rewrite Hrun. apply (fireTimers_evicts t (now + 60000)%Z); [|exact Hge].
      rewrite Htimers. apply in_or_app. right. now left. }
    split; [exact Hgone|]. intros now' status' err' respHeaders' respBody'.
    unfold finishTrace. unfold getTrace in Hgone. now rewrite Hgone.
Qed.

Lemma trace_retained_for_a_minute_witness :
  getTrace "t-1"
    (runTimers 60010
       (snd (finishTrace 10 "t-1" 200 None None None startedAt0)))
  = None.
Proof.
  assert (forall due, ~ In (due, "t-1") (timers startedAt0)) as Hfree
    by (intros due []).
  assert (traces startedAt0 !! "t-1"
          = Some (mkTrace "t-1" 0 "GET" "/users"
                    [("host", "api.local:8080"); ("x-trace-id", "t-1")]
                    "api.local" None None None None None None None)) as Ht
    by (vm_compute; reflexivity).
  apply (proj2 (trace_retained_for_a_minute 10 60010 "t-1" startedAt0 _
                  200 None None None Ht Hfree)).
  vm_compute. discriminate.
Defined.

Lemma extractFrom_header_id (traceId fresh : string) :
  traceId <> "" ->
  extractTraceId (tracedRequest traceId) fresh = Some traceId.
Proof.
  intros Hne. unfold extractTraceId, traceHeaders, tracedRequest. simpl.
  apply String.eqb_neq in Hne. now rewrite Hne.
Qed.

(** The timer of a finished trace evicts whatever is stored under its id
    when it fires: a request that arrives later with the same [x-trace-id]
    loses its trace at [now + 60000] of the first one, however recent it
    is. *)
Theorem reused_id_evicted_early (now now2 t : Z) (traceId fresh : string)
    (st : State) (trace : RequestTrace) (status : nat)
    (body : option string) :
  traces st !! traceId = Some trace ->
  traceId <> "" ->
  (now + 60000 <= t)%Z ->
  let st1 := snd (finishTrace now traceId status None None None st) in
  let st2 := snd (startTrace now2 fresh (tracedRequest traceId) body st1) in
  is_Some (getTrace traceId st2)
  /\ getTrace traceId (runTimers t st2) = None.
Proof.
  intros Ht Hne Hge st1 st2.
  assert (timers st2 = (timers st ++ [((now + 60000)%Z, traceId)])%list
          /\ is_Some (traces st2 !! traceId)) as [Htimers Hthere].
  { unfold st2, st1, startTrace, finishTrace. rewrite Ht.
    cbn [snd timers traces]. rewrite (extractFrom_header_id _ _ Hne).
    cbn [default]. split; [reflexivity|]. rewrite lookup_insert_eq. eauto. }
  split; [exact Hthere|].
  unfold runTimers, getTrace.
  pose proof (fireTimers_evicts t (now + 60000)%Z traceId (timers st2)
                (traces st2)) as He.
  destruct (fireTimers t (timers st2) (traces st2)) as [m rest].
  apply He; [|exact Hge]. rewrite Htimers. apply in_or_app. right. now left.
Qed.

Lemma reused_id_evicted_early_witness :
  is_Some (getTrace "t-1"
             (snd (startTrace 60000 "fresh" (tracedRequest "t-1") None
                     (snd (finishTrace 10 "t-1" 200 None None None
                             startedAt0)))))
  /\ getTrace "t-1"
       (runTimers 60010
          (snd (startTrace 60000 "fresh" (tracedRequest "t-1") None
                  (snd (finishTrace 10 "t-1" 200 None None None
                          startedAt0)))))
     = None.
Proof.
  assert (traces startedAt0 !! "t-1"
          = Some (mkTrace "t-1" 0 "GET" "/users"
                    [("host", "api.local:8080"); ("x-trace-id", "t-1")]
                    "api.local" None None None None None None None)) as Ht
    by (vm_compute; reflexivity).
  apply (reused_id_evicted_early 10 60000 60010 "t-1" "fresh" startedAt0 _
           200 None Ht).
  - discriminate.
  - vm_compute. discriminate.
Defined.

(** An error recorded when a trace is finished stays on it: a later
    [finishTrace] without an error writes the new status code and the new
    duration and leaves the error text of the earlier call. *)
Theorem finishTrace_keeps_error (now1 now2 : Z) (traceId e : string)
    (st : State) (trace : RequestTrace) (status1 status2 : nat) :
  traces st !! traceId = Some trace ->
  e <> "" ->
  let st1 := snd (finishTrace now1 traceId status1 (Some e) None None st) in
  exists t',
    fst (finishTrace now2 traceId status2 None None None st1) = Some t'
    /\ statusCode t' = Some status2
    /\ error t' = Some e
    /\ duration t' = Some (now2 - timestamp trace)%Z.
Proof.
  intros Ht Hne st1. unfold st1, finishTrace. rewrite Ht.
  cbn [snd traces]. rewrite lookup_insert_eq. cbn [fst].
  eexists. split; [reflexivity|]. cbn [statusCode error duration timestamp].
  apply truthy_Some in Hne. rewrite Hne. cbn [JS.truthy]. now repeat split.
Qed.

Lemma finishTrace_keeps_error_witness :
  exists t',
    fst (finishTrace 25 "t-1" 200 None None None
           (snd (finishTrace 10 "t-1" 500 (Some "socket hang up") None None
                   startedAt0)))
    = Some t'
    /\ statusCode t' = Some 200
    /\ error t' = Some "socket hang up"
    /\ duration t' = Some (25 - 0)%Z.
Proof.
  assert (traces startedAt0 !! "t-1"
          = Some (mkTrace "t-1" 0 "GET" "/users"
                    [("host", "api.local:8080"); ("x-trace-id", "t-1")]
                    "api.local" None None None None None None None)) as Ht
    by (vm_compute; reflexivity).
  refine (finishTrace_keeps_error 10 25 "t-1" "socket hang up" startedAt0 _
            500 200 Ht _).
  discriminate.
Defined.

End TraceMore.

(** ** More on streaming *)

Section StreamingMore.

Import LogStreamer.

(** The level filter of a client is the threshold of the logger: for an
    entry of level error, warn, info or debug, a client that asked for level
    [L] and no domain is sent the entry exactly when a logger at [L] would
    log it.  A client that asked for a domain is sent only entries of that
    domain, so none of the entries without a domain; a client without
    options is sent everything. *)
Theorem client_filter_is_logger_threshold (entry : LogEntry)
    (options : LogStreamOptions) :
  (forall L streamer,
     e_level entry <> LNone ->
     o_level options = Some L -> o_domain options = None ->
     shouldIncludeLog entry options
     = Logger.shouldLog (Logger.mkState L ∅ streamer) (e_level entry) None)
  /\ (forall d, o_domain options = Some d -> d <> "" ->
        shouldIncludeLog entry options = true -> e_domain entry = Some d)
  /\ shouldIncludeLog entry noOptions = true.
Proof.
  split; [|split].
  - intros L streamer Hl HL Hd. unfold shouldIncludeLog, Logger.shouldLog.
    rewrite HL, Hd. cbn [Logger.targetLevel Logger.globalLevel JS.truthy andb].
    rewrite !indexOf_rank.
    destruct L, (e_level entry); try congruence; reflexivity.
  - intros d Hd Hne. unfold shouldIncludeLog. rewrite Hd.
    apply truthy_Some in Hne. rewrite Hne. cbn [andb].
    destruct (negb _); [discriminate|].
    destruct (bool_decide (e_domain entry = Some d)) eqn:B; [|discriminate].
    intros _. now apply bool_decide_eq_true in B.
  - reflexivity.
Qed.

Lemma client_filter_is_logger_threshold_witness :
  shouldIncludeLog (mkEntry 0 LDebug "t-1" "details" None None)
                   (levelOptions LInfo)
  = Logger.shouldLog (Logger.mkState LInfo ∅ None)
      (e_level (mkEntry 0 LDebug "t-1" "details" None None)) None.
Proof.
  apply (proj1 (client_filter_is_logger_threshold
                  (mkEntry 0 LDebug "t-1" "details" None None)
                  (levelOptions LInfo)) LInfo None);
    [discriminate | reflexivity | reflexivity].
Defined.

(** A broadcast keeps no client that is not open, sends each client that
    stays either nothing or the entry, once, after what it had, and sends
    the entry to every open client whose filter accepts it and whose [send]
    works; it never adds a client. *)
Theorem broadcast_reaches_open_clients (entry : LogEntry) (cs : list Client) :
  let cs' := fst (broadcastToClients entry cs) in
  length cs' <= length cs
  /\ (forall c', In c' cs' ->
        isOpen c' = true
        /\ exists c, In c cs
             /\ ((accepts c entry = false /\ c' = c)
                 \/ (accepts c entry = true /\ sendThrows c = false
                     /\ c' = delivered entry c)))
  /\ (forall c, In c cs -> isOpen c = true -> accepts c entry = true ->
        sendThrows c = false -> In (delivered entry c) cs')
  /\ (forall c, In c cs -> isOpen c = true -> accepts c entry = false ->
        In c cs').
Proof.
  induction cs as [|c cs IH]; cbn zeta.
  - split; [reflexivity|]. split; [intros c' []|]. split; intros c [].
  - cbn [broadcastToClients]. cbn zeta in IH.
    destruct (broadcastToClients entry cs) as [rest evs]. cbn [fst] in IH.
    destruct IH as (IHlen & IHin & IHsent & IHkept).
    unfold accepts, delivered in *.
    destruct (isOpen c) eqn:O; cbn [negb].
    + destruct (shouldIncludeLog entry (default noOptions (streamOptions c)))
        eqn:A; cbn [negb].
      * destruct (sendThrows c) eqn:T; cbn [fst].
        -- split; [simpl; lia|]. split; [|split].
           ++ intros c' Hin. destruct (IHin c' Hin) as [Ho (c0 & Hc0 & H)].
              split; [exact Ho|]. exists c0. split; [now right | exact H].
           ++ intros c0 [<-|Hin] Ho Ha Hs; [congruence | now apply IHsent].
           ++ intros c0 [<-|Hin] Ho Ha; [congruence | now apply IHkept].
        -- split; [simpl; lia|]. split; [|split].
           ++ intros c' [<-|Hin].
              ** split; [reflexivity|]. exists c. split; [now left|]. right.
                 split; [exact A|]. split; [exact T|]. now rewrite O, T.
              ** destruct (IHin c' Hin) as [Ho (c0 & Hc0 & H)].
                 split; [exact Ho|]. exists c0. split; [now right | exact H].
           ++ intros c0 [<-|Hin] Ho Ha Hs;
                [left; now rewrite Ho, Hs | right; now apply IHsent].
           ++ intros c0 [<-|Hin] Ho Ha; [congruence | right; now apply IHkept].
      * cbn [fst]. split; [simpl; lia|]. split; [|split].
        -- intros c' [<-|Hin].
           ++ split; [exact O|]. exists c. split; [now left|]. left. now split.
           ++ destruct (IHin c' Hin) as [Ho (c0 & Hc0 & H)].
              split; [exact Ho|]. exists c0. split; [now right | exact H].
        -- intros c0 [<-|Hin] Ho Ha Hs; [congruence | right; now apply IHsent].
        -- intros c0 [<-|Hin] Ho Ha; [now left | right; now apply IHkept].
    + cbn [fst]. split; [simpl; lia|]. split; [|split].
      * intros c' Hin. destruct (IHin c' Hin) as [Ho (c0 & Hc0 & H)].
        split; [exact Ho|]. exists c0. split; [now right | exact H].
      * intros c0 [<-|Hin] Ho Ha Hs; [congruence | now apply IHsent].
      * intros c0 [<-|Hin] Ho Ha; [congruence | now apply IHkept].
Qed.

Lemma broadcast_reaches_open_clients_witness :
  In (delivered (mkEntry 0 LWarn "t-1" "slow" None None) newClient)
     (fst (broadcastToClients (mkEntry 0 LWarn "t-1" "slow" None None)
             [ mkClient false None false []; newClient ])).
Proof.
  apply (proj1 (proj2 (proj2 (broadcast_reaches_open_clients
           (mkEntry 0 LWarn "t-1" "slow" None None)
           [ mkClient false None false []; newClient ]))));
    [right; now left | reflexivity | reflexivity | reflexivity].
Defined.


Lemma pushBuffer_last (entry : LogEntry) (buffer : list LogEntry) :
  last (pushBuffer entry buffer) = Some entry.
Proof.
  unfold pushBuffer.
  destruct (Nat.ltb_spec maxBufferSize (length (buffer ++ [entry])%list)) as [L|L];
    [|apply last_snoc].
  destruct buffer as [|x buffer].
  - simpl in L. unfold maxBufferSize in L. lia.
  - cbn [app tl]. apply last_snoc.
Qed.

(** A call of [log] leaves the levels of the logger as they are and the
    buffer of its streamer within 1000 entries.  An accepted entry, stamped
    with the time of the call, becomes the last entry of the buffer and is
    written to the file when there is one; after that it is printed on the
    console exactly once, as the last thing the call does: on
    [console.error] for level error, [console.warn] for warn,
    [console.debug] for debug and [console.log] for the rest.  For a
    rejected entry the streamer is untouched and nothing happens. *)
Theorem log_reaches_buffer_and_console (now : Z) (level : LogLevel)
    (message traceId : string) (domain : option string) (data : option Json)
    (lg : Logger.State) (s : State) :
  Logger.streamer lg = Some s ->
  length (logBuffer s) <= 1000 ->
  let entry := mkEntry now level traceId message domain data in
  let lg' := fst (Logger.log now level message traceId domain data lg) in
  let events := snd (Logger.log now level message traceId domain data lg) in
  Logger.globalLevel lg' = Logger.globalLevel lg
  /\ Logger.domainLevels lg' = Logger.domainLevels lg
  /\ exists s',
       Logger.streamer lg' = Some s'
       /\ length (logBuffer s') <= 1000
       /\ (Logger.shouldLog lg level domain = true ->
           last (logBuffer s') = Some entry
           /\ exists streamed,
                events
                = (streamed
                   ++ [ ConsoleOut
                          match level with
                          | LError => ConsoleError
                          | LWarn => ConsoleWarn
                          | LDebug => ConsoleDebug
                          | LInfo | LNone => ConsoleLog
                          end
                          entry ])%list
                /\ (forall channel e, ~ In (ConsoleOut channel e) streamed)
                /\ (JS.truthy (logFile s) = true ->
                    exists sent, streamed = WriteToFile entry :: sent
                                 /\ forall e, ~ In (WriteToFile e) sent)
                /\ (JS.truthy (logFile s) = false ->
                    forall e, ~ In (WriteToFile e) streamed))
       /\ (Logger.shouldLog lg level domain = false -> s' = s /\ events = []).
Proof.
  intros Hs Hlen entry lg' events. unfold lg', events, Logger.log.
  destruct (Logger.shouldLog lg level domain) eqn:S; cbn [negb].
  - rewrite Hs. fold entry.
    pose proof (logBuffer_streamLog entry s) as Hbuf.
    assert (snd (streamLog entry s)
            = ((if JS.truthy (logFile s) then [WriteToFile entry] else [])
               ++ snd (broadcastToClients entry (clients s)))%list) as Hev.
    { unfold streamLog. now destruct (broadcastToClients entry (clients s)). }
    assert (forall ev, In ev (snd (broadcastToClients entry (clients s))) ->
              ev = SendFailed) as Hsends.
    { generalize (clients s). intros cs. induction cs as [|c cs IH];
        intros ev; [intros []|].
      cbn [broadcastToClients].
      destruct (broadcastToClients entry cs) as [rest evs]. cbn [snd] in IH.
      destruct (negb (isOpen c)); [apply IH|].
      destruct (negb (shouldIncludeLog entry _)); [apply IH|].
      destruct (sendThrows c); [|apply IH].
      cbn [snd]. intros [<-|H]; [reflexivity | exact (IH _ H)]. }
    destruct (streamLog entry s) as [s' evs]. cbn [fst snd] in *.
    split; [reflexivity|]. split; [reflexivity|].
    exists s'. split; [reflexivity|]. split.
    { rewrite Hbuf. now apply pushBuffer_length. }
    split; [|discriminate]. intros _. split.
    + rewrite Hbuf. apply pushBuffer_last.
    + exists evs. split; [now destruct level|]. rewrite Hev. split; [|split].
      * intros channel e Hin. apply in_app_or in Hin as [Hin|Hin].
        -- destruct (JS.truthy (logFile s)); [|destruct Hin].
           destruct Hin as [H|[]]. discriminate.
        -- apply Hsends in Hin. discriminate.
      * intros ->. eexists. split; [reflexivity|].
        intros e Hin. apply Hsends in Hin. discriminate.
      * intros -> e Hin. apply Hsends in Hin. discriminate.
  - cbn [fst snd]. split; [reflexivity|]. split; [reflexivity|].
    exists s. split; [exact Hs|]. split; [exact Hlen|].
    split; [discriminate|]. intros _. now split.
Qed.

Lemma log_reaches_buffer_and_console_witness :
  exists s' streamed,
    Logger.streamer
      (fst (Logger.log 5 LError "boom" "t-1" None None
              (Logger.mkState LInfo ∅ (Some emptyStreamer))))
    = Some s'
    /\ length (logBuffer s') <= 1000
    /\ last (logBuffer s') = Some (mkEntry 5 LError "t-1" "boom" None None)
    /\ snd (Logger.log 5 LError "boom" "t-1" None None
              (Logger.mkState LInfo ∅ (Some emptyStreamer)))
       = (streamed
          ++ [ ConsoleOut ConsoleError
                 (mkEntry 5 LError "t-1" "boom" None None) ])%list
    /\ forall channel e, ~ In (ConsoleOut channel e) streamed.
Proof.
  destruct (log_reaches_buffer_and_console 5 LError "boom" "t-1" None None
              (Logger.mkState LInfo ∅ (Some emptyStreamer)) emptyStreamer
              eq_refl (Nat.le_0_l 1000))
    as (_ & _ & s' & H1 & H2 & H3 & _).
  destruct (H3 eq_refl) as (H4 & streamed & H5 & H6 & _).
  exists s', streamed.
  split; [exact H1|]. split; [exact H2|]. split; [exact H4|].
  split; [exact H5 | exact H6].
Defined.

Lemma sendEach_works (format : Format) (entries : list LogEntry)
    (client : Client) :
  sendThrows client = false ->
  LogHistory.sendEach format entries client
  = (mkClient (isOpen client) (streamOptions client) (sendThrows client)
       (received client ++ map (fun e => (format, e)) entries)%list,
     false).
Proof.
  revert client. induction entries as [|e entries IH]; intros client H.
  - cbn [LogHistory.sendEach map]. rewrite app_nil_r. now destruct client.
  - cbn [LogHistory.sendEach map]. rewrite H, IH by reflexivity.
    cbn [isOpen streamOptions sendThrows received].
    rewrite <- app_assoc. reflexivity.
Qed.

(** A socket that connects with [history=true] is sent, oldest first and
    in its format, the entries its filter accepts among the last 1000 that
    were streamed, and nothing else; it is then the last of the clients,
    with its options stored.  A socket whose [send] throws gets nothing. *)
Theorem history_is_the_filtered_buffer (entries : list LogEntry)
    (options : LogStreamOptions) (client : Client) (st : State) :
  logBuffer st = [] ->
  let st' := streamAll entries st in
  let recent :=
    List.filter (fun e => shouldIncludeLog e options)
                (skipn (length entries - 1000) entries) in
  (sendThrows client = false ->
   last (clients (LogHistory.connect options true client st'))
   = Some (mkClient (isOpen client) (Some options) false
             (received client
              ++ map (fun e => (formatOf options, e)) recent)%list))
  /\ (sendThrows client = true ->
      last (clients (LogHistory.connect options true client st'))
      = Some (mkClient (isOpen client) (Some options) true (received client)))
  /\ last (clients (LogHistory.connect options false client st'))
     = Some (mkClient (isOpen client) (Some options) (sendThrows client)
               (received client))
  /\ logBuffer (LogHistory.connect options true client st') = logBuffer st'.
Proof.
  intros Hempty st' recent.
  assert (logBuffer st' = skipn (length entries - 1000) entries) as Hb.
  { unfold st'. rewrite logBuffer_streamAll, Hempty.
    exact (pushAll_keepLast entries []). }
  unfold LogHistory.connect, LogHistory.sendLogHistory.
  cbn [clients logBuffer]. rewrite Hb. fold recent.
  split; [|split; [|split; [|reflexivity]]].
  - intros Hs. rewrite sendEach_works by exact Hs. cbn [fst].
    rewrite last_snoc. cbn [isOpen sendThrows received]. now rewrite Hs.
  - intros Hs. rewrite last_snoc.
    destruct recent as [|e recent']; cbn [LogHistory.sendEach fst];
      rewrite ?Hs; cbn [fst]; now rewrite ?Hs.
  - now rewrite last_snoc.
Qed.

Lemma history_is_the_filtered_buffer_witness :
  last (clients (LogHistory.connect (levelOptions LWarn) true newClient
                   (streamAll [ mkEntry 1 LInfo "t-1" "start" None None;
                                mkEntry 2 LError "t-1" "boom" None None ]
                              emptyStreamer)))
  = Some (mkClient (isOpen newClient) (Some (levelOptions LWarn)) false
            (received newClient
             ++ map (fun e => (formatOf (levelOptions LWarn), e))
                  (List.filter
                     (fun e => shouldIncludeLog e (levelOptions LWarn))
                     (skipn (length [ mkEntry 1 LInfo "t-1" "start" None None;
                                      mkEntry 2 LError "t-1" "boom" None None ]
                             - 1000)
                            [ mkEntry 1 LInfo "t-1" "start" None None;
                              mkEntry 2 LError "t-1" "boom" None None ])))%list).
Proof.
  apply (proj1 (history_is_the_filtered_buffer
                  [ mkEntry 1 LInfo "t-1" "start" None None;
                    mkEntry 2 LError "t-1" "boom" None None ]
                  (levelOptions LWarn) newClient emptyStreamer eq_refl)).
  reflexivity.
Defined.

End StreamingMore.

(** ** More on rotation *)

Section RotationMore.

Import LogRotation.




Lemma shiftFiles_untouched (baseName file : string) (i : nat) (disk : Disk) :
  file <> baseName ->
  (forall j, 2 <= j <= i + 1 -> file <> numbered baseName j) ->
  shiftFiles baseName i disk !! file = disk !! file.
Proof.
  revert disk. induction i as [|m IH]; intros disk Hb Hn; [reflexivity|].
  cbn [shiftFiles]. rewrite IH; [|exact Hb|intros j Hj; apply Hn; lia].
  apply rename_other.
  - destruct (S m =? 1)%nat eqn:E; [exact Hb|].
    apply Nat.eqb_neq in E. apply Hn. lia.
  - apply Hn. lia.
Qed.

Lemma shiftFiles_moves (baseName content : string) (i j : nat) (disk : Disk) :
  2 <= j <= i ->
  disk !! numbered baseName j = Some content ->
  shiftFiles baseName i disk !! numbered baseName (j + 1) = Some content.
Proof.
  revert disk. induction i as [|m IH]; intros disk Hj Hc; [lia|].
  cbn [shiftFiles].
  assert ((S m =? 1)%nat = false) as E by (apply Nat.eqb_neq; lia).
  rewrite E.
  destruct (decide (j = S m)) as [->|Hne].
  - rewrite shiftFiles_untouched.
    + now apply rename_moves.
    + apply numbered_not_base.
    + intros k Hk H. apply numbered_inj in H. lia.
  - apply IH; [lia|]. rewrite rename_other; [exact Hc| |].
    + intros H. apply numbered_inj in H. lia.
    + intros H. apply numbered_inj in H. lia.
Qed.

(** A rotation moves every backup numbered 2 up to [maxFiles - 1] one
    number up, so that the one numbered [maxFiles] is replaced; it leaves
    the files numbered above [maxFiles] and every file that is not the log
    or one of its numbered files as they are.  This is so after
    [rotateFiles], and the new stream that [rotate] then opens touches the
    log file only. *)
Theorem rotation_shifts_upper_backups (st : State) (disk : Disk) :
  (forall j content,
     2 <= j < maxFiles (config st) ->
     disk !! numbered (logPath st) j = Some content ->
     rotateFiles st disk !! numbered (logPath st) (j + 1) = Some content)
  /\ (forall k, maxFiles (config st) < k ->
        rotateFiles st disk !! numbered (logPath st) k
        = disk !! numbered (logPath st) k)
  /\ (forall file,
        file <> logPath st -> (forall j, file <> numbered (logPath st) j) ->
        rotateFiles st disk !! file = disk !! file)
  /\ (forall st' disk' file,
        rotate st disk = Some (st', disk') -> file <> logPath st ->
        disk' !! file = rotateFiles st disk !! file)
  /\ (2 <= maxFiles (config st) ->
      exists st' disk', rotate st disk = Some (st', disk')).
Proof.
  unfold rotateFiles, unlink.
  split; [|split; [|split; [|split]]].
  - intros j content Hj Hc.
    apply shiftFiles_moves; [lia|].
    rewrite lookup_delete_ne; [exact Hc|].
    intros H. apply numbered_inj in H. lia.
  - intros k Hk.
    rewrite shiftFiles_untouched.
    + apply lookup_delete_ne. intros H. apply numbered_inj in H. lia.
    + apply numbered_not_base.
    + intros j Hj H. apply numbered_inj in H. lia.
  - intros file Hb Hn.
    rewrite shiftFiles_untouched; [|exact Hb|intros j _; apply Hn].
    apply lookup_delete_ne. apply not_eq_sym, Hn.
  - intros st' disk' file Hr Hb. unfold rotate in Hr.
    destruct (rotateFiles st disk !! logPath st); [discriminate|].
    injection Hr as <- <-. unfold openTruncate, rotateFiles, unlink.
    now rewrite lookup_insert_ne by congruence.
  - intros Hm. rewrite rotate_result by exact Hm. eauto.
Qed.

Lemma rotation_shifts_upper_backups_witness :
  rotateFiles sampleEngine {[ numbered "proxy.log" 3 := "older" ]}
    !! numbered "proxy.log" (3 + 1)
  = Some "older".
Proof.
  apply (proj1 (rotation_shifts_upper_backups sampleEngine
                  {[ numbered "proxy.log" 3 := "older" ]}) 3 "older").
  - vm_compute. lia.
  - apply lookup_singleton_eq.
Defined.

End RotationMore.

(** ** Body capture *)

Section BodyCaptureFacts.

Import BodyCapture.

Lemma length_substringTo (n : nat) (s : string) :
  String.length (JS.substringTo n s) <= n.
Proof.
  revert s. induction n as [|n IH]; intros [|a s]; simpl; try lia.
  specialize (IH s). lia.
Qed.

(** A formatted body is never longer than [maxLength] and the 16
    characters of the truncation mark (or than the 12 of [[Empty body]]),
    whatever the body and its pretty-printed form; a body that is not empty,
    not announced as JSON and within [maxLength] is given as it is. *)
Theorem formatBody_is_bounded (prettyJson : string -> option string)
    (body : string) (contentType : option string) (maxLength : nat) :
  String.length (formatBody prettyJson body contentType maxLength)
  <= Nat.max 12 (maxLength + 16)
  /\ (body <> "" -> String.length body <= maxLength ->
      (forall ct, contentType = Some ct ->
         Masking.includesStr ct "application/json" = false) ->
      formatBody prettyJson body contentType maxLength = body)
  /\ (body = "" ->
      formatBody prettyJson body contentType maxLength = "[Empty body]").
Proof.
  assert (forall s, String.length
                      (if (maxLength <? String.length s)%nat
                       then JS.substringTo maxLength s ++ "... [truncated]"
                       else s) <= maxLength + 16) as Hplain.
  { intros s. destruct (Nat.ltb_spec maxLength (String.length s)) as [L|L];
      [|lia].
    rewrite length_app_string. pose proof (length_substringTo maxLength s).
    simpl. lia. }
  unfold formatBody. split; [|split].
  - destruct (String.length body =? 0)%nat; [simpl; lia|].
    destruct (match contentType with
              | Some ct => Masking.includesStr ct "application/json"
              | None => false
              end).
    + destruct (prettyJson body) as [formatted|].
      * destruct (Nat.ltb_spec maxLength (String.length formatted)) as [L|L];
          [|lia].
        rewrite !length_app_string.
        pose proof (length_substringTo maxLength formatted). simpl. lia.
      * specialize (Hplain body). lia.
    + specialize (Hplain body). lia.
  - intros Hne Hlen Hct.
    destruct (String.length body =? 0)%nat eqn:E;
      [apply Nat.eqb_eq, length_zero_string in E; congruence|].
    assert ((maxLength <? String.length body)%nat = false) as Hshort
      by (apply Nat.ltb_ge; exact Hlen).
    rewrite Hshort.
    destruct contentType as [ct|]; [|reflexivity].
    now rewrite (Hct ct eq_refl).
  - now intros ->.
Qed.

Lemma formatBody_is_bounded_witness :
  formatBody (fun _ => None) "name=hop" (Some "text/plain") 500 = "name=hop".
Proof.
  apply (proj1 (proj2 (formatBody_is_bounded (fun _ => None) "name=hop"
                         (Some "text/plain") 500))).
  - discriminate.
  - vm_compute. lia.
  - intros ct [= <-]. reflexivity.
Defined.

Lemma totalBytes_app (a b : list string) :
  totalBytes (a ++ b)%list = (totalBytes a + totalBytes b)%N.
Proof.
  induction a as [|x a IH]; simpl; [reflexivity|].
  unfold totalBytes in *. simpl. rewrite IH. lia.
Qed.

Lemma pipe_invariant (inputs : list string) (c : Capture) :
  snd (pipe inputs c) = inputs
  /\ totalSize (fst (pipe inputs c)) = (totalSize c + totalBytes inputs)%N
  /\ exists kept rest,
       chunks (fst (pipe inputs c)) = (chunks c ++ kept)%list
       /\ inputs = (kept ++ rest)%list
       /\ ((totalSize c + totalBytes inputs <= maxSize)%N -> rest = [])
       /\ (kept <> [] -> (totalSize c + totalBytes kept <= maxSize)%N).
Proof.
  revert c. induction inputs as [|chunk inputs IH]; intros c.
  - cbn [pipe fst snd]. split; [reflexivity|]. split; [simpl; lia|].
    exists [], []. rewrite app_nil_r. repeat split; congruence.
  - cbn [pipe]. unfold transform.
    set (c1 := mkCapture _ _). specialize (IH c1).
    destruct (pipe inputs c1) as [c2 outs]. cbn [fst snd] in *.
    destruct IH as (Hout & Htotal & kept & rest & Hchunks & Hin & Hall & Hbound).
    assert (totalBytes (chunk :: inputs)
            = (chunkLength chunk + totalBytes inputs)%N) as Hcons
      by reflexivity.
    split; [now rewrite Hout|]. split.
    { rewrite Htotal. unfold c1. cbn [totalSize]. rewrite Hcons. lia. }
    unfold c1 in Hchunks, Hall, Hbound. cbn [chunks totalSize] in *.
    destruct (N.leb_spec (totalSize c + chunkLength chunk) maxSize) as [L|L].
    + exists (chunk :: kept), rest. split; [|split; [|split]].
      * rewrite Hchunks, <- app_assoc. reflexivity.
      * simpl. now rewrite Hin.
      * intros Hle. apply Hall. rewrite Hcons in Hle. lia.
      * intros _. destruct kept as [|k kept'].
        -- unfold totalBytes. simpl. lia.
        -- assert (totalBytes (chunk :: k :: kept')
                   = (chunkLength chunk + totalBytes (k :: kept'))%N) as ->
             by reflexivity.
           specialize (Hbound ltac:(discriminate)). lia.
    + assert (kept = []) as ->.
      { destruct kept as [|k kept']; [reflexivity|].
        specialize (Hbound ltac:(discriminate)).
        assert (0 <= totalBytes (k :: kept'))%N by lia. lia. }
      exists [], (chunk :: inputs). rewrite app_nil_r in *.
      split; [exact Hchunks|]. split; [reflexivity|]. split.
      * intros Hle. rewrite Hcons in Hle.
        assert (0 <= totalBytes inputs)%N by lia. lia.
      * congruence.
Qed.

(** The capture stream passes every chunk on as it came, whatever the
    size of the body; what it keeps is a head of the chunks, never more than
    1 MiB of them and all of them when the body is within 1 MiB; and for a
    body over 1 MiB [getBody] answers the mark of a body too large. *)
Theorem capture_passes_through_and_is_bounded (inputs : list string) :
  let capture := fst (pipe inputs newCapture) in
  snd (pipe inputs newCapture) = inputs
  /\ totalSize capture = totalBytes inputs
  /\ (totalBytes (chunks capture) <= maxSize)%N
  /\ (exists rest, inputs = (chunks capture ++ rest)%list)
  /\ ((totalBytes inputs <= maxSize)%N -> chunks capture = inputs)
  /\ ((maxSize < totalBytes inputs)%N ->
      forall utf8,
        getBody utf8 capture = "[Response body too large - truncated]").
Proof.
  cbn zeta.
  destruct (pipe_invariant inputs newCapture)
    as (Hout & Htotal & kept & rest & Hchunks & Hin & Hall & Hbound).
  cbn [newCapture chunks totalSize app] in *.
  rewrite N.add_0_l in *.
  split; [exact Hout|]. split; [exact Htotal|]. split; [|split; [|split]].
  - rewrite Hchunks. destruct kept as [|k kept'].
    + unfold totalBytes, maxSize. simpl. lia.
    + specialize (Hbound ltac:(discriminate)). lia.
  - exists rest. now rewrite Hchunks.
  - intros Hle. rewrite Hchunks, Hin, (Hall Hle). now rewrite app_nil_r.
  - intros Hgt utf8. unfold getBody. rewrite Htotal.
    apply N.ltb_lt in Hgt. now rewrite Hgt.
Qed.

Lemma capture_passes_through_and_is_bounded_witness :
  chunks (fst (pipe ["HTTP"; " body"] newCapture)) = ["HTTP"; " body"].
Proof.
  apply (proj1 (proj2 (proj2 (proj2 (proj2
           (capture_passes_through_and_is_bounded ["HTTP"; " body"])))))).
  vm_compute. discriminate.
Defined.


Lemma settled_stays (utf8 : string -> string) (events : list BodyEvent)
    (r : Reading) (o : Outcome) :
  outcome r = Some o ->
  outcome (fold_left (fun r0 ev => onEvent utf8 ev r0) events r) = Some o.
Proof.
  revert r. induction events as [|ev events IH]; intros r H; [exact H|].
  cbn [fold_left]. apply IH.
  destruct ev as [chunk| |message|]; cbn [onEvent]; unfold settle.
  - destruct (maxSize <? seen r + chunkLength chunk)%N; cbn [outcome];
      now rewrite ?H.
  - now rewrite H.
  - now rewrite H.
  - destruct (length (kept r) =? 0)%nat; [now rewrite H | exact H].
Qed.

Lemma data_run (utf8 : string -> string) (l : list string) (r : Reading) :
  outcome r = None -> (seen r <= maxSize)%N ->
  let r' := fold_left (fun r0 ev => onEvent utf8 ev r0) (map Data l) r in
  ((seen r + totalBytes l <= maxSize)%N ->
   outcome r' = None /\ kept r' = (kept r ++ l)%list)
  /\ ((maxSize < seen r + totalBytes l)%N ->
      outcome r' = Some (Resolved "[Request body too large - truncated]")).
Proof.
  revert r. induction l as [|chunk l IH]; intros r Hr Hs; cbn zeta.
  - cbn [map fold_left]. unfold totalBytes. cbn [fold_right].
    split; [intros _; now rewrite app_nil_r | lia].
  - assert (totalBytes (chunk :: l) = (chunkLength chunk + totalBytes l)%N)
      as Hcons by reflexivity.
    assert (0 <= totalBytes l)%N as Hpos by lia.
    cbn [map fold_left onEvent].
    destruct (N.ltb_spec maxSize (seen r + chunkLength chunk)) as [L|L].
    + split; [intros H; rewrite Hcons in H; lia|]. intros _.
      apply settled_stays. unfold settle. cbn [outcome]. now rewrite Hr.
    + specialize (IH (mkReading (kept r ++ [chunk])%list
                                (seen r + chunkLength chunk)%N (outcome r))
                     Hr L).
      cbn zeta in IH. cbn [seen kept] in IH. destruct IH as [IH1 IH2].
      split.
      * intros H. rewrite Hcons in H.
        destruct (IH1 ltac:(lia)) as [Ho Hk]. split; [exact Ho|].
        rewrite Hk, <- app_assoc. reflexivity.
      * intros H. rewrite Hcons in H. apply IH2. lia.
Qed.

(** How the reading of a request body ends, by the order of the events.
    When the timer of 100 ms comes before any data, the body is reported
    empty, whatever arrives later.  When the chunks, within 1 MiB together,
    are followed by the end of the request, the body is their text (or the
    mark of an empty body).  When the chunks pass 1 MiB, the body is
    reported too large.  An error before all this rejects the promise. *)
Theorem captureRequestBody_outcomes (utf8 : string -> string)
    (l : list string) (later : list BodyEvent) :
  outcome (captureRequestBody utf8 (Timeout :: later))
  = Some (Resolved "[Empty request body]")
  /\ (forall message,
        outcome (captureRequestBody utf8 (ReadError message :: later))
        = Some (Rejected message))
  /\ ((totalBytes l <= maxSize)%N ->
      outcome (captureRequestBody utf8 (map Data l ++ End_ :: later))
      = Some (Resolved (if String.eqb (utf8 (concatChunks l)) ""
                        then "[Empty request body]"
                        else utf8 (concatChunks l))))
  /\ ((maxSize < totalBytes l)%N ->
      outcome (captureRequestBody utf8 (map Data l ++ later))
      = Some (Resolved "[Request body too large - truncated]")).
Proof.
  unfold captureRequestBody.
  assert (seen newReading <= maxSize)%N as H0 by (unfold maxSize; simpl; lia).
  pose proof (data_run utf8 l newReading eq_refl H0) as [Hfit Hover].
  cbn zeta in Hfit, Hover. cbn [newReading seen kept app] in Hfit, Hover.
  rewrite N.add_0_l in Hfit, Hover.
  split; [|split; [|split]].
  - cbn [fold_left]. now apply settled_stays.
  - intros message. cbn [fold_left]. now apply settled_stays.
  - intros Hle. destruct (Hfit Hle) as [Ho Hk].
    rewrite fold_left_app. cbn [fold_left]. apply settled_stays.
    cbn [onEvent]. unfold settle. rewrite Ho, Hk. reflexivity.
  - intros Hgt. rewrite fold_left_app. apply settled_stays. now apply Hover.
Qed.

Lemma captureRequestBody_outcomes_witness :
  outcome (captureRequestBody (fun s => s)
             (map Data ["name="; "hop"] ++ End_ :: [Timeout]))
  = Some (Resolved (if String.eqb ((fun s => s)
                                     (concatChunks ["name="; "hop"])) ""
                    then "[Empty request body]"
                    else (fun s => s) (concatChunks ["name="; "hop"]))).
Proof.
  apply (proj1 (proj2 (proj2 (captureRequestBody_outcomes (fun s => s)
                                ["name="; "hop"] [Timeout])))).
  vm_compute. discriminate.
Defined.

End BodyCaptureFacts.

(** ** The hash behind the colours *)

Section ColorFacts.

Import Colors.

Local Open Scope Z_scope.

Lemma toInt32_plus_multiple (z k : Z) : toInt32 (z + k * 2 ^ 32) = toInt32 z.
Proof.
  unfold toInt32.
  replace (z + k * 2 ^ 32 + 2 ^ 31) with (z + 2 ^ 31 + k * 2 ^ 32) by lia.
  now rewrite Z_mod_plus_full.
Qed.

Lemma toInt32_is_multiple_away (z : Z) : exists k, toInt32 z = z + k * 2 ^ 32.
Proof.
  unfold toInt32. exists (- ((z + 2 ^ 31) / 2 ^ 32)).
  pose proof (Z.div_mod (z + 2 ^ 31) (2 ^ 32) ltac:(lia)). lia.
Qed.

Lemma toInt32_range (z : Z) : - 2 ^ 31 <= toInt32 z < 2 ^ 31.
Proof.
  unfold toInt32.
  pose proof (Z.mod_pos_bound (z + 2 ^ 31) (2 ^ 32) ltac:(lia)). lia.
Qed.

Lemma hashStep_wraps (hash : Z) (c : ascii) :
  hashStep hash c = toInt32 (hash * 31 + Z.of_nat (nat_of_ascii c)).
Proof.
  unfold hashStep. cbn zeta. rewrite Z.land_diag, Z.shiftl_mul_pow2 by lia.
  destruct (toInt32_is_multiple_away hash) as [k1 ->].
  destruct (toInt32_is_multiple_away ((hash + k1 * 2 ^ 32) * 2 ^ 5)) as [k2 ->].
  replace ((hash + k1 * 2 ^ 32) * 2 ^ 5 + k2 * 2 ^ 32 - hash
           + Z.of_nat (nat_of_ascii c))
    with (hash * 31 + Z.of_nat (nat_of_ascii c) + (32 * k1 + k2) * 2 ^ 32)
    by lia.
  apply toInt32_plus_multiple.
Qed.

Lemma hashFrom_wraps (str : string) (hash poly : Z) :
  hash = toInt32 poly -> hashFrom hash str = toInt32 (polyFrom poly str).
Proof.
  revert hash poly. induction str as [|c str IH]; intros hash poly H;
    [exact H|].
  cbn [hashFrom polyFrom]. apply IH. rewrite hashStep_wraps, H.
  destruct (toInt32_is_multiple_away poly) as [k ->].
  replace ((poly + k * 2 ^ 32) * 31 + Z.of_nat (nat_of_ascii c))
    with (poly * 31 + Z.of_nat (nat_of_ascii c) + (31 * k) * 2 ^ 32) by lia.
  apply toInt32_plus_multiple.
Qed.

(** The hash of a string is the hash [h * 31 + c] over its characters,
    wrapped to a signed integer of 32 bits; it may be negative, and the
    index of the colour taken from it is always one of the six. *)
Theorem hashCode_is_wrapped_polynomial (str : string) :
  hashCode str = toInt32 (polyFrom 0 str)
  /\ - 2 ^ 31 <= hashCode str < 2 ^ 31
  /\ 0 <= colorIndex str < 6.
Proof.
  assert (hashCode str = toInt32 (polyFrom 0 str)) as H
    by (apply hashFrom_wraps; reflexivity).
  split; [exact H|]. split.
  - rewrite H. apply toInt32_range.
  - unfold colorIndex. apply Z.mod_pos_bound. lia.
Qed.

End ColorFacts.
